(** * HausdorffImageFinder: the Hausdorff metric and its search layers

    A shallow embedding of [hausdorff.h] and of the three search functions
    of [main.cpp] ([findBestTranslation], [findBestTranslationRecursive],
    [findBestTranslationScaleAndRotation]), with the properties the
    specification states about them.

    Conventions.
    - A C++ [int] is a [Z].  Signed overflow is undefined behaviour in C++,
      so additions on [int] are plain additions on [Z], and the properties
      are about the runs in which no [int] overflows; the conversions that
      C++ does define ([int] to [unsigned] and back, the [unsigned long]
      counter) are written out with their wrap-around.
    - The loops of [main.cpp] need not terminate (a step of zero, a scale
      step that is absorbed by rounding): they take fuel and return [None]
      when it runs out.  The two loops of [hausdorff.h] count from zero up
      to a bound by one and are folds.
    - A C++ [double] is an IEEE 754 binary64 value, a [spec_float] at
      precision 53 and maximal exponent 1024; comparisons are the IEEE
      ones ([SFltb], [SFleb]), so a NaN compares false with everything.
    - An image is its dimensions and a row accessor.  [operator[]] of
      [Image<T>] does unchecked pointer arithmetic, so the accessor is
      total: outside the image it yields whatever the memory holds. *)

From Stdlib Require Import ZArith List Bool Lia Sorted.
From Stdlib Require Import Floats.SpecFloat.
Import ListNotations.

Local Open Scope Z_scope.

(** ** Doubles *)

Definition double : Type := spec_float.

Module Double.

Definition prec : Z := 53.
Definition emax : Z := 1024.

(** [a < b], [a <= b] and [a == b] on doubles. *)
Definition lt (a b : double) : bool := SFltb a b.
Definition le (a b : double) : bool := SFleb a b.
Definition eq (a b : double) : bool := SFeqb a b.

(** [a > b] is [b < a]. *)
Definition gt (a b : double) : bool := SFltb b a.

Definition add (a b : double) : double := SFadd prec emax a b.
Definition mul (a b : double) : double := SFmul prec emax a b.
Definition div (a b : double) : double := SFdiv prec emax a b.

(** The conversion of an integer to [double] (exact below 2^53). *)
Definition of_Z (z : Z) : double := binary_normalize prec emax z 0 false.

(** The double [m * 2^e]. *)
Definition of_scaled (m e : Z) : double := binary_normalize prec emax m e false.

(** [std::numeric_limits<double>::min()]: the smallest positive normal
    double, 2^-1022. *)
Definition numeric_limits_min : double :=
  S754_finite false 4503599627370496 (-1074).

(** [std::numeric_limits<double>::max()]: (2^53 - 1) * 2^971. *)
Definition numeric_limits_max : double :=
  S754_finite false 9007199254740991 971.

(** [std::max<double>(a, b)] is [(a < b) ? b : a]. *)
Definition std_max (a b : double) : double := if lt a b then b else a.

Definition zero : double := S754_zero false.

End Double.

(** ** Images *)

(** [Intensity] is [unsigned char]; [Intensity32F] is [float], which the
    metric widens to [double] as soon as it reads it (the widening is
    exact), so a float pixel is kept as the double it widens to. *)
Definition Intensity : Type := Z.
Definition Intensity32F : Type := double.

Record Image (T : Type) : Type := mkImage {
  width : Z;
  height : Z;
  (** [row img y x] is [img[y][x]]. *)
  row : Z -> Z -> T
}.

Arguments mkImage {T} _ _ _.
Arguments width {T} _.
Arguments height {T} _.
Arguments row {T} _ _ _.

Record CvPoint : Type := cvPoint { px : Z; py : Z }.

(** ** Machine integers whose wrap-around C++ defines *)

Definition UINT_MODULUS : Z := 2 ^ 32.

(** [unsigned long] on the compiler the pragmas of [main.cpp] name. *)
Definition ULONG_MODULUS : Z := 2 ^ 32.

Definition INT_MIN : Z := - 2 ^ 31.
Definition INT_MAX : Z := 2 ^ 31 - 1.

Definition int_to_unsigned (z : Z) : Z := z mod UINT_MODULUS.

Definition unsigned_to_int (u : Z) : Z :=
  if u <? 2 ^ 31 then u else u - UINT_MODULUS.

(** [for (int i = 0; i < n; ++i)] visits these indices in this order. *)
Definition upto (n : Z) : list Z := map Z.of_nat (seq 0 (Z.to_nat n)).

(** ** hausdorff.h *)

Definition MAX_HAUSDORFF_DISTANCE : double := Double.of_Z 9999.

(** The running state of [findHausdorffDistance]. *)
Record Scan : Type := mkScan {
  maxDistance : double;
  pointsConsidered : Z
}.

(** The body of the inner loop at column [ix] of row [iy], whose mapped
    row is [y]. *)
Definition scanPixel (imageA : Image Intensity) (imageB : Image Intensity32F)
    (offx iy y : Z) (st : Scan) (ix : Z) : Scan :=
  if negb (row imageA iy ix =? 0) then st
  else
    let x := ix + offx in
    if (x <? 0) || (x >? width imageB) then st
    else
      let considered := (pointsConsidered st + 1) mod ULONG_MODULUS in
      let minDistance := row imageB y x in
      if Double.gt minDistance (maxDistance st)
      then mkScan minDistance considered
      else mkScan (maxDistance st) considered.

(** The body of the outer loop at row [iy]. *)
Definition scanRow (imageA : Image Intensity) (imageB : Image Intensity32F)
    (imageAOffset : CvPoint) (st : Scan) (iy : Z) : Scan :=
  let y := iy + py imageAOffset in
  if (y <? 0) || (y >? height imageB) then st
  else fold_left (scanPixel imageA imageB (px imageAOffset) iy y)
                 (upto (width imageA)) st.

Definition scanImage (imageA : Image Intensity) (imageB : Image Intensity32F)
    (imageAOffset : CvPoint) : Scan :=
  fold_left (scanRow imageA imageB imageAOffset) (upto (height imageA))
            (mkScan Double.numeric_limits_min 0).

Definition findHausdorffDistance (imageA : Image Intensity)
    (imageB : Image Intensity32F) (imageAOffset : CvPoint) : double :=
  let st := scanImage imageA imageB imageAOffset in
  if pointsConsidered st =? 0 then MAX_HAUSDORFF_DISTANCE else maxDistance st.

(** ** main.cpp: the globals *)

(** The four maps the search functions reach through global pointers. *)
Record Globals : Type := mkGlobals {
  needleEdges : Image Intensity;
  needleDistanceTransform : Image Intensity32F;
  haystackEdges : Image Intensity;
  haystackDistanceTransform : Image Intensity32F
}.

(** ** Loops that need not terminate *)

(** [for (i = first; cond(i); i = next(i)) s = body(s, i)].  The result
    is [None] when the fuel runs out before [cond] fails, or when the body
    itself does not return. *)
Fixpoint for_loop {I S : Type} (fuel : nat) (cond : I -> bool) (next : I -> I)
    (i : I) (body : S -> I -> option S) (s : S) : option S :=
  if cond i then
    match fuel with
    | O => None
    | Datatypes.S fuel' =>
        match body s i with
        | None => None
        | Some s' => for_loop fuel' cond next (next i) body s'
        end
    end
  else Some s.

(** The values of the loop variable at which the body runs, at most [n]
    of them. *)
Fixpoint visited {I : Type} (n : nat) (cond : I -> bool) (next : I -> I)
    (i : I) : list I :=
  match n with
  | O => []
  | Datatypes.S n' =>
      if cond i then i :: visited n' cond next (next i) else []
  end.

(** Whether [cond] fails within [n] iterations. *)
Fixpoint stops {I : Type} (n : nat) (cond : I -> bool) (next : I -> I)
    (i : I) : bool :=
  if cond i then
    match n with
    | O => false
    | Datatypes.S n' => stops n' cond next (next i)
    end
  else true.

(** ** findBestTranslation *)

(** [bestX], [bestY] (both [unsigned]) and [bestDistance]. *)
Record Best : Type := mkBest {
  bestX : Z;
  bestY : Z;
  bestDistance : double
}.

(** The body of the inner loop at offset [(x, y)]. *)
Definition visitOffset (g : Globals) (y : Z) (b : Best) (x : Z) : Best :=
  let forwardDist :=
    findHausdorffDistance (needleEdges g) (haystackDistanceTransform g)
                          (cvPoint x y) in
  let reverseDist :=
    findHausdorffDistance (haystackEdges g) (needleDistanceTransform g)
                          (cvPoint (- x) (- y)) in
  let dist := Double.std_max forwardDist reverseDist in
  if Double.lt dist (bestDistance b)
  then mkBest (int_to_unsigned x) (int_to_unsigned y) dist
  else b.

Definition initialBest : Best := mkBest 0 0 Double.numeric_limits_max.

(** [maxX != -1 ? maxX : haystack width - needle width], and likewise
    for [maxY]. *)
Definition maxOffsetX (g : Globals) (maxX : Z) : Z :=
  if negb (maxX =? -1) then maxX
  else width (haystackDistanceTransform g) - width (needleEdges g).

Definition maxOffsetY (g : Globals) (maxY : Z) : Z :=
  if negb (maxY =? -1) then maxY
  else height (haystackDistanceTransform g) - height (needleEdges g).

(** The inner loop of row [y]. *)
Definition searchRow (fuel : nat) (g : Globals) (step minX maxX : Z)
    (b : Best) (y : Z) : option Best :=
  for_loop fuel (fun x => x <? maxOffsetX g maxX) (fun x => x + step) minX
    (fun b' x => Some (visitOffset g y b' x)) b.

Definition searchLoops (fuel : nat) (g : Globals)
    (step minX minY maxX maxY : Z) : option Best :=
  for_loop fuel (fun y => y <? maxOffsetY g maxY) (fun y => y + step) minY
    (searchRow fuel g step minX maxX) initialBest.

(** The returned point, paired with the value stored through [dist]. *)
Definition findBestTranslation (fuel : nat) (g : Globals)
    (step minX minY maxX maxY : Z) : option (CvPoint * double) :=
  match searchLoops fuel g step minX minY maxX maxY with
  | None => None
  | Some b =>
      Some (cvPoint (unsigned_to_int (bestX b)) (unsigned_to_int (bestY b)),
            bestDistance b)
  end.

(** ** findBestTranslationRecursive *)

Module Refine.

(** The locals of [findBestTranslationRecursive] that the loop updates. *)
Record State : Type := mkState {
  bestDistance : double;
  bestTranslation : CvPoint;
  minX : Z;
  minY : Z;
  maxX : Z;
  maxY : Z
}.

End Refine.

Definition absoluteMaxX (g : Globals) : Z :=
  width (haystackDistanceTransform g) - width (needleEdges g).

Definition absoluteMaxY (g : Globals) : Z :=
  height (haystackDistanceTransform g) - height (needleEdges g).

(** What one round does with the result of its [findBestTranslation]. *)
Definition refineUpdate (g : Globals) (step : Z) (st : Refine.State)
    (found : CvPoint * double) : Refine.State :=
  let (translation, distance) := found in
  if Double.lt distance (Refine.bestDistance st)
  then Refine.mkState distance translation
         (Z.max 0 (px translation - step))
         (Z.max 0 (py translation - step))
         (Z.min (absoluteMaxX g) (px translation + step))
         (Z.min (absoluteMaxY g) (py translation + step))
  else st.

(** The body of the loop over [step]. *)
Definition refineRound (fuel : nat) (g : Globals) (st : Refine.State)
    (step : Z) : option Refine.State :=
  match findBestTranslation fuel g step (Refine.minX st) (Refine.minY st)
                            (Refine.maxX st) (Refine.maxY st) with
  | None => None
  | Some found => Some (refineUpdate g step st found)
  end.

(** [bestTranslation] is declared without an initializer: [garbage] is
    the value it happens to hold. *)
Definition refineInit (g : Globals) (garbage : CvPoint) : Refine.State :=
  Refine.mkState Double.numeric_limits_max garbage
                 0 0 (absoluteMaxX g) (absoluteMaxY g).

Definition refineLoop (fuel : nat) (g : Globals) (initialStep : Z)
    (st : Refine.State) : option Refine.State :=
  for_loop fuel (fun step => step >? 0) (fun step => Z.quot step 2)
    initialStep (refineRound fuel g) st.

Definition findBestTranslationRecursive (fuel : nat) (g : Globals)
    (garbage : CvPoint) (initialStep : Z) : option (CvPoint * double) :=
  match refineLoop fuel g initialStep (refineInit g garbage) with
  | None => None
  | Some st => Some (Refine.bestTranslation st, Refine.bestDistance st)
  end.

(** ** findBestTranslationScaleAndRotation *)

(** The two OpenCV calls of the pose search.  [cv2DRotationMatrix] gets
    the centre as the pair of integers [cvPoint2D32f] is built from.
    [cvWarpAffine] is called with the flags [1+8] (bilinear, every
    destination pixel written) and the fill value 255 only: it gives the
    pixels of the destination from the source, the size of the
    destination and the matrix. *)
Class OpenCV : Type := {
  CvMat : Type;
  cv2DRotationMatrix : CvPoint -> double -> double -> CvMat;
  cvWarpAffine : Image Intensity -> Z -> Z -> CvMat -> Z -> Z -> Intensity
}.

(** [cvWarpAffine(src, dst, m, 1+8, cvScalarAll(255))]: [dst] keeps its
    size and gets new pixels. *)
Definition warpInto `{OpenCV} (src dst : Image Intensity) (m : CvMat)
    : Image Intensity :=
  mkImage (width dst) (height dst)
          (cvWarpAffine src (width dst) (height dst) m).

Definition setNeedleEdges (g : Globals) (img : Image Intensity) : Globals :=
  mkGlobals img (needleDistanceTransform g) (haystackEdges g)
            (haystackDistanceTransform g).

(** The literals [3.14] and [180.0]. *)
Definition literal_3_14 : double := Double.of_scaled 7070651414971679 (-51).
Definition literal_180 : double := Double.of_Z 180.

(** [rotation * 3.14 / 180.0]. *)
Definition angleOf (rotation : Z) : double :=
  Double.div (Double.mul (Double.of_Z rotation) literal_3_14) literal_180.

Module Pose.

(** What the sweep updates: [bestDistance], the three cells behind the
    out-pointers ([None] for a null pointer), the two matrices, and the
    globals, of which [needleEdges] is overwritten for every pose. *)
Record State `{OpenCV} : Type := mkState {
  bestDistance : double;
  bestTranslation : option CvPoint;
  bestRotation : option Z;
  bestScale : option double;
  rotMat : CvMat;
  bestRotMat : CvMat;
  globals : Globals
}.

Arguments mkState {_} _ _ _ _ _ _ _.

End Pose.

(** [if (p) *p = v]. *)
Definition store {A : Type} (p : option A) (v : A) : option A :=
  match p with
  | Some _ => Some v
  | None => None
  end.

(** The body of the loop over [scale]. *)
Definition tryPose `{OpenCV} (fuel : nat) (garbage : CvPoint)
    (backupPrior : Image Intensity) (center : CvPoint)
    (initialTranslationStep rotation : Z) (angle : double)
    (st : Pose.State) (scale : double) : option Pose.State :=
  let rotMat := cv2DRotationMatrix center angle scale in
  let g :=
    setNeedleEdges (Pose.globals st)
      (warpInto backupPrior (needleEdges (Pose.globals st)) rotMat) in
  match findBestTranslationRecursive fuel g garbage initialTranslationStep with
  | None => None
  | Some (point, dist) =>
      if Double.lt dist (Pose.bestDistance st)
      then Some (Pose.mkState dist
                   (store (Pose.bestTranslation st) point)
                   (store (Pose.bestRotation st) rotation)
                   (store (Pose.bestScale st) scale)
                   rotMat rotMat g)
      else Some (Pose.mkState (Pose.bestDistance st)
                   (Pose.bestTranslation st) (Pose.bestRotation st)
                   (Pose.bestScale st)
                   rotMat (Pose.bestRotMat st) g)
  end.

(** The body of the loop over [rotation]. *)
Definition tryRotation `{OpenCV} (fuel : nat) (garbage : CvPoint)
    (backupPrior : Image Intensity) (center : CvPoint)
    (initialTranslationStep : Z) (minScale maxScale scaleStep : double)
    (st : Pose.State) (rotation : Z) : option Pose.State :=
  let angle := angleOf rotation in
  for_loop fuel (fun scale => Double.le scale maxScale)
    (fun scale => Double.add scale scaleStep) minScale
    (tryPose fuel garbage backupPrior center initialTranslationStep
             rotation angle) st.

(** The whole function.  [rotMat0] and [bestRotMat0] are what
    [cvCreateMat] leaves in the two fresh matrices; the three [option]
    arguments are the cells behind the out-pointers.  The result is the
    final state, whose [Pose.bestDistance] is the value returned and whose
    [Pose.globals] hold the needle edge map as the function leaves it. *)
Definition findBestTranslationScaleAndRotation `{OpenCV} (fuel : nat)
    (g : Globals) (garbage : CvPoint) (rotMat0 bestRotMat0 : CvMat)
    (bestTranslation : option CvPoint) (bestRotation : option Z)
    (bestScale : option double)
    (initialTranslationStep minRotation maxRotation rotationStep : Z)
    (minScale maxScale scaleStep : double) : option Pose.State :=
  let center :=
    cvPoint (Z.quot (width (needleEdges g)) 2)
            (Z.quot (height (needleEdges g)) 2) in
  let backupPrior := needleEdges g in
  match
    for_loop fuel (fun rotation => rotation <=? maxRotation)
      (fun rotation => rotation + rotationStep) minRotation
      (tryRotation fuel garbage backupPrior center initialTranslationStep
                   minScale maxScale scaleStep)
      (Pose.mkState Double.numeric_limits_max bestTranslation bestRotation
                    bestScale rotMat0 bestRotMat0 g)
  with
  | None => None
  | Some st =>
      Some (Pose.mkState (Pose.bestDistance st) (Pose.bestTranslation st)
              (Pose.bestRotation st) (Pose.bestScale st) (Pose.rotMat st)
              (Pose.bestRotMat st)
              (setNeedleEdges (Pose.globals st)
                 (warpInto backupPrior (needleEdges (Pose.globals st))
                           (Pose.bestRotMat st))))
  end.

(** ** The vocabulary of the specification *)

(** The symmetric objective in the words of the specification:
    [max(directedDistance(needleEdges, haystackField, offset),
         directedDistance(haystackEdges, needleField, -offset))]. *)
Definition symmetricDistance (nEdges : Image Intensity)
    (nField : Image Intensity32F) (hEdges : Image Intensity)
    (hField : Image Intensity32F) (offset : CvPoint) : double :=
  Double.std_max
    (findHausdorffDistance nEdges hField offset)
    (findHausdorffDistance hEdges nField
                           (cvPoint (- px offset) (- py offset))).

(** The symmetric objective of the globals at the offset [(x, y)]. *)
Definition objective (g : Globals) (x y : Z) : double :=
  symmetricDistance (needleEdges g) (needleDistanceTransform g)
                    (haystackEdges g) (haystackDistanceTransform g)
                    (cvPoint x y).

(** The coordinates [lo], [lo + step], [lo + 2 step], ... below [hi]. *)
Definition onGrid (lo hi step x : Z) : Prop :=
  exists k : Z, 0 <= k /\ x = lo + k * step /\ x < hi.

Definition grid (lo hi step : Z) : list Z :=
  visited (Z.to_nat (hi - lo)) (fun x => x <? hi) (fun x => x + step) lo.

(** The offsets [findBestTranslation] evaluates, in the order in which it
    evaluates them. *)
Definition searchOffsets (g : Globals) (step minX minY maxX maxY : Z)
    : list (Z * Z) :=
  flat_map (fun y => map (fun x => (x, y)) (grid minX (maxOffsetX g maxX) step))
           (grid minY (maxOffsetY g maxY) step).

(** [(x1, y1)] comes before [(x2, y2)] in row-major order. *)
Definition rowMajorBefore (o1 o2 : Z * Z) : Prop :=
  snd o1 < snd o2 \/ (snd o1 = snd o2 /\ fst o1 < fst o2).

Definition visitAt (g : Globals) (b : Best) (o : Z * Z) : Best :=
  visitOffset g (snd o) b (fst o).

(** Fuel that lets [findBestTranslation] finish when [step] is positive. *)
Definition searchFuel (g : Globals) (minX minY maxX maxY : Z) : nat :=
  Nat.max (Z.to_nat (maxOffsetX g maxX - minX))
          (Z.to_nat (maxOffsetY g maxY - minY)).

(** The bounds test of [findHausdorffDistance], and the one the
    specification asks for. *)
Definition skipped (imageB : Image Intensity32F) (x y : Z) : bool :=
  (y <? 0) || (y >? height imageB) || (x <? 0) || (x >? width imageB).

Definition outsideField (imageB : Image Intensity32F) (x y : Z) : Prop :=
  ~ (0 <= x < width imageB /\ 0 <= y < height imageB).

(** The window of a state of [findBestTranslationRecursive] lies in the
    absolute range of offsets. *)
Definition windowInRange (g : Globals) (st : Refine.State) : Prop :=
  0 <= Refine.minX st /\ 0 <= Refine.minY st /\
  Refine.maxX st <= absoluteMaxX g /\ Refine.maxY st <= absoluteMaxY g.

Definition inWindow (st : Refine.State) (x y : Z) : Prop :=
  Refine.minX st <= x < Refine.maxX st /\
  Refine.minY st <= y < Refine.maxY st.

Definition inAbsoluteRange (g : Globals) (x y : Z) : Prop :=
  0 <= x < absoluteMaxX g /\ 0 <= y < absoluteMaxY g.

(** The running best of [findBestTranslationRecursive] is still the
    initial one, or it is an offset of the absolute range with its
    objective. *)
Definition bestIsEvaluated (g : Globals) (st : Refine.State) : Prop :=
  Refine.bestDistance st = Double.numeric_limits_max
  \/ exists x y,
       inAbsoluteRange g x y
       /\ Refine.bestTranslation st = cvPoint x y
       /\ Refine.bestDistance st = objective g x y.

(** The rounds of a loop: the value of the loop variable and the state
    with which the body starts, for each iteration that begins. *)
Fixpoint for_rounds {I S : Type} (fuel : nat) (cond : I -> bool)
    (next : I -> I) (i : I) (body : S -> I -> option S) (s : S)
    : list (I * S) :=
  if cond i then
    match fuel with
    | O => []
    | Datatypes.S fuel' =>
        (i, s) :: match body s i with
                  | None => []
                  | Some s' => for_rounds fuel' cond next (next i) body s'
                  end
    end
  else [].

(** The rounds of [findBestTranslationRecursive]: each step with the
    state (running best and window) it starts from. *)
Definition refineRounds (fuel : nat) (g : Globals) (garbage : CvPoint)
    (initialStep : Z) : list (Z * Refine.State) :=
  for_rounds fuel (fun step => step >? 0) (fun step => Z.quot step 2)
    initialStep (refineRound fuel g) (refineInit g garbage).

(** Fuel that lets [findBestTranslationRecursive] finish. *)
Definition refineFuel (g : Globals) (initialStep : Z) : nat :=
  Nat.max (Z.to_nat initialStep)
          (Nat.max (Z.to_nat (absoluteMaxX g)) (Z.to_nat (absoluteMaxY g))).

(** The matrix of the pose [(rotation, scale)]. *)
Definition poseMatrix `{OpenCV} (g : Globals) (rotation : Z) (scale : double)
    : CvMat :=
  cv2DRotationMatrix
    (cvPoint (Z.quot (width (needleEdges g)) 2)
             (Z.quot (height (needleEdges g)) 2))
    (angleOf rotation) scale.

(** The needle edge map of the pose [(rotation, scale)]: the warp of the
    needle edge map the search was entered with. *)
Definition needleAtPose `{OpenCV} (g : Globals) (rotation : Z) (scale : double)
    : Image Intensity :=
  warpInto (needleEdges g) (needleEdges g) (poseMatrix g rotation scale).

(** What [findBestTranslationRecursive] returns for a pose. *)
Definition poseDistance `{OpenCV} (fuel : nat) (g : Globals)
    (garbage : CvPoint) (initialTranslationStep rotation : Z) (scale : double)
    : option (CvPoint * double) :=
  findBestTranslationRecursive fuel
    (setNeedleEdges g (needleAtPose g rotation scale))
    garbage initialTranslationStep.

(** The globals [g'] differ from [g] at most in the pixels of the needle
    edge map. *)
Definition framed (g g' : Globals) : Prop :=
  needleDistanceTransform g' = needleDistanceTransform g
  /\ haystackEdges g' = haystackEdges g
  /\ haystackDistanceTransform g' = haystackDistanceTransform g
  /\ width (needleEdges g') = width (needleEdges g)
  /\ height (needleEdges g') = height (needleEdges g).

(** The state that the body of the loop over [scale] leaves when the
    search under the pose [(rotation, scale)] returns [point] and [dist]. *)
Definition afterPose `{OpenCV} (g : Globals) (st : Pose.State) (rotation : Z)
    (scale : double) (point : CvPoint) (dist : double) : Pose.State :=
  let m := poseMatrix g rotation scale in
  let g' := setNeedleEdges g (needleAtPose g rotation scale) in
  if Double.lt dist (Pose.bestDistance st)
  then Pose.mkState dist (store (Pose.bestTranslation st) point)
         (store (Pose.bestRotation st) rotation)
         (store (Pose.bestScale st) scale) m m g'
  else Pose.mkState (Pose.bestDistance st) (Pose.bestTranslation st)
         (Pose.bestRotation st) (Pose.bestScale st) m (Pose.bestRotMat st) g'.

(** The body of the loop over [scale] as a step on states: the state is
    kept when the body does not return. *)
Definition poseStep `{OpenCV} (fuel : nat) (g : Globals) (garbage : CvPoint)
    (initialTranslationStep : Z) (st : Pose.State) (pose : Z * double)
    : Pose.State :=
  match tryPose fuel garbage (needleEdges g)
                (cvPoint (Z.quot (width (needleEdges g)) 2)
                         (Z.quot (height (needleEdges g)) 2))
                initialTranslationStep (fst pose) (angleOf (fst pose))
                st (snd pose) with
  | Some st' => st'
  | None => st
  end.

(** Fuel that lets [findBestTranslationScaleAndRotation] finish when the
    rotation step is positive and the scales end within [n] steps. *)
Definition poseFuel (g : Globals)
    (initialTranslationStep minRotation maxRotation : Z) (n : nat) : nat :=
  Nat.max (Z.to_nat (maxRotation + 1 - minRotation))
          (Nat.max n (refineFuel g initialTranslationStep)).

(** The poses of the sweep, rotation by rotation, [n] scales at most. *)
Definition sweep (n : nat) (minRotation maxRotation rotationStep : Z)
    (minScale maxScale scaleStep : double) : list (Z * double) :=
  flat_map
    (fun rotation =>
       map (fun scale => (rotation, scale))
           (visited n (fun scale => Double.le scale maxScale)
                    (fun scale => Double.add scale scaleStep) minScale))
    (visited (Z.to_nat (maxRotation + 1 - minRotation))
             (fun rotation => rotation <=? maxRotation)
             (fun rotation => rotation + rotationStep) minRotation).

(** The state in which the sweep ends, before the last warp. *)
Definition sweepState `{OpenCV} (fuel n : nat) (g : Globals)
    (garbage : CvPoint) (rotMat0 bestRotMat0 : CvMat)
    (bestTranslation : option CvPoint) (bestRotation : option Z)
    (bestScale : option double)
    (initialTranslationStep minRotation maxRotation rotationStep : Z)
    (minScale maxScale scaleStep : double) : Pose.State :=
  fold_left (poseStep fuel g garbage initialTranslationStep)
    (sweep n minRotation maxRotation rotationStep minScale maxScale scaleStep)
    (Pose.mkState Double.numeric_limits_max bestTranslation bestRotation
                  bestScale rotMat0 bestRotMat0 g).

(** ** More of the vocabulary: the points the metric considers *)

(** What [findHausdorffDistance] does with the sample of a point it
    considers: it counts it and keeps the greater of the sample and the
    running maximum. *)
Definition consider (st : Scan) (minDistance : double) : Scan :=
  mkScan (if Double.gt minDistance (maxDistance st)
          then minDistance else maxDistance st)
         ((pointsConsidered st + 1) mod ULONG_MODULUS).

(** Whether the pixel [(ix, iy)] of [imageA] is an edge pixel whose image
    passes the bounds tests. *)
Definition isConsidered (imageA : Image Intensity)
    (imageB : Image Intensity32F) (imageAOffset : CvPoint) (iy ix : Z) : bool :=
  (row imageA iy ix =? 0)
  && negb (skipped imageB (ix + px imageAOffset) (iy + py imageAOffset)).

(** The pixels of [imageA] that the function considers, in the order of
    its loops. *)
Definition consideredPoints (imageA : Image Intensity)
    (imageB : Image Intensity32F) (imageAOffset : CvPoint) : list (Z * Z) :=
  flat_map
    (fun iy =>
       map (fun ix => (ix, iy))
           (filter (isConsidered imageA imageB imageAOffset iy)
                   (upto (width imageA))))
    (upto (height imageA)).

(** The sample read for the pixel [(ix, iy)]. *)
Definition sampleAt (imageB : Image Intensity32F) (imageAOffset : CvPoint)
    (p : Z * Z) : double :=
  row imageB (snd p + py imageAOffset) (fst p + px imageAOffset).

(** The globals with the roles of needle and haystack exchanged. *)
Definition swapRoles (g : Globals) : Globals :=
  mkGlobals (haystackEdges g) (haystackDistanceTransform g)
            (needleEdges g) (needleDistanceTransform g).

(** ** More of the vocabulary: the hierarchical search *)

(** The running best of [findBestTranslationRecursive] is either still
    the initial one, the never assigned [bestTranslation] with the largest
    double, or an offset of the absolute range with its objective, which
    is below the largest double. *)
Definition bestIsSound (g : Globals) (garbage : CvPoint) (st : Refine.State)
    : Prop :=
  (Refine.bestDistance st = Double.numeric_limits_max
   /\ Refine.bestTranslation st = garbage)
  \/ exists x y,
       inAbsoluteRange g x y
       /\ Refine.bestTranslation st = cvPoint x y
       /\ Refine.bestDistance st = objective g x y
       /\ Double.lt (objective g x y) Double.numeric_limits_max = true.

(** [step], [step / 2], [step / 4], ... down to 1. *)
Definition halvings (step : Z) : list Z :=
  map (fun k => Z.shiftr step (Z.of_nat k))
      (seq 0 (Datatypes.S (Z.to_nat (Z.log2 step)))).

(** ** More of the vocabulary: the pose search *)

(** A state of the pose search with the three out-pointers null. *)
Definition withoutOutputs `{OpenCV} (st : Pose.State) : Pose.State :=
  Pose.mkState (Pose.bestDistance st) None None None
               (Pose.rotMat st) (Pose.bestRotMat st) (Pose.globals st).

(** ** onMouseEvent *)

(** The handler either calls [drawTranslatedPrior] or does nothing: the
    result is the pair of arguments of that call.  The constant
    [CV_EVENT_FLAG_LBUTTON] comes from the headers of OpenCV and is an
    argument here; [flags & CV_EVENT_FLAG_LBUTTON] is [Z.land]. *)
Definition onMouseEvent (CV_EVENT_FLAG_LBUTTON : Z) (g : Globals)
    (x y flags : Z) : option (CvPoint * double) :=
  if negb (Z.land flags CV_EVENT_FLAG_LBUTTON =? 0) then
    let maxOffsetX :=
      width (haystackDistanceTransform g) - width (needleEdges g) in
    let maxOffsetY :=
      height (haystackDistanceTransform g) - height (needleEdges g) in
    if (x <=? maxOffsetX) && (y <=? maxOffsetY) then
      let forwardDist :=
        findHausdorffDistance (needleEdges g) (haystackDistanceTransform g)
                              (cvPoint x y) in
      let reverseDist :=
        findHausdorffDistance (haystackEdges g) (needleDistanceTransform g)
                              (cvPoint (- x) (- y)) in
      let dist := Double.std_max forwardDist reverseDist in
      Some (cvPoint x y, dist)
    else None
  else None.

(** ** main: the key ['f'] *)

(** The branch [ch == 'f'] of the loop of [main]: the globals as the pose
    search leaves them, and the arguments of the call of
    [drawTranslatedPrior].  [uninitialised] is what the local
    [bestTranslation] of [main] holds before the call; the pointer to it
    is not null, so the cell is there afterwards. *)
Definition onKeyF `{OpenCV} (fuel : nat) (g : Globals)
    (garbage uninitialised : CvPoint) (rotMat0 bestRotMat0 : CvMat)
    : option (Globals * (CvPoint * double)) :=
  match
    findBestTranslationScaleAndRotation fuel g garbage rotMat0 bestRotMat0
      (Some uninitialised) (Some 0) (Some (Double.of_Z 1))
      4 0 0 1 (Double.of_Z 1) (Double.of_Z 1) (Double.of_Z 1)
  with
  | None => None
  | Some st =>
      match Pose.bestTranslation st with
      | None => None
      | Some bestTranslation =>
          Some (Pose.globals st, (bestTranslation, Pose.bestDistance st))
      end
  end.

(** ** image.h: Image<T>::at *)

(** [at(unsigned x, unsigned y)]: [x] and [y] are values of [unsigned];
    in [x < width()] the [int] that [width()] returns is converted to
    [unsigned].  [None] stands for the [std::out_of_range] thrown. *)
Definition Image_at {T : Type} (img : Image T) (x y : Z) : option T :=
  if (0 <=? x) && (x <? int_to_unsigned (width img))
     && (0 <=? y) && (y <? int_to_unsigned (height img))
  then Some (row img y x)
  else None.

(** ** More of the vocabulary: offsets without overlap *)

(** At the offset [(x, y)] every pixel of the needle edge map fails the
    bounds test against the haystack field. *)
Definition forwardEmpty (g : Globals) (x y : Z) : Prop :=
  x + width (needleEdges g) <= 0
  \/ width (haystackDistanceTransform g) < x
  \/ y + height (needleEdges g) <= 0
  \/ height (haystackDistanceTransform g) < y.

(** At the offset [(-x, -y)] every pixel of the haystack edge map fails
    the bounds test against the needle field. *)
Definition reverseEmpty (g : Globals) (x y : Z) : Prop :=
  width (haystackEdges g) <= x
  \/ x + width (needleDistanceTransform g) < 0
  \/ height (haystackEdges g) <= y
  \/ y + height (needleDistanceTransform g) < 0.

(** ** Concrete images *)

(** Scenario A of the specification: a 10x10 field of fives and a needle
    with one edge pixel at the origin. *)
Definition fives : Image Intensity32F :=
  mkImage 10 10 (fun _ _ => Double.of_Z 5).

Definition dot : Image Intensity :=
  mkImage 1 1 (fun y x => if (x =? 0) && (y =? 0) then 0 else 255).

(** The distance field of [dot]: the L1 distance to its edge pixel, which
    is also what the memory around the one pixel of the field is taken
    to hold. *)
Definition dotField : Image Intensity32F :=
  mkImage 1 1 (fun y x => Double.of_Z (Z.abs x + Z.abs y)).

(** A 1x1 field whose memory holds sevens. *)
Definition sevens : Image Intensity32F :=
  mkImage 1 1 (fun _ _ => Double.of_Z 7).

(** A 2x1 needle: an edge pixel at (0,0) and a background pixel at (1,0);
    and its L1 distance field, 0 and 1, with the memory around it taken to
    hold the distances continued. *)
Definition spot : Image Intensity :=
  mkImage 2 1 (fun y x => if (x =? 0) && (y =? 0) then 0 else 255).

Definition spotField : Image Intensity32F :=
  mkImage 2 1 (fun y x => Double.of_Z (Z.abs x + Z.abs y)).

(** An 11x2 haystack with edge pixels at (2,0) and (9,0), and its L1
    distance field. *)
Definition twoDots : Image Intensity :=
  mkImage 11 2
    (fun y x => if (y =? 0) && ((x =? 2) || (x =? 9)) then 0 else 255).

Definition twoDotsField : Image Intensity32F :=
  mkImage 11 2
    (fun y x =>
       Double.of_Z (Z.min (Z.abs (x - 2) + Z.abs y) (Z.abs (x - 9) + Z.abs y))).

(** The needle [spot] in the haystack [twoDots]: the absolute range of
    offsets is [0,9) x [0,1). *)
Definition spotInTwoDots : Globals :=
  mkGlobals spot spotField twoDots twoDotsField.

(** A blank edge map (no edge pixel). *)
Definition blank (w h : Z) : Image Intensity := mkImage w h (fun _ _ => 255).

(** A stand-in for the two OpenCV calls.  The matrix remembers the angle
    and the scale.  The warp copies the source when the pose is the
    identity (angle 0, scale 1); for any other pose it leaves no edge
    pixel, as when the bilinear interpolation blends a one-pixel edge
    into the background. *)
Definition fadingCV : OpenCV :=
  {| CvMat := double * double;
     cv2DRotationMatrix := fun _ angle scale => (angle, scale);
     cvWarpAffine := fun src _ _ m y x =>
       if Double.eq (fst m) Double.zero && Double.eq (snd m) (Double.of_Z 1)
       then row src y x
       else 255 |}.

(** The doubles 0.25, 0.5 and 1.0. *)
Definition quarter : double := Double.of_scaled 1 (-2).
Definition half : double := Double.of_scaled 1 (-1).
Definition one : double := Double.of_Z 1.

(** The image [twoDots] as needle and as haystack: the absolute range of
    offsets is empty. *)
Definition twoDotsInItself : Globals :=
  mkGlobals twoDots twoDotsField twoDots twoDotsField.

(** * Properties

    ** Sanity checks of the embedding *)

Example scenario_A :
  findHausdorffDistance dot fives (cvPoint 0 0) = Double.of_Z 5
  /\ pointsConsidered (scanImage dot fives (cvPoint 0 0)) = 1.
Proof. split; vm_compute; reflexivity. Qed.

Example numeric_limits_min_value :
  Double.numeric_limits_min = Double.of_scaled 1 (-1022).
Proof. vm_compute. reflexivity. Qed.

Example numeric_limits_max_value :
  Double.numeric_limits_max = SFmax_float Double.prec Double.emax.
Proof. vm_compute. reflexivity. Qed.

(** The objective of the needle [spot] over the columns 0..8 of the
    haystack [twoDots]: 2^-1022 on the edge pixel at (2,0), 1 and 2 one
    and two columns away from an edge pixel, and the sentinel 9999 where
    no haystack edge pixel meets the needle field. *)
Example objective_profile :
  map (fun x => objective spotInTwoDots x 0) (upto 9)
  = [ Double.of_Z 2; one; Double.numeric_limits_min;
      MAX_HAUSDORFF_DISTANCE; MAX_HAUSDORFF_DISTANCE; MAX_HAUSDORFF_DISTANCE;
      MAX_HAUSDORFF_DISTANCE; Double.of_Z 2; one ].
Proof. vm_compute. reflexivity. Qed.

(** The exhaustive search (step 1 over the full range) finds (2,0). *)
Example exhaustive_search :
  findBestTranslation 9 spotInTwoDots 1 0 0 9 1
  = Some (cvPoint 2 0, Double.numeric_limits_min).
Proof. vm_compute. reflexivity. Qed.

Example literal_3_14_is_canonical :
  valid_binary Double.prec Double.emax literal_3_14 = true
  /\ literal_3_14 = S754_finite false 7070651414971679 (-51).
Proof. split; vm_compute; reflexivity. Qed.

(** ** The order of doubles *)

(** Case analysis on the comparisons of signs, exponents and mantissas
    that [SFcompare] makes. *)
Ltac float_cases :=
  repeat match goal with
         | s : bool |- _ => destruct s
         end;
  cbn in *; try congruence;
  repeat match goal with
         | H : context [Z.compare ?a ?b] |- _ =>
             destruct (Z.compare_spec a b); cbn in *
         | |- context [Z.compare ?a ?b] =>
             destruct (Z.compare_spec a b); cbn in *
         end;
  try congruence; try lia;
  repeat match goal with
         | H : context [Pos.compare_cont Eq ?a ?b] |- _ =>
             change (Pos.compare_cont Eq a b) with (Pos.compare a b) in *;
             destruct (Pos.compare_spec a b); cbn in *
         | |- context [Pos.compare_cont Eq ?a ?b] =>
             change (Pos.compare_cont Eq a b) with (Pos.compare a b) in *;
             destruct (Pos.compare_spec a b); cbn in *
         end;
  try congruence; try lia.

Lemma double_lt_trans (a b c : double) :
  Double.lt a b = true -> Double.lt b c = true -> Double.lt a c = true.
Proof.
  unfold Double.lt, SFltb.
  destruct a as [sa|sa| |sa ma ea], b as [sb|sb| |sb mb eb],
           c as [sc|sc| |sc mc ec];
    cbn; try congruence; float_cases.
Qed.

Lemma double_le_lt_trans (a b c : double) :
  Double.le a b = true -> Double.lt b c = true -> Double.lt a c = true.
Proof.
  unfold Double.le, Double.lt, SFleb, SFltb.
  destruct a as [sa|sa| |sa ma ea], b as [sb|sb| |sb mb eb],
           c as [sc|sc| |sc mc ec];
    cbn; try congruence; float_cases.
Qed.

Lemma double_lt_le (a b : double) : Double.lt a b = true -> Double.le a b = true.
Proof.
  unfold Double.le, Double.lt, SFleb, SFltb.
  destruct (SFcompare a b) as [[]|]; congruence.
Qed.

Lemma double_eq_le (a b : double) : Double.eq a b = true -> Double.le a b = true.
Proof.
  unfold Double.le, Double.eq, SFleb, SFeqb.
  destruct (SFcompare a b) as [[]|]; congruence.
Qed.

Lemma double_lt_irrefl (a : double) : Double.lt a a = false.
Proof.
  unfold Double.lt, SFltb.
  destruct a as [sa|sa| |sa ma ea]; cbn; try reflexivity;
    destruct sa; cbn; try reflexivity; rewrite Z.compare_refl;
    change (Pos.compare_cont Eq ma ma) with (Pos.compare ma ma);
    rewrite Pos.compare_refl; reflexivity.
Qed.

Lemma double_lt_not_le (a b : double) :
  Double.lt a b = true -> Double.le b a = false.
Proof.
  intros Hab. destruct (Double.le b a) eqn:Hba; [|reflexivity].
  pose proof (double_le_lt_trans _ _ _ Hba Hab) as Hbb.
  rewrite double_lt_irrefl in Hbb. discriminate.
Qed.

Lemma double_lt_asym (a b : double) :
  Double.lt a b = true -> Double.lt b a = false.
Proof.
  intros Hab. destruct (Double.lt b a) eqn:Hba; [|reflexivity].
  apply double_lt_le in Hba. rewrite (double_lt_not_le _ _ Hab) in Hba. discriminate.
Qed.

Lemma double_not_le_not_lt (a b : double) :
  Double.le a b = false -> Double.lt a b = false.
Proof.
  intros Hle. destruct (Double.lt a b) eqn:Hlt; [|reflexivity].
  apply double_lt_le in Hlt. congruence.
Qed.

Lemma double_not_le_not_eq (a b : double) :
  Double.le a b = false -> Double.eq a b = false.
Proof.
  intros Hle. destruct (Double.eq a b) eqn:Heq; [|reflexivity].
  apply double_eq_le in Heq. congruence.
Qed.

(** [std::max] returns one of its arguments, and neither argument is
    greater than what it returns. *)
Lemma std_max_cases (a b : double) :
  (Double.std_max a b = a \/ Double.std_max a b = b)
  /\ Double.lt (Double.std_max a b) a = false
  /\ Double.lt (Double.std_max a b) b = false.
Proof.
  unfold Double.std_max. destruct (Double.lt a b) eqn:Hab.
  - repeat split; auto using double_lt_asym, double_lt_irrefl.
  - repeat split; auto using double_lt_irrefl.
Qed.

Lemma std_max_below (a b c : double) :
  Double.lt a c = true -> Double.lt b c = true ->
  Double.lt (Double.std_max a b) c = true.
Proof. unfold Double.std_max. destruct (Double.lt a b); auto. Qed.

(** ** Loops *)

Section Loops.

Context {I S : Type}.
Variables (cond : I -> bool) (next : I -> I).

(** A loop that stops within [n] iterations, run with at least that much
    fuel, folds its body over the visited values. *)
Lemma for_loop_fold (body : S -> I -> option S) (f : S -> I -> S) :
  forall (n fuel : nat) (i : I) (s : S),
    stops n cond next i = true ->
    (n <= fuel)%nat ->
    (forall s' j, In j (visited n cond next i) -> body s' j = Some (f s' j)) ->
    for_loop fuel cond next i body s
    = Some (fold_left f (visited n cond next i) s).
Proof.
  induction n as [|n IH]; intros fuel i s Hstop Hfuel Hbody.
  - cbn in Hstop. destruct (cond i) eqn:Hc; [discriminate|].
    destruct fuel; cbn; rewrite Hc; reflexivity.
  - cbn in Hstop, Hbody |- *. destruct (cond i) eqn:Hc.
    + destruct fuel as [|fuel]; [lia|]. cbn. rewrite Hc.
      rewrite (Hbody s i) by (left; reflexivity).
      apply IH; [assumption|lia|].
      intros s' j Hj. apply Hbody. right. assumption.
    + destruct fuel; cbn; rewrite Hc; reflexivity.
Qed.

(** A property of the state that every iteration preserves holds at the
    start of every round and of the result. *)
Lemma for_loop_invariant (P : S -> Prop) (body : S -> I -> option S) :
  (forall s i s', P s -> cond i = true -> body s i = Some s' -> P s') ->
  forall (fuel : nat) (i : I) (s : S),
    P s ->
    (forall j s', In (j, s') (for_rounds fuel cond next i body s) -> P s')
    /\ (forall r, for_loop fuel cond next i body s = Some r -> P r).
Proof.
  intros Hstep. induction fuel as [|fuel IH]; intros i s Hs; cbn.
  - destruct (cond i); split; cbn; try tauto; congruence.
  - destruct (cond i) eqn:Hc; [|split; cbn; [tauto|congruence]].
    destruct (body s i) as [s1|] eqn:Hb.
    + destruct (IH (next i) s1 (Hstep _ _ _ Hs Hc Hb)) as [IH1 IH2].
      split; [|assumption].
      intros j s' [Heq|Hin]; [congruence|eauto].
    + split; [|congruence].
      intros j s' [Heq|[]]. congruence.
Qed.

End Loops.

(** ** Grids *)

Section Grids.

Variables (hi step : Z).
Hypothesis step_pos : 0 < step.

Lemma grid_stops :
  forall (n : nat) (lo : Z),
    (Z.to_nat (hi - lo) <= n)%nat ->
    stops n (fun x => x <? hi) (fun x => x + step) lo = true.
Proof.
  induction n as [|n IH]; intros lo Hn; cbn.
  - destruct (lo <? hi) eqn:Hc; [apply Z.ltb_lt in Hc; lia|reflexivity].
  - destruct (lo <? hi) eqn:Hc; [|reflexivity].
    apply Z.ltb_lt in Hc. apply IH. lia.
Qed.

Lemma grid_In :
  forall (n : nat) (lo x : Z),
    (Z.to_nat (hi - lo) <= n)%nat ->
    In x (visited n (fun x => x <? hi) (fun x => x + step) lo)
    <-> onGrid lo hi step x.
Proof.
  unfold onGrid.
  induction n as [|n IH]; intros lo x Hn; cbn.
  - split; [tauto|]. intros (k & Hk & -> & Hlt). nia.
  - destruct (lo <? hi) eqn:Hc.
    + apply Z.ltb_lt in Hc. cbn. rewrite IH by lia. split.
      * intros [<-|(k & Hk & -> & Hlt)].
        -- exists 0. lia.
        -- exists (k + 1). lia.
      * intros (k & Hk & -> & Hlt).
        destruct (Z.eq_dec k 0) as [->|Hk0]; [left; lia|].
        right. exists (k - 1). lia.
    + apply Z.ltb_ge in Hc. split; [intros []|].
      intros (k & Hk & -> & Hlt). nia.
Qed.

Lemma grid_sorted :
  forall (n : nat) (lo : Z),
    (Z.to_nat (hi - lo) <= n)%nat ->
    StronglySorted Z.lt
      (visited n (fun x => x <? hi) (fun x => x + step) lo).
Proof.
  induction n as [|n IH]; intros lo Hn; cbn; [constructor|].
  destruct (lo <? hi) eqn:Hc; [|constructor].
  apply Z.ltb_lt in Hc. constructor; [apply IH; lia|].
  apply Forall_forall. intros x Hx.
  apply grid_In in Hx; [|lia]. destruct Hx as (k & Hk & -> & _). nia.
Qed.

End Grids.

(** ** findHausdorffDistance *)

Lemma In_upto (n i : Z) : In i (upto n) <-> 0 <= i < n.
Proof.
  unfold upto. rewrite in_map_iff. split.
  - intros (k & <- & Hk). apply in_seq in Hk. lia.
  - intros Hi. exists (Z.to_nat i). split; [lia|]. apply in_seq. lia.
Qed.

Lemma fold_left_unchanged {A B : Type} (f : A -> B -> A) (l : list B) (s : A) :
  (forall x, In x l -> f s x = s) -> fold_left f l s = s.
Proof.
  induction l as [|x l IH]; cbn; intros H; [reflexivity|].
  rewrite (H x) by (left; reflexivity). apply IH. intros; apply H; right; assumption.
Qed.

Lemma fold_left_preserves {A B : Type} (P : A -> Prop) (f : A -> B -> A)
    (l : list B) (s : A) :
  P s -> (forall s' x, In x l -> P s' -> P (f s' x)) -> P (fold_left f l s).
Proof.
  revert s. induction l as [|x l IH]; cbn; intros s Hs H; [assumption|].
  apply IH; [apply H; auto|]. intros; apply H; auto.
Qed.

(** The bounds test of the two loops, put together. *)
Lemma skipped_spec (imageB : Image Intensity32F) (x y : Z) :
  skipped imageB x y = true
  <-> (x < 0 \/ width imageB < x \/ y < 0 \/ height imageB < y).
Proof.
  unfold skipped. rewrite !orb_true_iff, !Z.ltb_lt, !Z.gtb_ltb, !Z.ltb_lt. tauto.
Qed.

(** A pixel that is not an edge pixel, or whose image fails the bounds
    test, leaves the scan as it is. *)
Lemma scanPixel_skip (imageA : Image Intensity) (imageB : Image Intensity32F)
    (offx iy y ix : Z) (st : Scan) :
  row imageA iy ix <> 0 \/ ix + offx < 0 \/ width imageB < ix + offx ->
  scanPixel imageA imageB offx iy y st ix = st.
Proof.
  unfold scanPixel. intros H.
  destruct (row imageA iy ix =? 0) eqn:Hpix; cbn; [|reflexivity].
  apply Z.eqb_eq in Hpix.
  destruct (ix + offx <? 0) eqn:Hlo; cbn; [reflexivity|].
  destruct (ix + offx >? width imageB) eqn:Hhi; cbn; [reflexivity|].
  apply Z.ltb_ge in Hlo. rewrite Z.gtb_ltb in Hhi. apply Z.ltb_ge in Hhi. lia.
Qed.

Lemma scanImage_nothing_considered (imageA : Image Intensity)
    (imageB : Image Intensity32F) (imageAOffset : CvPoint) :
  (forall ix iy,
      0 <= ix < width imageA -> 0 <= iy < height imageA ->
      row imageA iy ix = 0 ->
      skipped imageB (ix + px imageAOffset) (iy + py imageAOffset) = true) ->
  scanImage imageA imageB imageAOffset = mkScan Double.numeric_limits_min 0.
Proof.
  intros Hskip. unfold scanImage. apply fold_left_unchanged.
  intros iy Hiy. apply In_upto in Hiy. unfold scanRow.
  destruct ((iy + py imageAOffset <? 0)
            || (iy + py imageAOffset >? height imageB)) eqn:Hrow;
    [reflexivity|].
  apply fold_left_unchanged. intros ix Hix. apply In_upto in Hix.
  apply scanPixel_skip.
  destruct (Z.eq_dec (row imageA iy ix) 0) as [Hpix|Hpix]; [|left; assumption].
  right. specialize (Hskip ix iy Hix Hiy Hpix). apply skipped_spec in Hskip.
  apply orb_false_iff in Hrow. destruct Hrow as [Hlo Hhi].
  apply Z.ltb_ge in Hlo. rewrite Z.gtb_ltb in Hhi. apply Z.ltb_ge in Hhi. lia.
Qed.

(** The running maximum never goes below its initial value. *)
Lemma scanPixel_floor (imageA : Image Intensity) (imageB : Image Intensity32F)
    (offx iy y ix : Z) (st : Scan) :
  Double.lt (maxDistance st) Double.numeric_limits_min = false ->
  Double.lt (maxDistance (scanPixel imageA imageB offx iy y st ix))
            Double.numeric_limits_min = false.
Proof.
  unfold scanPixel. intros Hst.
  destruct (negb (row imageA iy ix =? 0)); [assumption|].
  destruct ((ix + offx <? 0) || (ix + offx >? width imageB)); [assumption|].
  unfold Double.gt.
  destruct (SFltb (maxDistance st) (row imageB y (ix + offx))) eqn:Hgt;
    cbn; [|assumption].
  destruct (Double.lt (row imageB y (ix + offx)) Double.numeric_limits_min)
    eqn:Hlow; [|reflexivity].
  rewrite (double_lt_trans _ _ _ Hgt Hlow) in Hst. discriminate.
Qed.

Lemma scanImage_floor (imageA : Image Intensity) (imageB : Image Intensity32F)
    (imageAOffset : CvPoint) :
  Double.lt (maxDistance (scanImage imageA imageB imageAOffset))
            Double.numeric_limits_min = false.
Proof.
  unfold scanImage.
  apply (fold_left_preserves
           (fun st => Double.lt (maxDistance st) Double.numeric_limits_min = false)).
  - reflexivity.
  - intros st iy _ Hst. unfold scanRow.
    destruct ((iy + py imageAOffset <? 0)
              || (iy + py imageAOffset >? height imageB)); [assumption|].
    apply (fold_left_preserves
             (fun st => Double.lt (maxDistance st) Double.numeric_limits_min = false));
      [assumption|].
    intros st' ix _ Hst'. apply scanPixel_floor. assumption.
Qed.

Lemma findHausdorffDistance_floor (imageA : Image Intensity)
    (imageB : Image Intensity32F) (imageAOffset : CvPoint) :
  Double.lt (findHausdorffDistance imageA imageB imageAOffset)
            Double.numeric_limits_min = false.
Proof.
  unfold findHausdorffDistance.
  destruct (pointsConsidered (scanImage imageA imageB imageAOffset) =? 0).
  - vm_compute. reflexivity.
  - apply scanImage_floor.
Qed.

(** A field that holds finite values wherever the function samples it
    (the columns [0..width] and the rows [0..height]) gives a result below
    the largest double. *)
Lemma findHausdorffDistance_below_max (imageA : Image Intensity)
    (imageB : Image Intensity32F) (imageAOffset : CvPoint) :
  (forall x y,
      0 <= x <= width imageB -> 0 <= y <= height imageB ->
      Double.lt (row imageB y x) Double.numeric_limits_max = true) ->
  Double.lt (findHausdorffDistance imageA imageB imageAOffset)
            Double.numeric_limits_max = true.
Proof.
  intros Hfinite. unfold findHausdorffDistance.
  destruct (pointsConsidered (scanImage imageA imageB imageAOffset) =? 0);
    [vm_compute; reflexivity|].
  unfold scanImage.
  apply (fold_left_preserves
           (fun st => Double.lt (maxDistance st) Double.numeric_limits_max = true));
    [vm_compute; reflexivity|].
  intros st iy _ Hst. unfold scanRow.
  destruct ((iy + py imageAOffset <? 0)
            || (iy + py imageAOffset >? height imageB)) eqn:Hrow;
    [assumption|].
  apply orb_false_iff in Hrow. destruct Hrow as [Hlo Hhi].
  apply Z.ltb_ge in Hlo. rewrite Z.gtb_ltb in Hhi. apply Z.ltb_ge in Hhi.
  apply (fold_left_preserves
           (fun st => Double.lt (maxDistance st) Double.numeric_limits_max = true));
    [assumption|].
  intros st' ix _ Hst'. unfold scanPixel.
  destruct (negb (row imageA iy ix =? 0)); [assumption|].
  destruct ((ix + px imageAOffset <? 0)
            || (ix + px imageAOffset >? width imageB)) eqn:Hcol;
    [assumption|].
  apply orb_false_iff in Hcol. destruct Hcol as [Hlo' Hhi'].
  apply Z.ltb_ge in Hlo'. rewrite Z.gtb_ltb in Hhi'. apply Z.ltb_ge in Hhi'.
  destruct (Double.gt (row imageB (iy + py imageAOffset)
                           (ix + px imageAOffset)) (maxDistance st'));
    cbn; [apply Hfinite; lia|assumption].
Qed.

(** An edge pixel whose image passes the bounds test is counted. *)
Lemma scanPixel_counts (imageA : Image Intensity) (imageB : Image Intensity32F)
    (offx iy y ix : Z) (st : Scan) :
  row imageA iy ix = 0 -> 0 <= ix + offx <= width imageB ->
  pointsConsidered (scanPixel imageA imageB offx iy y st ix)
  = (pointsConsidered st + 1) mod ULONG_MODULUS.
Proof.
  intros Hpix Hx. unfold scanPixel. rewrite Hpix. cbn [Z.eqb negb].
  destruct (ix + offx <? 0) eqn:Hlo; [apply Z.ltb_lt in Hlo; lia|].
  destruct (ix + offx >? width imageB) eqn:Hhi;
    [rewrite Z.gtb_ltb in Hhi; apply Z.ltb_lt in Hhi; lia|].
  cbn [orb].
  destruct (Double.gt (row imageB y (ix + offx)) (maxDistance st)); reflexivity.
Qed.

(** C1 (as the code has it).  The bounds tests are [x > width] and
    [y > height]: an edge pixel mapped to the column [width] of the field
    is counted, and a row mapped to the row [height] of the field is
    scanned.  For the one-pixel needle [dot] and any 1x1 field, the offset
    (1,0) samples the cell at column 1 and the offset (0,1) the cell at
    row 1, where a half-open test would skip the pixel and return the
    sentinel; with sevens in memory the result is 7 at both offsets. *)
Theorem column_width_and_row_height_are_sampled :
  (forall imageA imageB offx iy y st ix,
      row imageA iy ix = 0 -> 0 <= width imageB ->
      ix + offx = width imageB ->
      pointsConsidered (scanPixel imageA imageB offx iy y st ix)
      = (pointsConsidered st + 1) mod ULONG_MODULUS)
  /\ (forall imageA imageB imageAOffset st iy,
         0 <= height imageB ->
         iy + py imageAOffset = height imageB ->
         scanRow imageA imageB imageAOffset st iy
         = fold_left (scanPixel imageA imageB (px imageAOffset) iy
                                (height imageB))
                     (upto (width imageA)) st)
  /\ (forall cells : Z -> Z -> Intensity32F,
         findHausdorffDistance dot (mkImage 1 1 cells) (cvPoint 1 0)
         = (if Double.gt (cells 0 1) Double.numeric_limits_min
            then cells 0 1 else Double.numeric_limits_min)
         /\ findHausdorffDistance dot (mkImage 1 1 cells) (cvPoint 0 1)
            = (if Double.gt (cells 1 0) Double.numeric_limits_min
               then cells 1 0 else Double.numeric_limits_min))
  /\ outsideField sevens 1 0
  /\ findHausdorffDistance dot sevens (cvPoint 1 0) = Double.of_Z 7
  /\ outsideField sevens 0 1
  /\ findHausdorffDistance dot sevens (cvPoint 0 1) = Double.of_Z 7
  /\ Double.of_Z 7 <> MAX_HAUSDORFF_DISTANCE.
Proof.
  split; [|split; [|split; [|split; [|split; [|split; [|split]]]]]].
  - intros imageA imageB offx iy y st ix Hpix Hw Hx.
    apply scanPixel_counts; [assumption|lia].
  - intros imageA imageB imageAOffset st iy Hh Hy. unfold scanRow.
    rewrite Hy.
    destruct (height imageB <? 0) eqn:Hlo; [apply Z.ltb_lt in Hlo; lia|].
    rewrite Z.gtb_ltb, Z.ltb_irrefl. reflexivity.
  - intros cells. split.
    + lazy -[Double.gt Double.numeric_limits_min MAX_HAUSDORFF_DISTANCE].
      destruct (Double.gt (cells 0 1) Double.numeric_limits_min); reflexivity.
    + lazy -[Double.gt Double.numeric_limits_min MAX_HAUSDORFF_DISTANCE].
      destruct (Double.gt (cells 1 0) Double.numeric_limits_min); reflexivity.
  - unfold outsideField. cbn. lia.
  - vm_compute. reflexivity.
  - unfold outsideField. cbn. lia.
  - vm_compute. reflexivity.
  - vm_compute. discriminate.
Qed.

(** C2 (as the code has it).  The running maximum starts at
    [numeric_limits<double>::min()], the smallest positive normal double,
    and only a greater sample replaces it: the function never returns
    zero, whatever its arguments.  The self-distance of the one-pixel edge
    set [dot] against its own distance field, zero at the edge pixel, is
    2^-1022 and not 0. *)
Theorem self_distance_is_never_zero :
  (forall imageA imageB imageAOffset,
      Double.eq (findHausdorffDistance imageA imageB imageAOffset) Double.zero
      = false)
  /\ row dotField 0 0 = Double.zero
  /\ findHausdorffDistance dot dotField (cvPoint 0 0)
     = Double.numeric_limits_min
  /\ Double.eq Double.numeric_limits_min Double.zero = false.
Proof.
  split; [|repeat split; vm_compute; reflexivity].
  intros imageA imageB imageAOffset.
  pose proof (findHausdorffDistance_floor imageA imageB imageAOffset) as Hfloor.
  destruct (findHausdorffDistance imageA imageB imageAOffset)
    as [s|s| |s m e]; try (destruct s; reflexivity).
  - destruct s; vm_compute in Hfloor; discriminate.
  - reflexivity.
Qed.


(** ** findBestTranslation *)

Lemma unsigned_round_trip (z : Z) :
  INT_MIN <= z <= INT_MAX -> unsigned_to_int (int_to_unsigned z) = z.
Proof.
  unfold unsigned_to_int, int_to_unsigned, UINT_MODULUS, INT_MIN, INT_MAX.
  intros Hz. destruct (Z.neg_nonneg_cases z) as [Hneg|Hpos].
  - replace (z mod 2 ^ 32) with (z + 2 ^ 32).
    + destruct (z + 2 ^ 32 <? 2 ^ 31) eqn:Hc; [apply Z.ltb_lt in Hc|]; lia.
    + apply (Z.mod_unique _ _ (-1)); lia.
  - rewrite Z.mod_small by lia.
    destruct (z <? 2 ^ 31) eqn:Hc; [|apply Z.ltb_ge in Hc]; lia.
Qed.

(** What the body of the inner loop does, in terms of the objective. *)
Lemma visitOffset_objective (g : Globals) (y x : Z) (b : Best) :
  visitOffset g y b x
  = if Double.lt (objective g x y) (bestDistance b)
    then mkBest (int_to_unsigned x) (int_to_unsigned y) (objective g x y)
    else b.
Proof. reflexivity. Qed.

Lemma fold_left_flat_map {A B C : Type} (f : A -> C -> A) (h : B -> list C)
    (l : list B) (s : A) :
  fold_left f (flat_map h l) s
  = fold_left (fun s' y => fold_left f (h y) s') l s.
Proof.
  revert s. induction l as [|y l IH]; intros s; cbn; [reflexivity|].
  rewrite fold_left_app. apply IH.
Qed.

Lemma fold_left_map {A B C : Type} (f : A -> C -> A) (k : B -> C)
    (l : list B) (s : A) :
  fold_left f (map k l) s = fold_left (fun s' x => f s' (k x)) l s.
Proof.
  revert s. induction l as [|x l IH]; intros s; cbn; [reflexivity|]. apply IH.
Qed.

Section Search.

Variables (g : Globals) (step minX minY maxX maxY : Z).
Hypothesis step_pos : 0 < step.

Lemma searchRow_fold (fuel : nat) (b : Best) (y : Z) :
  (Z.to_nat (maxOffsetX g maxX - minX) <= fuel)%nat ->
  searchRow fuel g step minX maxX b y
  = Some (fold_left (fun b' x => visitOffset g y b' x)
                    (grid minX (maxOffsetX g maxX) step) b).
Proof.
  intros Hfuel. unfold searchRow, grid.
  apply for_loop_fold; [apply grid_stops; [assumption|lia]|assumption|].
  reflexivity.
Qed.

Lemma searchLoops_fold (fuel : nat) :
  (searchFuel g minX minY maxX maxY <= fuel)%nat ->
  searchLoops fuel g step minX minY maxX maxY
  = Some (fold_left (visitAt g) (searchOffsets g step minX minY maxX maxY)
                    initialBest).
Proof.
  unfold searchFuel. intros Hfuel. unfold searchLoops, searchOffsets.
  rewrite fold_left_flat_map.
  apply (for_loop_fold _ _ _
           (fun b y => fold_left (visitAt g)
                         (map (fun x => (x, y))
                              (grid minX (maxOffsetX g maxX) step)) b)
           (Z.to_nat (maxOffsetY g maxY - minY))).
  - apply grid_stops; [assumption|lia].
  - lia.
  - intros b y _. rewrite fold_left_map. apply searchRow_fold. lia.
Qed.

Lemma searchOffsets_In (x y : Z) :
  In (x, y) (searchOffsets g step minX minY maxX maxY)
  <-> onGrid minX (maxOffsetX g maxX) step x
      /\ onGrid minY (maxOffsetY g maxY) step y.
Proof.
  unfold searchOffsets, grid. rewrite in_flat_map. split.
  - intros (y' & Hy' & Hin). apply in_map_iff in Hin.
    destruct Hin as (x' & [= <- <-] & Hx').
    split; (eapply grid_In; [eassumption| |eassumption]); lia.
  - intros [Hx Hy]. exists y. split.
    + eapply grid_In; [eassumption| |eassumption]; lia.
    + apply (in_map (fun x' => (x', y))).
      eapply grid_In; [eassumption| |eassumption]; lia.
Qed.

End Search.

(** ** Row-major order of the evaluated offsets *)

Lemma StronglySorted_app {A : Type} (R : A -> A -> Prop) (l1 l2 : list A) :
  StronglySorted R l1 -> StronglySorted R l2 ->
  (forall a b, In a l1 -> In b l2 -> R a b) ->
  StronglySorted R (l1 ++ l2).
Proof.
  induction l1 as [|a l1 IH]; cbn; intros H1 H2 Hcross; [assumption|].
  apply StronglySorted_inv in H1. destruct H1 as [Hs Hall].
  constructor.
  - apply IH; auto.
  - apply Forall_app. split; [assumption|].
    apply Forall_forall. intros b Hb. apply Hcross; auto.
Qed.

Lemma StronglySorted_after {A : Type} (R : A -> A -> Prop) (l1 l2 : list A)
    (o : A) :
  StronglySorted R (l1 ++ o :: l2) -> forall z, In z l2 -> R o z.
Proof.
  induction l1 as [|a l1 IH]; cbn; intros Hs z Hz;
    apply StronglySorted_inv in Hs; destruct Hs as [Hs Hall].
  - rewrite Forall_forall in Hall. auto.
  - eauto.
Qed.

Lemma row_sorted (y : Z) (xs : list Z) :
  StronglySorted Z.lt xs ->
  StronglySorted rowMajorBefore (map (fun x => (x, y)) xs).
Proof.
  induction 1 as [|x xs Hs IH Hall]; cbn; constructor; [assumption|].
  apply Forall_forall. intros o Ho. apply in_map_iff in Ho.
  destruct Ho as (x' & <- & Hx'). rewrite Forall_forall in Hall.
  right. cbn. split; [reflexivity|auto].
Qed.

Lemma rows_sorted (xs ys : list Z) :
  StronglySorted Z.lt xs -> StronglySorted Z.lt ys ->
  StronglySorted rowMajorBefore
    (flat_map (fun y => map (fun x => (x, y)) xs) ys).
Proof.
  intros Hxs. induction 1 as [|y ys Hs IH Hall]; cbn; [constructor|].
  apply StronglySorted_app; [apply row_sorted; assumption|assumption|].
  intros a b Ha Hb. apply in_map_iff in Ha. destruct Ha as (x & <- & _).
  apply in_flat_map in Hb. destruct Hb as (y' & Hy' & Hb).
  apply in_map_iff in Hb. destruct Hb as (x' & <- & _).
  rewrite Forall_forall in Hall. left. cbn. auto.
Qed.

Lemma searchOffsets_sorted (g : Globals) (step minX minY maxX maxY : Z) :
  0 < step ->
  StronglySorted rowMajorBefore (searchOffsets g step minX minY maxX maxY).
Proof.
  intros Hstep. unfold searchOffsets, grid.
  apply rows_sorted; apply grid_sorted; auto.
Qed.

(** ** Keeping the strictly smaller candidate *)

(** Folding the body of the search over a list of offsets either never
    improves on the initial distance, or ends on an offset of the list
    that no earlier offset matches or beats and no later offset beats. *)
Lemma fold_visit_spec (g : Globals) :
  forall (l : list (Z * Z)) (b0 : Best),
    (fold_left (visitAt g) l b0 = b0
     /\ forall o, In o l ->
          Double.lt (objective g (fst o) (snd o)) (bestDistance b0) = false)
    \/ (exists l1 o l2,
          l = l1 ++ o :: l2
          /\ fold_left (visitAt g) l b0
             = mkBest (int_to_unsigned (fst o)) (int_to_unsigned (snd o))
                      (objective g (fst o) (snd o))
          /\ Double.lt (objective g (fst o) (snd o)) (bestDistance b0) = true
          /\ (forall o', In o' l1 ->
                Double.le (objective g (fst o') (snd o'))
                          (objective g (fst o) (snd o)) = false)
          /\ (forall o', In o' l2 ->
                Double.lt (objective g (fst o') (snd o'))
                          (objective g (fst o) (snd o)) = false)).
Proof.
  induction l as [|a l IH]; intros b0; cbn [fold_left].
  - left. split; [reflexivity|]. intros o [].
  - pose proof (visitOffset_objective g (snd a) (fst a) b0) as Hvisit.
    fold (visitAt g b0 a) in Hvisit. rewrite Hvisit. clear Hvisit.
    destruct (Double.lt (objective g (fst a) (snd a)) (bestDistance b0))
      eqn:Ha.
    + destruct (IH (mkBest (int_to_unsigned (fst a)) (int_to_unsigned (snd a))
                           (objective g (fst a) (snd a))))
        as [[Hsame Hnone]|(l1 & o & l2 & -> & Hres & Hlt & Hl1 & Hl2)].
      * right. exists [], a, l. cbn in Hnone |- *.
        repeat split; auto. intros o' [].
      * right. exists (a :: l1), o, l2. cbn in Hlt |- *.
        repeat split; auto.
        -- eapply double_lt_trans; eassumption.
        -- intros o' [<-|Ho']; [apply double_lt_not_le; assumption|auto].
    + destruct (IH b0)
        as [[Hsame Hnone]|(l1 & o & l2 & -> & Hres & Hlt & Hl1 & Hl2)].
      * left. split; [assumption|]. intros o [<-|Ho]; auto.
      * right. exists (a :: l1), o, l2. cbn. repeat split; auto.
        intros o' [<-|Ho']; [|auto].
        destruct (Double.le (objective g (fst a) (snd a))
                            (objective g (fst o) (snd o))) eqn:Hle;
          [|reflexivity].
        rewrite (double_le_lt_trans _ _ _ Hle Hlt) in Ha. discriminate.
Qed.

(** What [findBestTranslation] returns, for a positive step and enough
    fuel: the initial [(0,0)] with the largest double when no evaluated
    offset is below it, and otherwise the first of the evaluated offsets
    with the least objective. *)
Lemma search_result (g : Globals) (step minX minY maxX maxY : Z) (fuel : nat) :
  0 < step ->
  (searchFuel g minX minY maxX maxY <= fuel)%nat ->
  exists b,
    searchLoops fuel g step minX minY maxX maxY = Some b
    /\ ((b = initialBest
         /\ forall x y,
              onGrid minX (maxOffsetX g maxX) step x ->
              onGrid minY (maxOffsetY g maxY) step y ->
              Double.lt (objective g x y) Double.numeric_limits_max = false)
        \/ (exists x y,
              onGrid minX (maxOffsetX g maxX) step x
              /\ onGrid minY (maxOffsetY g maxY) step y
              /\ b = mkBest (int_to_unsigned x) (int_to_unsigned y)
                            (objective g x y)
              /\ Double.lt (objective g x y) Double.numeric_limits_max = true
              /\ (forall x' y',
                    onGrid minX (maxOffsetX g maxX) step x' ->
                    onGrid minY (maxOffsetY g maxY) step y' ->
                    Double.lt (objective g x' y') (objective g x y) = false)
              /\ (forall x' y',
                    onGrid minX (maxOffsetX g maxX) step x' ->
                    onGrid minY (maxOffsetY g maxY) step y' ->
                    rowMajorBefore (x', y') (x, y) ->
                    Double.le (objective g x' y') (objective g x y) = false))).
Proof.
  intros Hstep Hfuel. eexists. split; [apply searchLoops_fold; assumption|].
  pose proof (searchOffsets_sorted g step minX minY maxX maxY Hstep) as Hsorted.
  destruct (fold_visit_spec g (searchOffsets g step minX minY maxX maxY)
                            initialBest)
    as [[Hsame Hnone]|(l1 & [x y] & l2 & Hsplit & Hres & Hlt & Hl1 & Hl2)].
  - left. split; [assumption|]. intros x y Hx Hy.
    apply (Hnone (x, y)). apply searchOffsets_In; auto.
  - right. exists x, y. cbn [fst snd] in *.
    assert (In (x, y) (searchOffsets g step minX minY maxX maxY)) as Hin.
    { rewrite Hsplit. apply in_elt. }
    apply searchOffsets_In in Hin; [|assumption]. destruct Hin as [Hx Hy].
    rewrite Hsplit in Hsorted.
    assert (forall x' y',
               onGrid minX (maxOffsetX g maxX) step x' ->
               onGrid minY (maxOffsetY g maxY) step y' ->
               In (x', y') l1 \/ (x', y') = (x, y) \/ In (x', y') l2) as Hwhere.
    { intros x' y' Hx' Hy'.
      assert (In (x', y') (searchOffsets g step minX minY maxX maxY)) as Hin'
        by (apply searchOffsets_In; auto).
      rewrite Hsplit in Hin'. apply in_app_or in Hin'.
      destruct Hin' as [Hin'|[Hin'|Hin']]; auto. }
    repeat split; auto.
    + intros x' y' Hx' Hy'.
      destruct (Hwhere x' y' Hx' Hy') as [Hin|[[= -> ->]|Hin]].
      * apply double_not_le_not_lt. apply (Hl1 (x', y')). assumption.
      * apply double_lt_irrefl.
      * apply (Hl2 (x', y')). assumption.
    + intros x' y' Hx' Hy' Hbefore.
      destruct (Hwhere x' y' Hx' Hy') as [Hin|[[= -> ->]|Hin]].
      * apply (Hl1 (x', y')). assumption.
      * unfold rowMajorBefore in Hbefore. cbn in Hbefore. lia.
      * pose proof (StronglySorted_after _ _ _ _ Hsorted _ Hin) as Hafter.
        unfold rowMajorBefore in Hbefore, Hafter. cbn in Hbefore, Hafter. lia.
Qed.

(** C4.  The scalar that the search evaluates at the offset [(x, y)],
    compares with the running best and stores when it is smaller, is
    [std::max] of the forward directed distance at [(x, y)] and of the
    reverse directed distance at [(-x, -y)]: one of the two, with neither
    greater than it.  It is the [symmetricDistance] of the specification. *)
Theorem search_evaluates_symmetric_objective :
  forall (g : Globals) (x y : Z),
    let forwardDist :=
      findHausdorffDistance (needleEdges g) (haystackDistanceTransform g)
                            (cvPoint x y) in
    let reverseDist :=
      findHausdorffDistance (haystackEdges g) (needleDistanceTransform g)
                            (cvPoint (- x) (- y)) in
    let dist := Double.std_max forwardDist reverseDist in
    (forall b : Best,
        visitOffset g y b x
        = if Double.lt dist (bestDistance b)
          then mkBest (int_to_unsigned x) (int_to_unsigned y) dist
          else b)
    /\ objective g x y = dist
    /\ (dist = forwardDist \/ dist = reverseDist)
    /\ Double.lt dist forwardDist = false
    /\ Double.lt dist reverseDist = false.
Proof.
  intros g x y forwardDist reverseDist dist.
  split; [reflexivity|]. split; [reflexivity|]. apply std_max_cases.
Qed.

(** Finite fields give objectives below the largest double, the initial
    [bestDistance]. *)
Lemma objective_below_max (g : Globals) (x y : Z) :
  (forall x' y',
      0 <= x' <= width (haystackDistanceTransform g) ->
      0 <= y' <= height (haystackDistanceTransform g) ->
      Double.lt (row (haystackDistanceTransform g) y' x')
                Double.numeric_limits_max = true) ->
  (forall x' y',
      0 <= x' <= width (needleDistanceTransform g) ->
      0 <= y' <= height (needleDistanceTransform g) ->
      Double.lt (row (needleDistanceTransform g) y' x')
                Double.numeric_limits_max = true) ->
  Double.lt (objective g x y) Double.numeric_limits_max = true.
Proof.
  intros Hhay Hneedle. unfold objective, symmetricDistance.
  apply std_max_below; apply findHausdorffDistance_below_max; assumption.
Qed.

(** C5.  For a positive step and a non-empty window of non-negative
    offsets, with at least one enumerated offset whose objective is below
    the largest double (the initial [bestDistance]), [findBestTranslation]
    returns an offset of the enumerated grid together with its objective
    value; no enumerated offset has a smaller value, and every enumerated
    offset that comes earlier in row-major order has a value that is
    neither smaller nor equal. *)
Theorem findBestTranslation_returns_first_minimum :
  forall (g : Globals) (step minX minY maxX maxY : Z) (fuel : nat),
    0 < step ->
    0 <= minX < maxX -> 0 <= minY < maxY ->
    maxX <= INT_MAX -> maxY <= INT_MAX ->
    (exists x y,
        onGrid minX maxX step x /\ onGrid minY maxY step y
        /\ Double.lt (objective g x y) Double.numeric_limits_max = true) ->
    (searchFuel g minX minY maxX maxY <= fuel)%nat ->
    exists bx by_ d,
      findBestTranslation fuel g step minX minY maxX maxY
      = Some (cvPoint bx by_, d)
      /\ onGrid minX maxX step bx /\ onGrid minY maxY step by_
      /\ d = objective g bx by_
      /\ (forall x y,
             onGrid minX maxX step x -> onGrid minY maxY step y ->
             Double.lt (objective g x y) d = false)
      /\ (forall x y,
             onGrid minX maxX step x -> onGrid minY maxY step y ->
             rowMajorBefore (x, y) (bx, by_) ->
             Double.le (objective g x y) d = false
             /\ Double.eq (objective g x y) d = false).
Proof.
  intros g step minX minY maxX maxY fuel Hstep HX HY HmaxX HmaxY Hfinite Hfuel.
  assert (maxOffsetX g maxX = maxX) as HMX.
  { unfold maxOffsetX. destruct (maxX =? -1) eqn:E; [apply Z.eqb_eq in E; lia|].
    reflexivity. }
  assert (maxOffsetY g maxY = maxY) as HMY.
  { unfold maxOffsetY. destruct (maxY =? -1) eqn:E; [apply Z.eqb_eq in E; lia|].
    reflexivity. }
  destruct (search_result g step minX minY maxX maxY fuel Hstep Hfuel)
    as (b & Hrun & Hcases).
  rewrite HMX, HMY in Hcases. unfold findBestTranslation. rewrite Hrun.
  destruct Hcases as [[_ Hnone]|(x & y & Hx & Hy & -> & _ & Hmin & Hfirst)].
  - destruct Hfinite as (x & y & Hx & Hy & Hlt).
    rewrite (Hnone x y Hx Hy) in Hlt. discriminate.
  - exists x, y, (objective g x y). cbn [bestX bestY bestDistance].
    assert (INT_MIN <= x <= INT_MAX) as Hxr.
    { destruct Hx as (k & Hk & -> & Hlt). unfold INT_MIN. nia. }
    assert (INT_MIN <= y <= INT_MAX) as Hyr.
    { destruct Hy as (k & Hk & -> & Hlt). unfold INT_MIN. nia. }
    rewrite !unsigned_round_trip by assumption.
    repeat split; auto using double_not_le_not_eq.
Qed.

Lemma findBestTranslation_returns_first_minimum_witness :
  exists bx by_ d,
    findBestTranslation 9 spotInTwoDots 1 0 0 9 1 = Some (cvPoint bx by_, d)
    /\ onGrid 0 9 1 bx /\ onGrid 0 1 1 by_
    /\ d = objective spotInTwoDots bx by_
    /\ (forall x y,
           onGrid 0 9 1 x -> onGrid 0 1 1 y ->
           Double.lt (objective spotInTwoDots x y) d = false)
    /\ (forall x y,
           onGrid 0 9 1 x -> onGrid 0 1 1 y ->
           rowMajorBefore (x, y) (bx, by_) ->
           Double.le (objective spotInTwoDots x y) d = false
           /\ Double.eq (objective spotInTwoDots x y) d = false).
Proof.
  apply (findBestTranslation_returns_first_minimum spotInTwoDots 1 0 0 9 1 9).
  - lia.
  - lia.
  - lia.
  - unfold INT_MAX. lia.
  - unfold INT_MAX. lia.
  - exists 2, 0. split; [exists 2; lia|]. split; [exists 0; lia|].
    vm_compute. reflexivity.
  - vm_compute. lia.
Defined.

Lemma empty_grid (lo hi step x : Z) :
  0 < step -> hi <= lo -> ~ onGrid lo hi step x.
Proof. intros Hstep Hle (k & Hk & -> & Hlt). nia. Qed.

(** C10 fails as it is stated: a maximum of -1 is the default argument
    that stands for the full range, so the empty window [0,-1) x [0,1) is
    searched over the columns 0..8, and the result is the offset (2,0)
    with its objective. *)
Lemma empty_window_with_default_maximum_is_searched :
  0 < 1
  /\ (0 >= -1 \/ 0 >= 1)
  /\ findBestTranslation 9 spotInTwoDots 1 0 0 (-1) 1
     = Some (cvPoint 2 0, Double.numeric_limits_min)
  /\ Some (cvPoint 2 0, Double.numeric_limits_min)
     <> Some (cvPoint 0 0, Double.numeric_limits_max).
Proof.
  split; [lia|]. split; [lia|]. split; [vm_compute; reflexivity|discriminate].
Qed.

(** C10, amended.  For a positive step, if the window is empty once a
    maximum of -1 has been replaced by its default (the haystack size
    minus the needle size), then [findBestTranslation] evaluates the
    objective at no offset and returns the offset (0,0) with the largest
    double. *)
Theorem findBestTranslation_empty_window :
  forall (g : Globals) (step minX minY maxX maxY : Z) (fuel : nat),
    0 < step ->
    maxOffsetX g maxX <= minX \/ maxOffsetY g maxY <= minY ->
    (searchFuel g minX minY maxX maxY <= fuel)%nat ->
    searchOffsets g step minX minY maxX maxY = []
    /\ findBestTranslation fuel g step minX minY maxX maxY
       = Some (cvPoint 0 0, Double.numeric_limits_max).
Proof.
  intros g step minX minY maxX maxY fuel Hstep Hempty Hfuel.
  assert (forall x y,
             ~ (onGrid minX (maxOffsetX g maxX) step x
                /\ onGrid minY (maxOffsetY g maxY) step y)) as Hnone.
  { intros x y [Hx Hy]. destruct Hempty as [He|He].
    - exact (empty_grid _ _ _ _ Hstep He Hx).
    - exact (empty_grid _ _ _ _ Hstep He Hy). }
  split.
  - destruct (searchOffsets g step minX minY maxX maxY) as [|[x y] l] eqn:Hl;
      [reflexivity|].
    exfalso. apply (Hnone x y). apply searchOffsets_In; [assumption|].
    rewrite Hl. left. reflexivity.
  - destruct (search_result g step minX minY maxX maxY fuel Hstep Hfuel)
      as (b & Hrun & [[-> _]|(x & y & Hx & Hy & _)]).
    + unfold findBestTranslation. rewrite Hrun. reflexivity.
    + destruct (Hnone x y (conj Hx Hy)).
Qed.

Lemma findBestTranslation_empty_window_witness :
  searchOffsets spotInTwoDots 1 3 0 3 1 = []
  /\ findBestTranslation 1 spotInTwoDots 1 3 0 3 1
     = Some (cvPoint 0 0, Double.numeric_limits_max).
Proof.
  apply (findBestTranslation_empty_window spotInTwoDots 1 3 0 3 1 1).
  - lia.
  - left. vm_compute. discriminate.
  - vm_compute. lia.
Defined.

(** ** More fuel changes nothing *)

Lemma for_loop_mono {I S : Type} (cond : I -> bool) (next : I -> I)
    (body body' : S -> I -> option S) :
  (forall s i r, body s i = Some r -> body' s i = Some r) ->
  forall (fuel fuel' : nat) (i : I) (s r : S),
    (fuel <= fuel')%nat ->
    for_loop fuel cond next i body s = Some r ->
    for_loop fuel' cond next i body' s = Some r.
Proof.
  intros Hbody. induction fuel as [|fuel IH]; intros fuel' i s r Hle; cbn.
  - destruct (cond i) eqn:Hc; [discriminate|].
    destruct fuel'; cbn; rewrite Hc; auto.
  - destruct (cond i) eqn:Hc.
    + destruct fuel' as [|fuel']; [lia|]. cbn. rewrite Hc.
      destruct (body s i) as [s1|] eqn:Hb; [|discriminate].
      rewrite (Hbody _ _ _ Hb). apply IH. lia.
    + destruct fuel'; cbn; rewrite Hc; auto.
Qed.

Lemma findBestTranslation_mono (g : Globals) (step minX minY maxX maxY : Z)
    (fuel fuel' : nat) (r : CvPoint * double) :
  (fuel <= fuel')%nat ->
  findBestTranslation fuel g step minX minY maxX maxY = Some r ->
  findBestTranslation fuel' g step minX minY maxX maxY = Some r.
Proof.
  intros Hle. unfold findBestTranslation.
  destruct (searchLoops fuel g step minX minY maxX maxY) as [b|] eqn:Hrun;
    [|discriminate].
  intros Hr. unfold searchLoops in *.
  erewrite for_loop_mono; [eassumption| |eassumption|eassumption].
  intros b' y r'. unfold searchRow. apply for_loop_mono; auto.
Qed.

Lemma refineLoop_mono (g : Globals) (initialStep : Z) (st : Refine.State)
    (fuel fuel' : nat) (r : Refine.State) :
  (fuel <= fuel')%nat ->
  refineLoop fuel g initialStep st = Some r ->
  refineLoop fuel' g initialStep st = Some r.
Proof.
  intros Hle. unfold refineLoop. apply for_loop_mono; [|assumption].
  intros s step r'. unfold refineRound.
  destruct (findBestTranslation fuel g step (Refine.minX s) (Refine.minY s)
                                (Refine.maxX s) (Refine.maxY s))
    as [found|] eqn:Hfound; [|discriminate].
  rewrite (findBestTranslation_mono _ _ _ _ _ _ _ _ _ Hle Hfound). auto.
Qed.

Lemma findBestTranslationRecursive_mono (g : Globals) (garbage : CvPoint)
    (initialStep : Z) (fuel fuel' : nat) (r : CvPoint * double) :
  (fuel <= fuel')%nat ->
  findBestTranslationRecursive fuel g garbage initialStep = Some r ->
  findBestTranslationRecursive fuel' g garbage initialStep = Some r.
Proof.
  intros Hle. unfold findBestTranslationRecursive.
  destruct (refineLoop fuel g initialStep (refineInit g garbage)) as [st|] eqn:Hrun;
    [|discriminate].
  rewrite (refineLoop_mono _ _ _ _ _ _ Hle Hrun). auto.
Qed.

(** ** findBestTranslationRecursive: the window *)

Lemma refineUpdate_window (g : Globals) (step : Z) (st : Refine.State)
    (found : CvPoint * double) :
  windowInRange g st -> windowInRange g (refineUpdate g step st found).
Proof.
  unfold refineUpdate, windowInRange. destruct found as [translation distance].
  destruct (Double.lt distance (Refine.bestDistance st)); cbn; [lia|auto].
Qed.

Lemma refineRound_window (fuel : nat) (g : Globals) (st st' : Refine.State)
    (step : Z) :
  windowInRange g st -> refineRound fuel g st step = Some st' ->
  windowInRange g st'.
Proof.
  unfold refineRound. intros Hst.
  destruct (findBestTranslation fuel g step (Refine.minX st) (Refine.minY st)
                                (Refine.maxX st) (Refine.maxY st))
    as [found|]; [|discriminate].
  intros [= <-]. apply refineUpdate_window. assumption.
Qed.

Lemma refineInit_window (g : Globals) (garbage : CvPoint) :
  windowInRange g (refineInit g garbage).
Proof. unfold windowInRange, refineInit. cbn. lia. Qed.

Lemma window_subset (g : Globals) (st : Refine.State) (x y : Z) :
  windowInRange g st -> inWindow st x y -> inAbsoluteRange g x y.
Proof. unfold windowInRange, inWindow, inAbsoluteRange. lia. Qed.

(** ** findBestTranslationRecursive: what it returns *)

Lemma halve_positive (step : Z) :
  2 <= step -> 0 < Z.quot step 2 < step.
Proof.
  intros Hstep. rewrite Z.quot_div_nonneg by lia.
  pose proof (Z.div_mod step 2 ltac:(lia)).
  pose proof (Z.mod_pos_bound step 2 ltac:(lia)). lia.
Qed.

Section Refinement.

Variables (g : Globals) (xs ys : Z).

Hypothesis minimizer_in_range : inAbsoluteRange g xs ys.
Hypothesis minimizer_finite :
  Double.lt (objective g xs ys) Double.numeric_limits_max = true.
Hypothesis minimizer_unique :
  forall x y,
    inAbsoluteRange g x y -> (x, y) <> (xs, ys) ->
    Double.lt (objective g xs ys) (objective g x y) = true.
Hypothesis widths_are_ints : absoluteMaxX g <= INT_MAX.
Hypothesis heights_are_ints : absoluteMaxY g <= INT_MAX.

Lemma effective_maxima (st : Refine.State) :
  windowInRange g st ->
  Refine.maxX st <= maxOffsetX g (Refine.maxX st) <= absoluteMaxX g
  /\ Refine.maxY st <= maxOffsetY g (Refine.maxY st) <= absoluteMaxY g.
Proof.
  unfold windowInRange, maxOffsetX, maxOffsetY, absoluteMaxX, absoluteMaxY.
  intros Hw.
  destruct (Refine.maxX st =? -1) eqn:Ex; destruct (Refine.maxY st =? -1) eqn:Ey;
    cbn; lia.
Qed.

Lemma grid_in_range (st : Refine.State) (step x y : Z) :
  0 < step -> windowInRange g st ->
  onGrid (Refine.minX st) (maxOffsetX g (Refine.maxX st)) step x ->
  onGrid (Refine.minY st) (maxOffsetY g (Refine.maxY st)) step y ->
  inAbsoluteRange g x y.
Proof.
  intros Hstep Hw (i & Hi & -> & Hx) (j & Hj & -> & Hy).
  pose proof (effective_maxima st Hw). unfold windowInRange in Hw.
  unfold inAbsoluteRange. nia.
Qed.

Lemma round_fuel (st : Refine.State) (fuel : nat) :
  windowInRange g st ->
  (Nat.max (Z.to_nat (absoluteMaxX g)) (Z.to_nat (absoluteMaxY g)) <= fuel)%nat ->
  (searchFuel g (Refine.minX st) (Refine.minY st)
              (Refine.maxX st) (Refine.maxY st) <= fuel)%nat.
Proof.
  intros Hw Hfuel. pose proof (effective_maxima st Hw).
  unfold windowInRange in Hw. unfold searchFuel. lia.
Qed.

(** One round with a positive step returns, and keeps both invariants. *)
Lemma refineRound_total (fuel : nat) (st : Refine.State) (step : Z) :
  0 < step ->
  (Nat.max (Z.to_nat (absoluteMaxX g)) (Z.to_nat (absoluteMaxY g)) <= fuel)%nat ->
  windowInRange g st -> bestIsEvaluated g st ->
  exists st',
    refineRound fuel g st step = Some st'
    /\ windowInRange g st' /\ bestIsEvaluated g st'.
Proof.
  intros Hstep Hfuel Hw Hbest.
  destruct (search_result g step (Refine.minX st) (Refine.minY st)
              (Refine.maxX st) (Refine.maxY st) fuel Hstep
              (round_fuel st fuel Hw Hfuel))
    as (b & Hrun & Hcases).
  unfold refineRound, findBestTranslation. rewrite Hrun.
  eexists. split; [reflexivity|]. split; [apply refineUpdate_window; assumption|].
  unfold refineUpdate.
  destruct (Double.lt (bestDistance b) (Refine.bestDistance st)) eqn:Hlt;
    [|assumption].
  destruct Hcases as [[-> _]|(x & y & Hx & Hy & -> & _)].
  - cbn in Hlt. destruct Hbest as [Hd|(x & y & _ & _ & Hd)].
    + rewrite Hd, double_lt_irrefl in Hlt. discriminate.
    + left. reflexivity.
  - right. exists x, y. cbn.
    pose proof (grid_in_range st step x y Hstep Hw Hx Hy) as Hin.
    split; [assumption|]. split; [|reflexivity].
    unfold inAbsoluteRange, INT_MAX in *.
    rewrite !unsigned_round_trip by (unfold INT_MIN, INT_MAX; lia).
    reflexivity.
Qed.

(** The round with step 1 over a window that holds the minimizer ends
    with the minimizer as the running best. *)
Lemma last_round_finds_minimizer (fuel : nat) (st : Refine.State) :
  (Nat.max (Z.to_nat (absoluteMaxX g)) (Z.to_nat (absoluteMaxY g)) <= fuel)%nat ->
  windowInRange g st -> bestIsEvaluated g st -> inWindow st xs ys ->
  exists st',
    refineRound fuel g st 1 = Some st'
    /\ Refine.bestTranslation st' = cvPoint xs ys
    /\ Refine.bestDistance st' = objective g xs ys.
Proof.
  intros Hfuel Hw Hbest Hin.
  destruct (search_result g 1 (Refine.minX st) (Refine.minY st)
              (Refine.maxX st) (Refine.maxY st) fuel ltac:(lia)
              (round_fuel st fuel Hw Hfuel))
    as (b & Hrun & Hcases).
  unfold refineRound, findBestTranslation. rewrite Hrun.
  eexists. split; [reflexivity|].
  pose proof (effective_maxima st Hw) as Heff. unfold inWindow in Hin.
  assert (onGrid (Refine.minX st) (maxOffsetX g (Refine.maxX st)) 1 xs) as Hgx
    by (exists (xs - Refine.minX st); lia).
  assert (onGrid (Refine.minY st) (maxOffsetY g (Refine.maxY st)) 1 ys) as Hgy
    by (exists (ys - Refine.minY st); lia).
  assert (forall x y,
             inAbsoluteRange g x y ->
             Double.lt (objective g xs ys) (objective g x y) = false ->
             (x, y) = (xs, ys)) as Honly.
  { intros x y Hr Hnot.
    destruct (Z.eq_dec x xs) as [->|Hx]; [destruct (Z.eq_dec y ys) as [->|Hy]|];
      [reflexivity| |];
      rewrite minimizer_unique in Hnot by (assumption || congruence);
      discriminate. }
  destruct Hcases as [[-> Hnone]|(x & y & Hx & Hy & -> & _ & Hmin & _)].
  - rewrite (Hnone xs ys Hgx Hgy) in minimizer_finite. discriminate.
  - pose proof (grid_in_range st 1 x y ltac:(lia) Hw Hx Hy) as Hr.
    pose proof (Honly x y Hr (Hmin xs ys Hgx Hgy)) as [= -> ->].
    unfold refineUpdate. cbn [bestX bestY bestDistance].
    unfold inAbsoluteRange in minimizer_in_range.
    rewrite !unsigned_round_trip by (unfold INT_MIN, INT_MAX in *; lia).
    destruct (Double.lt (objective g xs ys) (Refine.bestDistance st)) eqn:Hlt;
      [cbn; auto|].
    destruct Hbest as [Hd|(x & y & Hr' & Ht & Hd)].
    + rewrite Hd, minimizer_finite in Hlt. discriminate.
    + rewrite Hd in Hlt. pose proof (Honly x y Hr' Hlt) as [= -> ->]. auto.
Qed.

Lemma refine_loop_exact (fuel : nat) :
  (Nat.max (Z.to_nat (absoluteMaxX g)) (Z.to_nat (absoluteMaxY g)) <= fuel)%nat ->
  forall (n : nat) (step : Z) (st : Refine.State),
    0 < step -> (Z.to_nat step <= n)%nat ->
    windowInRange g st -> bestIsEvaluated g st ->
    (forall st1,
        In (1, st1)
           (for_rounds n (fun step => step >? 0) (fun step => Z.quot step 2)
                       step (refineRound fuel g) st) ->
        inWindow st1 xs ys) ->
    exists st',
      for_loop n (fun step => step >? 0) (fun step => Z.quot step 2)
               step (refineRound fuel g) st = Some st'
      /\ Refine.bestTranslation st' = cvPoint xs ys
      /\ Refine.bestDistance st' = objective g xs ys.
Proof.
  intros Hfuel. induction n as [|n IH]; intros step st Hstep Hn Hw Hbest Hlast;
    [lia|].
  cbn in Hlast |- *.
  assert ((step >? 0) = true) as Hc by (apply Z.gtb_lt; lia).
  rewrite Hc in Hlast |- *.
  destruct (Z.eq_dec step 1) as [->|Hne].
  - destruct (last_round_finds_minimizer fuel st Hfuel Hw Hbest)
      as (st' & Hround & Ht & Hd).
    { apply Hlast. left. reflexivity. }
    rewrite Hround. exists st'. split; [|auto].
    change (Z.quot 1 2) with 0. destruct n; reflexivity.
  - destruct (refineRound_total fuel st step Hstep Hfuel Hw Hbest)
      as (st' & Hround & Hw' & Hbest').
    rewrite Hround in Hlast |- *.
    pose proof (halve_positive step ltac:(lia)) as Hhalf.
    apply IH; [lia|lia|assumption|assumption|].
    intros st1 Hin. apply Hlast. right. assumption.
Qed.

End Refinement.

(** C6 fails as it is stated.  For the needle [spot] in the haystack
    [twoDots], with edge pixels at (2,0) and (9,0), the objective has the
    unique minimizer (2,0) over the absolute range [0,9) x [0,1), and the
    initial step 4 is twice its largest coordinate; the round with step 4
    evaluates the columns 0, 4 and 8, keeps (8,0), whose distance is 1,
    and recenters the window on the columns 4..8: the search returns
    (8,0) with the distance 1. *)
Lemma coarse_round_locks_onto_another_offset :
  inAbsoluteRange spotInTwoDots 2 0
  /\ (forall x y,
         inAbsoluteRange spotInTwoDots x y -> (x, y) <> (2, 0) ->
         Double.lt (objective spotInTwoDots 2 0) (objective spotInTwoDots x y)
         = true)
  /\ 4 >= 2 * Z.max 2 0
  /\ (forall fuel,
         (9 <= fuel)%nat ->
         findBestTranslationRecursive fuel spotInTwoDots (cvPoint 0 0) 4
         = Some (cvPoint 8 0, Double.of_Z 1))
  /\ Some (cvPoint 8 0, Double.of_Z 1)
     <> Some (cvPoint 2 0, objective spotInTwoDots 2 0).
Proof.
  split; [vm_compute; intuition discriminate|]. split; [|split; [lia|split]].
  - intros x y [Hx Hy] Hne. cbn in Hx, Hy.
    assert (y = 0) as -> by lia.
    assert (x = 0 \/ x = 1 \/ x = 3 \/ x = 4 \/ x = 5 \/ x = 6 \/ x = 7 \/ x = 8)
      as Hcases.
    { destruct (Z.eq_dec x 2) as [->|]; [congruence|lia]. }
    repeat (destruct Hcases as [->|Hcases]; [vm_compute; reflexivity|]).
    subst x. vm_compute. reflexivity.
  - intros fuel Hfuel.
    apply (findBestTranslationRecursive_mono _ _ _ 9%nat); [assumption|].
    vm_compute. reflexivity.
  - vm_compute. discriminate.
Qed.

(** C6, amended.  If the symmetric objective has a unique minimizing
    offset in the absolute range, with a value below the largest double,
    the initial step is positive, and the minimizer lies in the window
    that the last round (the one with step 1) searches, then
    [findBestTranslationRecursive] returns exactly that offset and the
    minimal objective value. *)
Theorem hierarchical_search_exact_when_last_window_holds_minimizer :
  forall (g : Globals) (garbage : CvPoint) (initialStep xs ys : Z)
         (fuel : nat),
    0 < initialStep ->
    inAbsoluteRange g xs ys ->
    Double.lt (objective g xs ys) Double.numeric_limits_max = true ->
    (forall x y,
        inAbsoluteRange g x y -> (x, y) <> (xs, ys) ->
        Double.lt (objective g xs ys) (objective g x y) = true) ->
    absoluteMaxX g <= INT_MAX -> absoluteMaxY g <= INT_MAX ->
    (refineFuel g initialStep <= fuel)%nat ->
    (forall st,
        In (1, st) (refineRounds fuel g garbage initialStep) ->
        inWindow st xs ys) ->
    findBestTranslationRecursive fuel g garbage initialStep
    = Some (cvPoint xs ys, objective g xs ys).
Proof.
  intros g garbage initialStep xs ys fuel Hstep Hrange Hfinite Hunique
         HintX HintY Hfuel Hlast.
  unfold refineFuel in Hfuel.
  destruct (refine_loop_exact g xs ys Hrange Hfinite Hunique HintX HintY fuel
              ltac:(lia) fuel initialStep (refineInit g garbage) Hstep
              ltac:(lia) (refineInit_window g garbage)
              (or_introl eq_refl) Hlast)
    as (st & Hrun & Ht & Hd).
  unfold findBestTranslationRecursive, refineLoop. rewrite Hrun, Ht, Hd.
  reflexivity.
Qed.

Lemma hierarchical_search_exact_witness :
  findBestTranslationRecursive 9 spotInTwoDots (cvPoint 0 0) 2
  = Some (cvPoint 2 0, objective spotInTwoDots 2 0).
Proof.
  apply (hierarchical_search_exact_when_last_window_holds_minimizer
           spotInTwoDots (cvPoint 0 0) 2 2 0 9).
  - lia.
  - vm_compute. intuition discriminate.
  - vm_compute. reflexivity.
  - intros x y [Hx Hy] Hne. cbn in Hx, Hy.
    assert (y = 0) as -> by lia.
    assert (x = 0 \/ x = 1 \/ x = 3 \/ x = 4 \/ x = 5 \/ x = 6 \/ x = 7 \/ x = 8)
      as Hcases.
    { destruct (Z.eq_dec x 2) as [->|]; [congruence|lia]. }
    repeat (destruct Hcases as [->|Hcases]; [vm_compute; reflexivity|]).
    subst x. vm_compute. reflexivity.
  - vm_compute. discriminate.
  - vm_compute. discriminate.
  - vm_compute. lia.
  - intros st Hin. vm_compute in Hin.
    destruct Hin as [Hin|[Hin|[]]]; [discriminate|].
    injection Hin as <-. vm_compute. intuition discriminate.
Defined.

(** ** findBestTranslationRecursive returns *)

Lemma refineRound_returns (fuel : nat) (g : Globals) (st : Refine.State)
    (step : Z) :
  0 < step ->
  (Nat.max (Z.to_nat (absoluteMaxX g)) (Z.to_nat (absoluteMaxY g)) <= fuel)%nat ->
  windowInRange g st ->
  exists st', refineRound fuel g st step = Some st' /\ windowInRange g st'.
Proof.
  intros Hstep Hfuel Hw.
  destruct (search_result g step (Refine.minX st) (Refine.minY st)
              (Refine.maxX st) (Refine.maxY st) fuel Hstep
              (round_fuel g st fuel Hw Hfuel))
    as (b & Hrun & _).
  unfold refineRound, findBestTranslation. rewrite Hrun.
  eexists. split; [reflexivity|]. apply refineUpdate_window. assumption.
Qed.

Lemma refineLoop_returns (fuel : nat) (g : Globals) :
  (Nat.max (Z.to_nat (absoluteMaxX g)) (Z.to_nat (absoluteMaxY g)) <= fuel)%nat ->
  forall (n : nat) (step : Z) (st : Refine.State),
    (Z.to_nat step <= n)%nat -> windowInRange g st ->
    exists st',
      for_loop n (fun step => step >? 0) (fun step => Z.quot step 2)
               step (refineRound fuel g) st = Some st'.
Proof.
  intros Hfuel. induction n as [|n IH]; intros step st Hn Hw.
  - exists st. cbn. destruct (step >? 0) eqn:Hc; [|reflexivity].
    rewrite Z.gtb_ltb in Hc. apply Z.ltb_lt in Hc. lia.
  - cbn. destruct (step >? 0) eqn:Hc; [|eauto].
    rewrite Z.gtb_ltb in Hc. apply Z.ltb_lt in Hc.
    destruct (refineRound_returns fuel g st step Hc Hfuel Hw)
      as (st' & -> & Hw').
    apply IH; [|assumption].
    destruct (Z.eq_dec step 1) as [->|Hne]; [cbn; lia|].
    pose proof (halve_positive step ltac:(lia)). lia.
Qed.

Lemma findBestTranslationRecursive_returns (fuel : nat) (g : Globals)
    (garbage : CvPoint) (initialStep : Z) :
  (refineFuel g initialStep <= fuel)%nat ->
  exists r, findBestTranslationRecursive fuel g garbage initialStep = Some r.
Proof.
  unfold refineFuel. intros Hfuel.
  destruct (refineLoop_returns fuel g ltac:(lia) fuel initialStep
              (refineInit g garbage) ltac:(lia) (refineInit_window g garbage))
    as (st & Hrun).
  unfold findBestTranslationRecursive, refineLoop. rewrite Hrun. eauto.
Qed.

(** C7.  The window of [findBestTranslationRecursive] starts as the full
    absolute range; at the start of every round and at the end of the
    loop its minima are at least 0 and its maxima at most the absolute
    maxima, so every offset of the window is an offset of the absolute
    range; a round whose distance is strictly smaller than the running
    best recenters the window on the new best offset, plus and minus the
    step, clamped to 0 and to the absolute maxima; a round without such an
    improvement leaves the state, and so the window, unchanged.  With
    enough fuel the loop returns. *)
Theorem refinement_window_stays_in_absolute_range :
  forall (fuel : nat) (g : Globals) (garbage : CvPoint) (initialStep : Z),
    (Refine.minX (refineInit g garbage) = 0
     /\ Refine.minY (refineInit g garbage) = 0
     /\ Refine.maxX (refineInit g garbage)
        = width (haystackDistanceTransform g) - width (needleEdges g)
     /\ Refine.maxY (refineInit g garbage)
        = height (haystackDistanceTransform g) - height (needleEdges g))
    /\ (forall step st,
           In (step, st) (refineRounds fuel g garbage initialStep) ->
           windowInRange g st
           /\ forall x y, inWindow st x y -> inAbsoluteRange g x y)
    /\ (forall st,
           refineLoop fuel g initialStep (refineInit g garbage) = Some st ->
           windowInRange g st
           /\ forall x y, inWindow st x y -> inAbsoluteRange g x y)
    /\ (forall step st translation distance,
           Double.lt distance (Refine.bestDistance st) = true ->
           let st' := refineUpdate g step st (translation, distance) in
           Refine.minX st' = Z.max 0 (px translation - step)
           /\ Refine.minY st' = Z.max 0 (py translation - step)
           /\ Refine.maxX st' = Z.min (absoluteMaxX g) (px translation + step)
           /\ Refine.maxY st' = Z.min (absoluteMaxY g) (py translation + step))
    /\ (forall step st translation distance,
           Double.lt distance (Refine.bestDistance st) = false ->
           refineUpdate g step st (translation, distance) = st)
    /\ ((refineFuel g initialStep <= fuel)%nat ->
        exists st,
          refineLoop fuel g initialStep (refineInit g garbage) = Some st).
Proof.
  intros fuel g garbage initialStep.
  destruct (for_loop_invariant (fun step => step >? 0) (fun step => Z.quot step 2)
              (windowInRange g) (refineRound fuel g)
              (fun s i s' Hs _ Hr => refineRound_window fuel g s s' i Hs Hr)
              fuel initialStep (refineInit g garbage)
              (refineInit_window g garbage))
    as [Hrounds Hfinal].
  split; [cbn; auto|]. split; [|split; [|split; [|split]]].
  - intros step st Hin. split; [eauto|].
    intros x y. apply window_subset. eauto.
  - intros st Hrun. split; [auto|].
    intros x y. apply window_subset. auto.
  - intros step st translation distance Hlt. unfold refineUpdate.
    rewrite Hlt. cbn. auto.
  - intros step st translation distance Hlt. unfold refineUpdate.
    rewrite Hlt. reflexivity.
  - unfold refineFuel. intros Hfuel.
    apply (refineLoop_returns fuel g ltac:(lia) fuel initialStep
             (refineInit g garbage) ltac:(lia) (refineInit_window g garbage)).
Qed.

(** ** Loops whose body returns on the states of an invariant *)

Lemma for_loop_fold_inv {I S : Type} (cond : I -> bool) (next : I -> I)
    (P : S -> Prop) (body : S -> I -> option S) (f : S -> I -> S) :
  forall (n fuel : nat) (i : I) (s : S),
    stops n cond next i = true ->
    (n <= fuel)%nat ->
    P s ->
    (forall s' j,
        P s' -> In j (visited n cond next i) ->
        body s' j = Some (f s' j) /\ P (f s' j)) ->
    for_loop fuel cond next i body s
    = Some (fold_left f (visited n cond next i) s)
    /\ P (fold_left f (visited n cond next i) s).
Proof.
  induction n as [|n IH]; intros fuel i s Hstop Hfuel Hs Hbody.
  - cbn in Hstop. destruct (cond i) eqn:Hc; [discriminate|].
    destruct fuel; cbn; rewrite Hc; auto.
  - cbn in Hstop, Hbody |- *. destruct (cond i) eqn:Hc.
    + destruct fuel as [|fuel]; [lia|]. cbn. rewrite Hc.
      destruct (Hbody s i Hs (or_introl eq_refl)) as [-> Hs'].
      apply IH; [assumption|lia|assumption|].
      intros s' j Hs'' Hj. apply Hbody; [assumption|right; assumption].
    + destruct fuel; cbn; rewrite Hc; auto.
Qed.

Lemma rotations_stop (maxRotation rotationStep : Z) :
  0 < rotationStep ->
  forall (n : nat) (rotation : Z),
    (Z.to_nat (maxRotation + 1 - rotation) <= n)%nat ->
    stops n (fun r => r <=? maxRotation) (fun r => r + rotationStep) rotation
    = true.
Proof.
  intros Hstep. induction n as [|n IH]; intros rotation Hn; cbn.
  - destruct (rotation <=? maxRotation) eqn:Hc; [apply Z.leb_le in Hc; lia|].
    reflexivity.
  - destruct (rotation <=? maxRotation) eqn:Hc; [|reflexivity].
    apply Z.leb_le in Hc. apply IH. lia.
Qed.

(** ** findBestTranslationScaleAndRotation *)

Lemma store_store {A : Type} (p : option A) (v w : A) :
  store (store p v) w = store p w.
Proof. destruct p; reflexivity. Qed.

Section PoseSweep.

Context `{cv : OpenCV}.
Variables (fuel : nat) (g : Globals) (garbage : CvPoint).
Variable initialTranslationStep : Z.
Hypothesis enough_fuel : (refineFuel g initialTranslationStep <= fuel)%nat.

Lemma framed_warp (g' : Globals) (m : CvMat) :
  framed g g' ->
  setNeedleEdges g' (warpInto (needleEdges g) (needleEdges g') m)
  = setNeedleEdges g (warpInto (needleEdges g) (needleEdges g) m).
Proof.
  unfold framed, setNeedleEdges, warpInto.
  intros (-> & -> & -> & -> & ->). reflexivity.
Qed.

Lemma framed_pose (img : Image Intensity) (m : CvMat) :
  width img = width (needleEdges g) -> height img = height (needleEdges g) ->
  framed g (setNeedleEdges g (warpInto (needleEdges g) img m)).
Proof. unfold framed. cbn. auto. Qed.

Lemma refineFuel_framed (g' : Globals) :
  framed g g' ->
  refineFuel g' initialTranslationStep = refineFuel g initialTranslationStep.
Proof.
  unfold framed, refineFuel, absoluteMaxX, absoluteMaxY.
  intros (_ & _ & -> & -> & ->). reflexivity.
Qed.

Lemma tryPose_returns (st : Pose.State) (rotation : Z) (scale : double) :
  framed g (Pose.globals st) ->
  exists point dist,
    poseDistance fuel g garbage initialTranslationStep rotation scale
    = Some (point, dist)
    /\ tryPose fuel garbage (needleEdges g)
               (cvPoint (Z.quot (width (needleEdges g)) 2)
                        (Z.quot (height (needleEdges g)) 2))
               initialTranslationStep rotation (angleOf rotation) st scale
       = Some (afterPose g st rotation scale point dist).
Proof.
  intros Hframe. unfold tryPose, poseDistance.
  rewrite (framed_warp _ _ Hframe).
  change (warpInto (needleEdges g) (needleEdges g)
            (cv2DRotationMatrix
               (cvPoint (Z.quot (width (needleEdges g)) 2)
                        (Z.quot (height (needleEdges g)) 2))
               (angleOf rotation) scale))
    with (needleAtPose g rotation scale).
  destruct (findBestTranslationRecursive_returns fuel
              (setNeedleEdges g (needleAtPose g rotation scale)) garbage
              initialTranslationStep)
    as ([point dist] & Hrun).
  { rewrite refineFuel_framed; [assumption|].
    apply framed_pose; reflexivity. }
  rewrite Hrun. exists point, dist. split; [reflexivity|].
  unfold afterPose. destruct (Double.lt dist (Pose.bestDistance st)); reflexivity.
Qed.

Lemma afterPose_framed (st : Pose.State) (rotation : Z) (scale : double)
    (point : CvPoint) (dist : double) :
  framed g (Pose.globals (afterPose g st rotation scale point dist)).
Proof.
  unfold afterPose.
  destruct (Double.lt dist (Pose.bestDistance st)); cbn;
    apply framed_pose; reflexivity.
Qed.

Lemma poseStep_returns (st : Pose.State) (pose : Z * double) :
  framed g (Pose.globals st) ->
  tryPose fuel garbage (needleEdges g)
          (cvPoint (Z.quot (width (needleEdges g)) 2)
                   (Z.quot (height (needleEdges g)) 2))
          initialTranslationStep (fst pose) (angleOf (fst pose)) st (snd pose)
  = Some (poseStep fuel g garbage initialTranslationStep st pose)
  /\ framed g (Pose.globals
                 (poseStep fuel g garbage initialTranslationStep st pose)).
Proof.
  intros Hframe. unfold poseStep.
  destruct (tryPose_returns st (fst pose) (snd pose) Hframe)
    as (point & dist & _ & ->).
  split; [reflexivity|]. apply afterPose_framed.
Qed.

(** Folding the body over a list of poses either never improves on the
    initial distance, or ends with the matrix, the distance and the
    outputs of a pose of the list that no earlier pose matches or beats
    and no later pose beats. *)
Lemma fold_pose_spec :
  forall (l : list (Z * double)) (st0 : Pose.State),
    framed g (Pose.globals st0) ->
    let st := fold_left (poseStep fuel g garbage initialTranslationStep) l st0 in
    framed g (Pose.globals st)
    /\ ((Pose.bestDistance st = Pose.bestDistance st0
         /\ Pose.bestRotMat st = Pose.bestRotMat st0
         /\ Pose.bestTranslation st = Pose.bestTranslation st0
         /\ Pose.bestRotation st = Pose.bestRotation st0
         /\ Pose.bestScale st = Pose.bestScale st0
         /\ (forall r s p d,
                In (r, s) l ->
                poseDistance fuel g garbage initialTranslationStep r s
                = Some (p, d) ->
                Double.lt d (Pose.bestDistance st0) = false))
        \/ (exists l1 rotation scale l2 point,
              l = l1 ++ (rotation, scale) :: l2
              /\ poseDistance fuel g garbage initialTranslationStep
                              rotation scale
                 = Some (point, Pose.bestDistance st)
              /\ Double.lt (Pose.bestDistance st) (Pose.bestDistance st0) = true
              /\ Pose.bestRotMat st = poseMatrix g rotation scale
              /\ Pose.bestTranslation st
                 = store (Pose.bestTranslation st0) point
              /\ Pose.bestRotation st = store (Pose.bestRotation st0) rotation
              /\ Pose.bestScale st = store (Pose.bestScale st0) scale
              /\ (forall r s p d,
                     In (r, s) l1 ->
                     poseDistance fuel g garbage initialTranslationStep r s
                     = Some (p, d) ->
                     Double.le d (Pose.bestDistance st) = false)
              /\ (forall r s p d,
                     In (r, s) l2 ->
                     poseDistance fuel g garbage initialTranslationStep r s
                     = Some (p, d) ->
                     Double.lt d (Pose.bestDistance st) = false))).
Proof.
  induction l as [|[r0 s0] l IH]; intros st0 Hframe; cbn zeta; cbn [fold_left].
  - split; [assumption|]. left. repeat split; auto. intros r s p d [].
  - destruct (tryPose_returns st0 r0 s0 Hframe) as (p0 & d0 & Hd0 & Htry).
    assert (poseStep fuel g garbage initialTranslationStep st0 (r0, s0)
            = afterPose g st0 r0 s0 p0 d0) as Hstep.
    { unfold poseStep. cbn [fst snd]. rewrite Htry. reflexivity. }
    rewrite Hstep.
    specialize (IH (afterPose g st0 r0 s0 p0 d0) (afterPose_framed _ _ _ _ _)).
    cbn zeta in IH. destruct IH as [Hframed IH].
    split; [assumption|].
    set (st := fold_left (poseStep fuel g garbage initialTranslationStep) l
                         (afterPose g st0 r0 s0 p0 d0)) in *.
    unfold afterPose in IH.
    destruct (Double.lt d0 (Pose.bestDistance st0)) eqn:Hlt0; cbn in IH.
    + right.
      destruct IH as [(Hd & Hm & Ht & Hr & Hs & Hnone)
                     |(l1 & r & s & l2 & p & -> & Hdist & Hlt & Hm
                       & Ht & Hr & Hs & Hl1 & Hl2)].
      * exists [], r0, s0, l, p0. rewrite Hd, Hm, Ht, Hr, Hs.
        repeat split; auto. intros r s p d [].
      * exists ((r0, s0) :: l1), r, s, l2, p.
        rewrite store_store in Ht. rewrite store_store in Hr.
        rewrite store_store in Hs.
        repeat split; auto.
        -- eapply double_lt_trans; eassumption.
        -- intros r' s' p' d' [[= <- <-]|Hin] Hd'; [|eauto].
           rewrite Hd0 in Hd'. injection Hd' as <- <-.
           apply double_lt_not_le. assumption.
    + destruct IH as [(Hd & Hm & Ht & Hr & Hs & Hnone)
                     |(l1 & r & s & l2 & p & -> & Hdist & Hlt & Hm
                       & Ht & Hr & Hs & Hl1 & Hl2)].
      * left. repeat split; auto.
        intros r s p d [[= <- <-]|Hin] Hrs; [|eauto].
        rewrite Hd0 in Hrs. injection Hrs as <- <-. assumption.
      * right. exists ((r0, s0) :: l1), r, s, l2, p.
        repeat split; auto.
        intros r' s' p' d' [[= <- <-]|Hin] Hd'; [|eauto].
        rewrite Hd0 in Hd'. injection Hd' as <- <-.
        destruct (Double.le d0 (Pose.bestDistance st)) eqn:Hle; [|reflexivity].
        rewrite (double_le_lt_trans _ _ _ Hle Hlt) in Hlt0. discriminate.
Qed.

End PoseSweep.

Section PoseSearch.

Context `{cv : OpenCV}.
Variables (g : Globals) (garbage : CvPoint) (rotMat0 bestRotMat0 : CvMat).
Variables (bestTranslation0 : option CvPoint) (bestRotation0 : option Z).
Variable bestScale0 : option double.
Variables (initialTranslationStep minRotation maxRotation rotationStep : Z).
Variables (minScale maxScale scaleStep : double).
Variables (n fuel : nat).

Hypothesis rotationStep_pos : 0 < rotationStep.
Hypothesis scales_end :
  stops n (fun scale => Double.le scale maxScale)
        (fun scale => Double.add scale scaleStep) minScale = true.
Hypothesis enough_fuel :
  (poseFuel g initialTranslationStep minRotation maxRotation n <= fuel)%nat.

Lemma framed_refl : framed g g.
Proof. unfold framed. auto. Qed.

(** With enough fuel the function returns: it folds the body over the
    poses of the sweep and then warps the saved needle edge map by the
    best matrix. *)
Lemma pose_search_returns :
  let sweepEnd :=
    sweepState fuel n g garbage rotMat0 bestRotMat0 bestTranslation0
               bestRotation0 bestScale0 initialTranslationStep minRotation
               maxRotation rotationStep minScale maxScale scaleStep in
  findBestTranslationScaleAndRotation fuel g garbage rotMat0 bestRotMat0
    bestTranslation0 bestRotation0 bestScale0 initialTranslationStep
    minRotation maxRotation rotationStep minScale maxScale scaleStep
  = Some (Pose.mkState (Pose.bestDistance sweepEnd)
            (Pose.bestTranslation sweepEnd) (Pose.bestRotation sweepEnd)
            (Pose.bestScale sweepEnd) (Pose.rotMat sweepEnd)
            (Pose.bestRotMat sweepEnd)
            (setNeedleEdges g
               (warpInto (needleEdges g) (needleEdges g)
                         (Pose.bestRotMat sweepEnd))))
  /\ framed g (Pose.globals sweepEnd).
Proof.
  cbn zeta. unfold poseFuel in enough_fuel.
  assert (refineFuel g initialTranslationStep <= fuel)%nat as Hinner by lia.
  unfold findBestTranslationScaleAndRotation, sweepState, sweep.
  rewrite fold_left_flat_map.
  destruct (for_loop_fold_inv
              (fun rotation => rotation <=? maxRotation)
              (fun rotation => rotation + rotationStep)
              (fun st => framed g (Pose.globals st))
              (tryRotation fuel garbage (needleEdges g)
                 (cvPoint (Z.quot (width (needleEdges g)) 2)
                          (Z.quot (height (needleEdges g)) 2))
                 initialTranslationStep minScale maxScale scaleStep)
              (fun st rotation =>
                 fold_left (poseStep fuel g garbage initialTranslationStep)
                   (map (fun scale => (rotation, scale))
                        (visited n (fun scale => Double.le scale maxScale)
                                 (fun scale => Double.add scale scaleStep)
                                 minScale))
                   st)
              (Z.to_nat (maxRotation + 1 - minRotation)) fuel minRotation
              (Pose.mkState Double.numeric_limits_max bestTranslation0
                 bestRotation0 bestScale0 rotMat0 bestRotMat0 g))
    as [Hrun Hframe].
  - apply rotations_stop; [assumption|lia].
  - lia.
  - apply framed_refl.
  - intros st rotation Hst _. unfold tryRotation. rewrite fold_left_map.
    apply (for_loop_fold_inv _ _ (fun st => framed g (Pose.globals st)) _
             (fun st' scale =>
                poseStep fuel g garbage initialTranslationStep st'
                         (rotation, scale)));
      [assumption|lia|assumption|].
    intros st' scale Hst' _.
    apply (poseStep_returns fuel g garbage initialTranslationStep Hinner
                            st' (rotation, scale) Hst').
  - rewrite Hrun. split; [|assumption].
    rewrite (framed_warp g _ _ Hframe). reflexivity.
Qed.

End PoseSearch.

(** In the sweep of the scales 0.5 and 1.0 at rotation 0, on the needle
    [spot] with the stand-in warp, the pose (0 degrees, 1.0)
    wins with the offset (2,0), and the needle ends with its edge pixel. *)
Example pose_sweep_winner :
  let result :=
    @findBestTranslationScaleAndRotation fadingCV 9 spotInTwoDots (cvPoint 0 0)
      (Double.zero, Double.zero) (Double.zero, Double.zero)
      (Some (cvPoint 0 0)) (Some 5) (Some half) 1 0 0 1 half one half in
  option_map Pose.bestDistance result = Some Double.numeric_limits_min
  /\ option_map Pose.bestTranslation result = Some (Some (cvPoint 2 0))
  /\ option_map Pose.bestRotation result = Some (Some 0)
  /\ option_map Pose.bestScale result = Some (Some one)
  /\ option_map (fun st => row (needleEdges (Pose.globals st)) 0 0) result
     = Some 0.
Proof. repeat split; vm_compute; reflexivity. Qed.




(** * Further properties

    ** The metric as a running maximum over the considered points *)

Lemma double_lt_le_trans (a b c : double) :
  Double.lt a b = true -> Double.le b c = true -> Double.lt a c = true.
Proof.
  unfold Double.le, Double.lt, SFleb, SFltb.
  destruct a as [sa|sa| |sa ma ea], b as [sb|sb| |sb mb eb],
           c as [sc|sc| |sc mc ec];
    cbn; try congruence; float_cases.
Qed.

(** Two doubles that are neither zero nor NaN and of which neither is
    less than the other are the same double. *)
Lemma double_lt_total (m a b : double) :
  Double.lt (S754_zero false) m = true ->
  Double.le m a = true -> Double.le m b = true ->
  Double.lt a b = false -> Double.lt b a = false -> a = b.
Proof.
  unfold Double.le, Double.lt, SFleb, SFltb.
  destruct m as [sm|sm| |sm mm em], a as [sa|sa| |sa ma ea],
           b as [sb|sb| |sb mb eb];
    cbn; try congruence; float_cases; subst; reflexivity.
Qed.

Lemma fold_left_filter_map {A B C : Type} (f : A -> C -> A) (p : B -> bool)
    (v : B -> C) (l : list B) (s : A) :
  fold_left (fun s' x => if p x then f s' (v x) else s') l s
  = fold_left f (map v (filter p l)) s.
Proof.
  revert s. induction l as [|x l IH]; intros s; cbn; [reflexivity|].
  destruct (p x); cbn; apply IH.
Qed.

Lemma fold_left_ext_in {A B : Type} (f f' : A -> B -> A) (l : list B) (s : A) :
  (forall s' x, In x l -> f s' x = f' s' x) ->
  fold_left f l s = fold_left f' l s.
Proof.
  revert s. induction l as [|x l IH]; intros s H; cbn; [reflexivity|].
  rewrite (H s x) by (left; reflexivity).
  apply IH. intros s' y Hy. apply H. right. assumption.
Qed.

Lemma filter_nothing {A : Type} (p : A -> bool) (l : list A) :
  (forall x, In x l -> p x = false) -> filter p l = [].
Proof.
  induction l as [|x l IH]; cbn; intros H; [reflexivity|].
  rewrite (H x) by (left; reflexivity).
  apply IH. intros y Hy. apply H. right. assumption.
Qed.

Lemma length_upto (n : Z) : length (upto n) = Z.to_nat n.
Proof. unfold upto. rewrite length_map, length_seq. reflexivity. Qed.

Section Scan.

Variables (imageA : Image Intensity) (imageB : Image Intensity32F).
Variable imageAOffset : CvPoint.

(** In a row that passes the row test, the body of the inner loop
    considers exactly the pixels [isConsidered] names. *)
Lemma scanPixel_consider (iy ix : Z) (st : Scan) :
  (iy + py imageAOffset <? 0) || (iy + py imageAOffset >? height imageB)
  = false ->
  scanPixel imageA imageB (px imageAOffset) iy (iy + py imageAOffset) st ix
  = if isConsidered imageA imageB imageAOffset iy ix
    then consider st (sampleAt imageB imageAOffset (ix, iy))
    else st.
Proof.
  intros Hrow. unfold scanPixel, isConsidered, skipped, consider, sampleAt.
  rewrite Hrow. cbn [fst snd orb].
  destruct (row imageA iy ix =? 0); cbn [negb andb]; [|reflexivity].
  destruct ((ix + px imageAOffset <? 0)
            || (ix + px imageAOffset >? width imageB));
    cbn [negb]; [reflexivity|].
  destruct (Double.gt (row imageB (iy + py imageAOffset)
                           (ix + px imageAOffset)) (maxDistance st));
    reflexivity.
Qed.

Lemma scanRow_fold (st : Scan) (iy : Z) :
  scanRow imageA imageB imageAOffset st iy
  = fold_left consider
      (map (sampleAt imageB imageAOffset)
           (map (fun ix => (ix, iy))
                (filter (isConsidered imageA imageB imageAOffset iy)
                        (upto (width imageA)))))
      st.
Proof.
  unfold scanRow.
  destruct ((iy + py imageAOffset <? 0)
            || (iy + py imageAOffset >? height imageB)) eqn:Hrow.
  - rewrite filter_nothing; [reflexivity|].
    intros ix _. unfold isConsidered, skipped. rewrite Hrow.
    cbn. apply andb_false_r.
  - rewrite map_map, <- fold_left_filter_map.
    apply fold_left_ext_in. intros st' ix _.
    apply scanPixel_consider. assumption.
Qed.

(** The two loops fold [consider] over the samples of the considered
    points. *)
Lemma scanImage_fold :
  scanImage imageA imageB imageAOffset
  = fold_left consider
      (map (sampleAt imageB imageAOffset)
           (consideredPoints imageA imageB imageAOffset))
      (mkScan Double.numeric_limits_min 0).
Proof.
  unfold scanImage, consideredPoints.
  rewrite fold_left_map, fold_left_flat_map.
  apply fold_left_ext_in. intros st iy _.
  rewrite scanRow_fold, fold_left_map. reflexivity.
Qed.

Lemma consideredPoints_In (ix iy : Z) :
  In (ix, iy) (consideredPoints imageA imageB imageAOffset)
  <-> 0 <= ix < width imageA /\ 0 <= iy < height imageA
      /\ row imageA iy ix = 0
      /\ skipped imageB (ix + px imageAOffset) (iy + py imageAOffset) = false.
Proof.
  unfold consideredPoints. rewrite in_flat_map. split.
  - intros (iy' & Hiy & Hin). apply in_map_iff in Hin.
    destruct Hin as (ix' & [= <- <-] & Hix). apply filter_In in Hix.
    destruct Hix as [Hix Hc]. apply In_upto in Hix, Hiy.
    unfold isConsidered in Hc. apply andb_true_iff in Hc.
    destruct Hc as [Hpix Hskip]. apply Z.eqb_eq in Hpix.
    apply negb_true_iff in Hskip. auto.
  - intros (Hix & Hiy & Hpix & Hskip). exists iy. split; [apply In_upto; auto|].
    apply (in_map (fun ix' => (ix', iy))). apply filter_In.
    split; [apply In_upto; auto|].
    unfold isConsidered. rewrite Hpix, Hskip. reflexivity.
Qed.

Lemma consideredPoints_length :
  0 <= width imageA -> 0 <= height imageA ->
  Z.of_nat (length (consideredPoints imageA imageB imageAOffset))
  <= width imageA * height imageA.
Proof.
  intros Hw Hh. unfold consideredPoints.
  assert (forall rows : list Z,
             Z.of_nat
               (length
                  (flat_map
                     (fun iy =>
                        map (fun ix => (ix, iy))
                            (filter (isConsidered imageA imageB imageAOffset iy)
                                    (upto (width imageA))))
                     rows))
             <= width imageA * Z.of_nat (length rows)) as Hrows.
  { induction rows as [|iy rows IH]; cbn [flat_map length]; [lia|].
    rewrite length_app, length_map.
    pose proof (filter_length_le (isConsidered imageA imageB imageAOffset iy)
                                 (upto (width imageA))) as Hf.
    rewrite length_upto in Hf. lia. }
  specialize (Hrows (upto (height imageA))).
  rewrite length_upto in Hrows. lia.
Qed.

End Scan.

(** ** Folding [consider] over a list of samples *)

Lemma consider_count (l : list double) (st : Scan) :
  0 <= pointsConsidered st < ULONG_MODULUS ->
  pointsConsidered (fold_left consider l st)
  = (pointsConsidered st + Z.of_nat (length l)) mod ULONG_MODULUS.
Proof.
  revert st. induction l as [|v l IH]; intros st Hst; cbn [fold_left length].
  - rewrite Z.add_0_r, Z.mod_small; auto.
  - rewrite IH.
    + cbn [consider pointsConsidered]. rewrite Zplus_mod_idemp_l.
      f_equal. lia.
    + cbn. apply Z.mod_pos_bound. reflexivity.
Qed.

(** Whatever is above the final maximum was above the initial one. *)
Lemma consider_grows (l : list double) (st : Scan) (u : double) :
  Double.lt (maxDistance (fold_left consider l st)) u = true ->
  Double.lt (maxDistance st) u = true.
Proof.
  revert st. induction l as [|v l IH]; intros st Hu; cbn in Hu; [assumption|].
  apply IH in Hu. cbn in Hu. unfold Double.gt in Hu.
  destruct (SFltb (maxDistance st) v) eqn:Hv; [|assumption].
  eapply double_lt_trans; eassumption.
Qed.

Lemma consider_bounds (l : list double) (st : Scan) (v : double) :
  In v l -> Double.lt (maxDistance (fold_left consider l st)) v = false.
Proof.
  revert st. induction l as [|a l IH]; intros st Hin; [destruct Hin|].
  destruct Hin as [<-|Hin]; cbn [fold_left]; [|auto].
  destruct (Double.lt (maxDistance (fold_left consider l (consider st a))) a)
    eqn:Ha; [|reflexivity].
  apply consider_grows in Ha. cbn in Ha. unfold Double.gt in Ha.
  destruct (SFltb (maxDistance st) a) eqn:Hst.
  - rewrite double_lt_irrefl in Ha. discriminate.
  - unfold Double.lt in Ha. congruence.
Qed.

Lemma consider_attains (l : list double) (st : Scan) :
  maxDistance (fold_left consider l st) = maxDistance st
  \/ In (maxDistance (fold_left consider l st)) l.
Proof.
  revert st. induction l as [|a l IH]; intros st; cbn [fold_left];
    [left; reflexivity|].
  destruct (IH (consider st a)) as [Hsame|Hin]; [|right; right; assumption].
  rewrite Hsame. cbn.
  destruct (Double.gt a (maxDistance st)); [right; left|left]; reflexivity.
Qed.

(** C3 (as the code has it).  An edge set whose every edge pixel maps out
    of the bounds of the field is not always given the sentinel.  The
    bounds tests let the column [width] and the row [height] of the field
    through (the defect of C1), so an edge pixel mapped there is
    considered: for an edge map of fewer than 2^32 pixels the counter then
    ends above zero, and the result is the running maximum, not below the
    cell read one past the field.  For the one-pixel needle [dot] on the
    1x1 field [sevens] at the offset (1,0) every edge pixel maps out of
    bounds, yet one point is considered and the result is 7, not 9999.
    An edge set without edge pixels is given the sentinel. *)
Theorem out_of_bounds_edge_set_misses_the_sentinel :
  (forall (imageA : Image Intensity) (imageB : Image Intensity32F)
          (imageAOffset : CvPoint) (ix iy : Z),
      0 <= width imageA -> 0 <= height imageA ->
      width imageA * height imageA < ULONG_MODULUS ->
      0 <= ix < width imageA -> 0 <= iy < height imageA ->
      row imageA iy ix = 0 ->
      0 <= ix + px imageAOffset <= width imageB ->
      0 <= iy + py imageAOffset <= height imageB ->
      ix + px imageAOffset = width imageB
      \/ iy + py imageAOffset = height imageB ->
      outsideField imageB (ix + px imageAOffset) (iy + py imageAOffset)
      /\ 0 < pointsConsidered (scanImage imageA imageB imageAOffset)
      /\ findHausdorffDistance imageA imageB imageAOffset
         = maxDistance (scanImage imageA imageB imageAOffset)
      /\ Double.lt (findHausdorffDistance imageA imageB imageAOffset)
                   (row imageB (iy + py imageAOffset)
                        (ix + px imageAOffset)) = false)
  /\ (forall ix iy,
         0 <= ix < width dot -> 0 <= iy < height dot -> row dot iy ix = 0 ->
         outsideField sevens (ix + px (cvPoint 1 0)) (iy + py (cvPoint 1 0)))
  /\ pointsConsidered (scanImage dot sevens (cvPoint 1 0)) = 1
  /\ findHausdorffDistance dot sevens (cvPoint 1 0) = Double.of_Z 7
  /\ Double.of_Z 7 <> MAX_HAUSDORFF_DISTANCE
  /\ MAX_HAUSDORFF_DISTANCE = Double.of_Z 9999
  /\ (forall (imageA : Image Intensity) (imageB : Image Intensity32F)
             (imageAOffset : CvPoint),
         (forall ix iy,
             0 <= ix < width imageA -> 0 <= iy < height imageA ->
             row imageA iy ix <> 0) ->
         findHausdorffDistance imageA imageB imageAOffset
         = MAX_HAUSDORFF_DISTANCE).
Proof.
  split; [|split; [|split; [|split; [|split; [|split]]]]].
  - intros imageA imageB imageAOffset ix iy Hw Hh Hsize Hix Hiy Hpix Hx Hy
           Hedge.
    assert (In (ix, iy) (consideredPoints imageA imageB imageAOffset)) as Hin.
    { apply consideredPoints_In. repeat split; try lia.
      unfold skipped. rewrite !Bool.orb_false_iff, !Z.gtb_ltb, !Z.ltb_ge.
      lia. }
    pose proof (consideredPoints_length imageA imageB imageAOffset Hw Hh)
      as Hlen.
    assert (pointsConsidered (scanImage imageA imageB imageAOffset)
            = Z.of_nat (length (consideredPoints imageA imageB imageAOffset)))
      as Hcount.
    { rewrite scanImage_fold.
      rewrite consider_count by (cbn; unfold ULONG_MODULUS; lia).
      cbn [pointsConsidered]. rewrite length_map. apply Z.mod_small. lia. }
    assert (0 < pointsConsidered (scanImage imageA imageB imageAOffset))
      as Hpos.
    { rewrite Hcount.
      destruct (consideredPoints imageA imageB imageAOffset);
        [destruct Hin|cbn [length]; lia]. }
    assert (findHausdorffDistance imageA imageB imageAOffset
            = maxDistance (scanImage imageA imageB imageAOffset)) as Hd.
    { unfold findHausdorffDistance.
      destruct (pointsConsidered (scanImage imageA imageB imageAOffset) =? 0)
        eqn:Hz; [apply Z.eqb_eq in Hz; lia|reflexivity]. }
    split; [unfold outsideField; lia|]. split; [exact Hpos|].
    split; [exact Hd|]. rewrite Hd, scanImage_fold.
    apply (consider_bounds _ _ (sampleAt imageB imageAOffset (ix, iy))).
    apply in_map. exact Hin.
  - intros ix iy Hix Hiy _. unfold outsideField. cbn in *. lia.
  - vm_compute. reflexivity.
  - vm_compute. reflexivity.
  - vm_compute. discriminate.
  - reflexivity.
  - intros imageA imageB imageAOffset Hblank.
    unfold findHausdorffDistance.
    rewrite scanImage_nothing_considered; [reflexivity|].
    intros ix iy Hix Hiy Hpix. destruct (Hblank ix iy Hix Hiy Hpix).
Qed.

Lemma consider_floor (m : double) (l : list double) (st : Scan) :
  Double.le m (maxDistance st) = true ->
  Double.le m (maxDistance (fold_left consider l st)) = true.
Proof.
  revert st. induction l as [|v l IH]; intros st Hst; cbn [fold_left];
    [assumption|].
  apply IH. cbn. unfold Double.gt.
  destruct (SFltb (maxDistance st) v) eqn:Hv; [|assumption].
  apply double_lt_le. eapply double_le_lt_trans; eassumption.
Qed.

Lemma findHausdorffDistance_above_min (imageA : Image Intensity)
    (imageB : Image Intensity32F) (imageAOffset : CvPoint) :
  Double.le Double.numeric_limits_min
            (findHausdorffDistance imageA imageB imageAOffset) = true.
Proof.
  unfold findHausdorffDistance.
  destruct (pointsConsidered (scanImage imageA imageB imageAOffset) =? 0);
    [vm_compute; reflexivity|].
  rewrite scanImage_fold. apply consider_floor. vm_compute. reflexivity.
Qed.

(** X1.  Whatever the edge map, the field and the offset -- the field may
    hold NaN, infinite or negative cells --, [findHausdorffDistance]
    returns a double that is not NaN, is greater than zero and is at least
    2^-1022: a NaN sample never replaces the running maximum, and the
    running maximum starts at the smallest positive normal double. *)
Theorem findHausdorffDistance_is_positive :
  forall (imageA : Image Intensity) (imageB : Image Intensity32F)
         (imageAOffset : CvPoint),
    Double.le Double.numeric_limits_min
              (findHausdorffDistance imageA imageB imageAOffset) = true
    /\ Double.lt Double.zero
                 (findHausdorffDistance imageA imageB imageAOffset) = true
    /\ findHausdorffDistance imageA imageB imageAOffset <> S754_nan.
Proof.
  intros imageA imageB imageAOffset.
  pose proof (findHausdorffDistance_above_min imageA imageB imageAOffset)
    as Hmin.
  split; [assumption|]. split.
  - apply (double_lt_le_trans _ Double.numeric_limits_min);
      [vm_compute; reflexivity|assumption].
  - intros Hnan. rewrite Hnan in Hmin. vm_compute in Hmin. discriminate.
Qed.

(** X2.  The counter of [findHausdorffDistance] ends as the number of
    edge pixels of the edge map whose image passes the bounds tests,
    modulo 2^32; the considered pixels are the edge pixels [(ix, iy)] of
    the edge map with [0 <= ix + dx <= width] and [0 <= iy + dy <= height]
    of the field.  So the sentinel is returned when that number is a
    multiple of 2^32, and the running maximum otherwise. *)
Theorem counter_counts_considered_points :
  forall (imageA : Image Intensity) (imageB : Image Intensity32F)
         (imageAOffset : CvPoint),
    let n :=
      Z.of_nat (length (consideredPoints imageA imageB imageAOffset)) in
    pointsConsidered (scanImage imageA imageB imageAOffset)
    = n mod ULONG_MODULUS
    /\ (forall ix iy,
           In (ix, iy) (consideredPoints imageA imageB imageAOffset)
           <-> 0 <= ix < width imageA /\ 0 <= iy < height imageA
               /\ row imageA iy ix = 0
               /\ 0 <= ix + px imageAOffset <= width imageB
               /\ 0 <= iy + py imageAOffset <= height imageB)
    /\ findHausdorffDistance imageA imageB imageAOffset
       = if n mod ULONG_MODULUS =? 0
         then MAX_HAUSDORFF_DISTANCE
         else maxDistance (scanImage imageA imageB imageAOffset).
Proof.
  intros imageA imageB imageAOffset n.
  assert (pointsConsidered (scanImage imageA imageB imageAOffset)
          = n mod ULONG_MODULUS) as Hcount.
  { rewrite scanImage_fold, consider_count by (cbn; unfold ULONG_MODULUS; lia).
    cbn [pointsConsidered]. rewrite length_map. reflexivity. }
  split; [assumption|]. split.
  - intros ix iy. rewrite consideredPoints_In.
    assert (skipped imageB (ix + px imageAOffset) (iy + py imageAOffset)
            = false
            <-> 0 <= ix + px imageAOffset <= width imageB
                /\ 0 <= iy + py imageAOffset <= height imageB) as Hskip.
    { pose proof (skipped_spec imageB (ix + px imageAOffset)
                               (iy + py imageAOffset)) as Hs.
      destruct (skipped imageB (ix + px imageAOffset)
                        (iy + py imageAOffset)).
      - split; [discriminate|]. intros Hin.
        assert (true = true) as Ht by reflexivity. apply Hs in Ht. lia.
      - split; [|reflexivity]. intros _.
        assert (~ (ix + px imageAOffset < 0
                   \/ width imageB < ix + px imageAOffset
                   \/ iy + py imageAOffset < 0
                   \/ height imageB < iy + py imageAOffset)) as Hn
          by (intros Hc; apply Hs in Hc; discriminate).
        lia. }
    rewrite Hskip. tauto.
  - unfold findHausdorffDistance. rewrite Hcount. reflexivity.
Qed.

(** X3.  For an edge map of fewer than 2^32 pixels with at least one
    considered pixel, [findHausdorffDistance] returns the maximum of the
    samples of the considered pixels and of 2^-1022: no sample of a
    considered pixel is greater than the result, and the result is
    2^-1022 or the sample of a considered pixel. *)
Theorem metric_is_maximum_of_considered_samples :
  forall (imageA : Image Intensity) (imageB : Image Intensity32F)
         (imageAOffset : CvPoint),
    0 <= width imageA -> 0 <= height imageA ->
    width imageA * height imageA < ULONG_MODULUS ->
    (exists ix iy,
        In (ix, iy) (consideredPoints imageA imageB imageAOffset)) ->
    let d := findHausdorffDistance imageA imageB imageAOffset in
    (forall ix iy,
        0 <= ix < width imageA -> 0 <= iy < height imageA ->
        row imageA iy ix = 0 ->
        skipped imageB (ix + px imageAOffset) (iy + py imageAOffset) = false ->
        Double.lt d (row imageB (iy + py imageAOffset)
                         (ix + px imageAOffset)) = false)
    /\ (d = Double.numeric_limits_min
        \/ exists ix iy,
             0 <= ix < width imageA /\ 0 <= iy < height imageA
             /\ row imageA iy ix = 0
             /\ skipped imageB (ix + px imageAOffset) (iy + py imageAOffset)
                = false
             /\ d = row imageB (iy + py imageAOffset) (ix + px imageAOffset)).
Proof.
  intros imageA imageB imageAOffset Hw Hh Hsize (ix0 & iy0 & Hin0) d.
  pose proof (consideredPoints_length imageA imageB imageAOffset Hw Hh) as Hlen.
  assert (d = maxDistance (scanImage imageA imageB imageAOffset)) as Hd.
  { unfold d, findHausdorffDistance.
    rewrite scanImage_fold at 1.
    rewrite consider_count by (cbn; unfold ULONG_MODULUS; lia).
    cbn [pointsConsidered]. rewrite length_map, Z.mod_small.
    - destruct (consideredPoints imageA imageB imageAOffset); [destruct Hin0|].
      reflexivity.
    - lia. }
  rewrite scanImage_fold in Hd. split.
  - intros ix iy Hix Hiy Hpix Hskip. rewrite Hd.
    apply (consider_bounds _ _ (sampleAt imageB imageAOffset (ix, iy))).
    apply in_map. apply consideredPoints_In. auto.
  - destruct (consider_attains
                (map (sampleAt imageB imageAOffset)
                     (consideredPoints imageA imageB imageAOffset))
                (mkScan Double.numeric_limits_min 0)) as [Hsame|Hin].
    + left. rewrite Hd. assumption.
    + right. rewrite <- Hd in Hin. apply in_map_iff in Hin.
      destruct Hin as ([ix iy] & Hsample & Hin).
      apply consideredPoints_In in Hin.
      destruct Hin as (Hix & Hiy & Hpix & Hskip).
      exists ix, iy. unfold sampleAt in Hsample. cbn in Hsample. auto.
Qed.

Lemma metric_is_maximum_witness :
  let d := findHausdorffDistance dot fives (cvPoint 3 4) in
  (forall ix iy,
      0 <= ix < width dot -> 0 <= iy < height dot ->
      row dot iy ix = 0 ->
      skipped fives (ix + 3) (iy + 4) = false ->
      Double.lt d (row fives (iy + 4) (ix + 3)) = false)
  /\ (d = Double.numeric_limits_min
      \/ exists ix iy,
           0 <= ix < width dot /\ 0 <= iy < height dot
           /\ row dot iy ix = 0
           /\ skipped fives (ix + 3) (iy + 4) = false
           /\ d = row fives (iy + 4) (ix + 3)).
Proof.
  apply (metric_is_maximum_of_considered_samples dot fives (cvPoint 3 4)).
  - cbn. lia.
  - cbn. lia.
  - vm_compute. reflexivity.
  - exists 0, 0. vm_compute. left. reflexivity.
Defined.

Lemma std_max_comm (a b : double) :
  Double.le Double.numeric_limits_min a = true ->
  Double.le Double.numeric_limits_min b = true ->
  Double.std_max a b = Double.std_max b a.
Proof.
  intros Ha Hb. unfold Double.std_max.
  destruct (Double.lt a b) eqn:Hab.
  - rewrite (double_lt_asym _ _ Hab). reflexivity.
  - destruct (Double.lt b a) eqn:Hba; [reflexivity|].
    apply (double_lt_total Double.numeric_limits_min); auto.
Qed.

(** X4.  Exchanging the roles of needle and haystack and negating the
    offset leaves the objective unchanged, as the same double. *)
Theorem objective_is_symmetric :
  forall (g : Globals) (x y : Z),
    objective (swapRoles g) (- x) (- y) = objective g x y.
Proof.
  intros g x y. unfold objective, symmetricDistance, swapRoles.
  cbn [needleEdges needleDistanceTransform haystackEdges
       haystackDistanceTransform px py].
  rewrite !Z.opp_involutive.
  apply std_max_comm; apply findHausdorffDistance_above_min.
Qed.

(** ** More on findBestTranslationRecursive *)

Lemma maxOffset_absolute (g : Globals) :
  maxOffsetX g (absoluteMaxX g) = absoluteMaxX g
  /\ maxOffsetY g (absoluteMaxY g) = absoluteMaxY g.
Proof.
  unfold maxOffsetX, maxOffsetY, absoluteMaxX, absoluteMaxY.
  split.
  - destruct (width (haystackDistanceTransform g) - width (needleEdges g)
              =? -1); reflexivity.
  - destruct (height (haystackDistanceTransform g) - height (needleEdges g)
              =? -1); reflexivity.
Qed.

(** A search over an empty effective window returns the initial best. *)
Lemma searchLoops_empty (g : Globals) (step minX minY maxX maxY : Z)
    (fuel : nat) :
  0 < step ->
  maxOffsetX g maxX <= minX \/ maxOffsetY g maxY <= minY ->
  (searchFuel g minX minY maxX maxY <= fuel)%nat ->
  searchLoops fuel g step minX minY maxX maxY = Some initialBest.
Proof.
  intros Hstep Hempty Hfuel.
  destruct (search_result g step minX minY maxX maxY fuel Hstep Hfuel)
    as (b & Hrun & [[-> _]|(x & y & Hx & Hy & _)]); [assumption|].
  destruct Hempty as [He|He].
  - destruct (empty_grid _ _ _ _ Hstep He Hx).
  - destruct (empty_grid _ _ _ _ Hstep He Hy).
Qed.

Lemma for_loop_done {I S : Type} (fuel : nat) (cond : I -> bool)
    (next : I -> I) (i : I) (body : S -> I -> option S) (s : S) :
  cond i = false -> for_loop fuel cond next i body s = Some s.
Proof. intros Hc. destruct fuel; cbn; rewrite Hc; reflexivity. Qed.

Lemma refineLoop_unchanged (g : Globals) (garbage : CvPoint) (fuel : nat) :
  absoluteMaxX g <= 0 \/ absoluteMaxY g <= 0 ->
  (Nat.max (Z.to_nat (absoluteMaxX g)) (Z.to_nat (absoluteMaxY g)) <= fuel)%nat ->
  forall (n : nat) (step : Z),
    (Z.to_nat step <= n)%nat ->
    for_loop n (fun step => step >? 0) (fun step => Z.quot step 2) step
             (refineRound fuel g) (refineInit g garbage)
    = Some (refineInit g garbage).
Proof.
  intros Hempty Hfuel. induction n as [|n IH]; intros step Hn.
  - apply for_loop_done. rewrite Z.gtb_ltb. apply Z.ltb_ge. lia.
  - destruct (step >? 0) eqn:Hc; [|apply for_loop_done; assumption].
    cbn. rewrite Hc. rewrite Z.gtb_ltb in Hc. apply Z.ltb_lt in Hc.
    unfold refineRound, findBestTranslation.
    cbn [refineInit Refine.minX Refine.minY Refine.maxX Refine.maxY].
    rewrite searchLoops_empty.
    + cbn. apply IH.
      destruct (Z.eq_dec step 1) as [->|Hne]; [cbn; lia|].
      pose proof (halve_positive step ltac:(lia)). lia.
    + assumption.
    + destruct (maxOffset_absolute g) as [-> ->]. lia.
    + unfold searchFuel. destruct (maxOffset_absolute g) as [-> ->]. lia.
Qed.

(** X5.  When no round can improve -- the initial step is not positive,
    so that no round runs, or the haystack is not larger than the needle
    in one direction, so that every round searches an empty range --,
    [findBestTranslationRecursive] returns its never assigned
    [bestTranslation] together with the largest double. *)
Theorem hierarchical_search_without_candidates :
  forall (g : Globals) (garbage : CvPoint) (initialStep : Z) (fuel : nat),
    initialStep <= 0
    \/ ((absoluteMaxX g <= 0 \/ absoluteMaxY g <= 0)
        /\ (refineFuel g initialStep <= fuel)%nat) ->
    findBestTranslationRecursive fuel g garbage initialStep
    = Some (garbage, Double.numeric_limits_max).
Proof.
  intros g garbage initialStep fuel [Hstep|[Hempty Hfuel]];
    unfold findBestTranslationRecursive, refineLoop.
  - rewrite for_loop_done; [reflexivity|].
    rewrite Z.gtb_ltb. apply Z.ltb_ge. assumption.
  - unfold refineFuel in Hfuel.
    rewrite (refineLoop_unchanged g garbage fuel Hempty ltac:(lia) fuel
               initialStep ltac:(lia)).
    reflexivity.
Qed.

Lemma hierarchical_search_without_candidates_witness :
  findBestTranslationRecursive 4 (swapRoles spotInTwoDots) (cvPoint 7 7) 4
  = Some (cvPoint 7 7, Double.numeric_limits_max).
Proof.
  apply (hierarchical_search_without_candidates (swapRoles spotInTwoDots)
           (cvPoint 7 7) 4 4).
  right. split; [left; vm_compute; discriminate|vm_compute; lia].
Defined.

(** One round with a positive step keeps [bestIsSound]. *)
Lemma refineRound_sound (g : Globals) (garbage : CvPoint) (fuel : nat)
    (st st' : Refine.State) (step : Z) :
  absoluteMaxX g <= INT_MAX -> absoluteMaxY g <= INT_MAX ->
  0 < step ->
  (Nat.max (Z.to_nat (absoluteMaxX g)) (Z.to_nat (absoluteMaxY g)) <= fuel)%nat ->
  windowInRange g st /\ bestIsSound g garbage st ->
  refineRound fuel g st step = Some st' ->
  windowInRange g st' /\ bestIsSound g garbage st'.
Proof.
  intros HintX HintY Hstep Hfuel [Hw Hbest] Hround.
  split; [eapply refineRound_window; eassumption|].
  destruct (search_result g step (Refine.minX st) (Refine.minY st)
              (Refine.maxX st) (Refine.maxY st) fuel Hstep
              (round_fuel g st fuel Hw Hfuel))
    as (b & Hrun & Hcases).
  unfold refineRound, findBestTranslation in Hround. rewrite Hrun in Hround.
  injection Hround as <-. unfold refineUpdate.
  destruct (Double.lt (bestDistance b) (Refine.bestDistance st)) eqn:Hlt;
    [|assumption].
  destruct Hcases as [[-> _]|(x & y & Hx & Hy & -> & Hfin & _)].
  - cbn in Hlt. destruct Hbest as [[Hd _]|(x & y & _ & _ & Hd & Hfin)].
    + rewrite Hd, double_lt_irrefl in Hlt. discriminate.
    + rewrite Hd in Hlt. rewrite (double_lt_asym _ _ Hfin) in Hlt.
      discriminate.
  - right. exists x, y. cbn.
    pose proof (grid_in_range g st step x y Hstep Hw Hx Hy) as Hin.
    split; [assumption|].
    unfold inAbsoluteRange in Hin.
    rewrite !unsigned_round_trip by (unfold INT_MIN, INT_MAX in *; lia).
    auto.
Qed.

(** With enough fuel the loop of [findBestTranslationRecursive] returns,
    and its final state has a window in the absolute range and a sound
    running best. *)
Lemma refineLoop_sound (g : Globals) (garbage : CvPoint) (initialStep : Z)
    (fuel : nat) :
  absoluteMaxX g <= INT_MAX -> absoluteMaxY g <= INT_MAX ->
  (refineFuel g initialStep <= fuel)%nat ->
  exists st,
    refineLoop fuel g initialStep (refineInit g garbage) = Some st
    /\ windowInRange g st /\ bestIsSound g garbage st.
Proof.
  intros HintX HintY Hfuel.
  unfold refineFuel in Hfuel.
  destruct (refineLoop_returns fuel g ltac:(lia) fuel initialStep
              (refineInit g garbage) ltac:(lia) (refineInit_window g garbage))
    as (st & Hrun).
  destruct (for_loop_invariant (fun step => step >? 0)
              (fun step => Z.quot step 2)
              (fun st => windowInRange g st /\ bestIsSound g garbage st)
              (refineRound fuel g)) with (fuel := fuel) (i := initialStep)
              (s := refineInit g garbage) as [_ Hfinal].
  - intros s step s' Hs Hc Hr. rewrite Z.gtb_ltb in Hc. apply Z.ltb_lt in Hc.
    eapply refineRound_sound; try eassumption. lia.
  - split; [apply refineInit_window|]. left. split; reflexivity.
  - exists st. split; [exact Hrun|]. apply Hfinal. exact Hrun.
Qed.

(** X6.  With enough fuel [findBestTranslationRecursive] returns, and
    what it returns is either the never assigned [bestTranslation] with
    the largest double (no round improved), or an offset of the absolute
    range [0, W - w) x [0, H - h) together with the objective at that very
    offset, which is below the largest double. *)
Theorem hierarchical_result_is_an_evaluated_offset :
  forall (g : Globals) (garbage : CvPoint) (initialStep : Z) (fuel : nat),
    absoluteMaxX g <= INT_MAX -> absoluteMaxY g <= INT_MAX ->
    (refineFuel g initialStep <= fuel)%nat ->
    exists point d,
      findBestTranslationRecursive fuel g garbage initialStep
      = Some (point, d)
      /\ ((point = garbage /\ d = Double.numeric_limits_max)
          \/ (inAbsoluteRange g (px point) (py point)
              /\ d = objective g (px point) (py point)
              /\ Double.lt d Double.numeric_limits_max = true)).
Proof.
  intros g garbage initialStep fuel HintX HintY Hfuel.
  destruct (refineLoop_sound g garbage initialStep fuel HintX HintY Hfuel)
    as (st & Hrun & _ & Hsound).
  unfold findBestTranslationRecursive. rewrite Hrun.
  exists (Refine.bestTranslation st), (Refine.bestDistance st).
  split; [reflexivity|].
  destruct Hsound as [[Hd Ht]|(x & y & Hin & Ht & Hd & Hfin)];
    [left; auto|].
  right. rewrite Ht, Hd. cbn. auto.
Qed.

Lemma hierarchical_result_is_an_evaluated_offset_witness :
  exists point d,
    findBestTranslationRecursive 9 spotInTwoDots (cvPoint 7 7) 4
    = Some (point, d)
    /\ ((point = cvPoint 7 7 /\ d = Double.numeric_limits_max)
        \/ (inAbsoluteRange spotInTwoDots (px point) (py point)
            /\ d = objective spotInTwoDots (px point) (py point)
            /\ Double.lt d Double.numeric_limits_max = true)).
Proof.
  apply (hierarchical_result_is_an_evaluated_offset spotInTwoDots
           (cvPoint 7 7) 4 9).
  - vm_compute. discriminate.
  - vm_compute. discriminate.
  - vm_compute. lia.
Defined.

Lemma halvings_one : halvings 1 = [1].
Proof. reflexivity. Qed.

Lemma halvings_step (step : Z) :
  2 <= step -> halvings step = step :: halvings (Z.quot step 2).
Proof.
  intros Hstep. unfold halvings.
  assert (Z.quot step 2 = Z.shiftr step 1) as Hq.
  { rewrite Z.quot_div_nonneg, Z.shiftr_div_pow2 by lia. reflexivity. }
  assert (Z.log2 (Z.quot step 2) = Z.log2 step - 1) as Hlog.
  { rewrite Hq, Z.log2_shiftr by lia.
    pose proof (Z.log2_pos step ltac:(lia)). lia. }
  pose proof (Z.log2_pos step ltac:(lia)) as Hpos.
  rewrite Hlog.
  replace (Datatypes.S (Z.to_nat (Z.log2 step)))
    with (Datatypes.S (Datatypes.S (Z.to_nat (Z.log2 step - 1)))) by lia.
  rewrite <- cons_seq. cbn [map]. rewrite Z.shiftr_0_r. f_equal.
  rewrite <- seq_shift, map_map. apply map_ext. intros k.
  rewrite Hq, Z.shiftr_shiftr by lia. f_equal. lia.
Qed.

Lemma rounds_halve (g : Globals) (fuel : nat) :
  (Nat.max (Z.to_nat (absoluteMaxX g)) (Z.to_nat (absoluteMaxY g)) <= fuel)%nat ->
  forall (n : nat) (step : Z) (st : Refine.State),
    0 < step -> (Z.to_nat step <= n)%nat -> windowInRange g st ->
    map fst (for_rounds n (fun step => step >? 0) (fun step => Z.quot step 2)
                        step (refineRound fuel g) st)
    = halvings step.
Proof.
  intros Hfuel. induction n as [|n IH]; intros step st Hstep Hn Hw; [lia|].
  cbn [for_rounds].
  assert ((step >? 0) = true) as Hc by (apply Z.gtb_lt; lia).
  rewrite Hc.
  destruct (refineRound_returns fuel g st step Hstep Hfuel Hw)
    as (st' & -> & Hw').
  cbn [map fst]. destruct (Z.eq_dec step 1) as [->|Hne].
  - change (Z.quot 1 2) with 0. rewrite halvings_one. f_equal.
    destruct n; reflexivity.
  - rewrite halvings_step by lia. f_equal.
    pose proof (halve_positive step ltac:(lia)).
    apply IH; [lia|lia|assumption].
Qed.

(** X7.  For a positive initial step and enough fuel, the rounds of
    [findBestTranslationRecursive] run with the steps [initialStep],
    [initialStep / 2], [initialStep / 4], ..., 1: there are
    [log2 initialStep + 1] rounds, and the last one has step 1. *)
Theorem hierarchical_rounds_halve_the_step :
  forall (g : Globals) (garbage : CvPoint) (initialStep : Z) (fuel : nat),
    0 < initialStep ->
    (refineFuel g initialStep <= fuel)%nat ->
    map fst (refineRounds fuel g garbage initialStep)
    = map (fun k => initialStep / 2 ^ Z.of_nat k)
          (seq 0 (Datatypes.S (Z.to_nat (Z.log2 initialStep))))
    /\ length (refineRounds fuel g garbage initialStep)
       = Datatypes.S (Z.to_nat (Z.log2 initialStep))
    /\ last (map fst (refineRounds fuel g garbage initialStep)) 0 = 1.
Proof.
  intros g garbage initialStep fuel Hstep Hfuel. unfold refineFuel in Hfuel.
  assert (map fst (refineRounds fuel g garbage initialStep)
          = halvings initialStep) as Hrounds.
  { unfold refineRounds.
    apply rounds_halve; [lia|assumption|lia|apply refineInit_window]. }
  assert (halvings initialStep
          = map (fun k => initialStep / 2 ^ Z.of_nat k)
                (seq 0 (Datatypes.S (Z.to_nat (Z.log2 initialStep)))))
    as Hdiv.
  { unfold halvings. apply map_ext. intros k.
    apply Z.shiftr_div_pow2. lia. }
  split; [congruence|]. split.
  - rewrite <- (length_map fst), Hrounds. unfold halvings.
    rewrite length_map, length_seq. reflexivity.
  - rewrite Hrounds. unfold halvings.
    rewrite seq_S, map_app. cbn [map Nat.add]. rewrite last_last.
    pose proof (Z.log2_nonneg initialStep).
    rewrite Z2Nat.id by assumption.
    rewrite Z.shiftr_div_pow2 by assumption.
    pose proof (Z.log2_spec initialStep Hstep) as [Hlo Hhi].
    rewrite Z.pow_succ_r in Hhi by assumption.
    symmetry.
    apply Z.div_unique with (r := initialStep - 2 ^ Z.log2 initialStep); lia.
Qed.

Lemma hierarchical_rounds_halve_the_step_witness :
  map fst (refineRounds 32 spotInTwoDots (cvPoint 0 0) 32)
  = map (fun k => 32 / 2 ^ Z.of_nat k)
        (seq 0 (Datatypes.S (Z.to_nat (Z.log2 32))))
  /\ length (refineRounds 32 spotInTwoDots (cvPoint 0 0) 32)
     = Datatypes.S (Z.to_nat (Z.log2 32))
  /\ last (map fst (refineRounds 32 spotInTwoDots (cvPoint 0 0) 32)) 0 = 1.
Proof.
  apply (hierarchical_rounds_halve_the_step spotInTwoDots (cvPoint 0 0) 32 32).
  - lia.
  - vm_compute. lia.
Defined.

(** X8.  With the initial step 1 the hierarchical search is the
    exhaustive search: one call of [findBestTranslation] with step 1 over
    the whole absolute range, whose result is returned when its distance
    is below the largest double. *)
Theorem hierarchical_search_with_step_one_is_exhaustive :
  forall (g : Globals) (garbage : CvPoint) (fuel : nat),
    (refineFuel g 1 <= fuel)%nat ->
    exists point d,
      findBestTranslation fuel g 1 0 0 (absoluteMaxX g) (absoluteMaxY g)
      = Some (point, d)
      /\ findBestTranslationRecursive fuel g garbage 1
         = Some (if Double.lt d Double.numeric_limits_max
                 then (point, d)
                 else (garbage, Double.numeric_limits_max)).
Proof.
  intros g garbage fuel Hfuel. unfold refineFuel in Hfuel.
  destruct (search_result g 1 0 0 (absoluteMaxX g) (absoluteMaxY g) fuel
              ltac:(lia)) as (b & Hrun & _).
  { unfold searchFuel. destruct (maxOffset_absolute g) as [-> ->]. lia. }
  assert (findBestTranslation fuel g 1 0 0 (absoluteMaxX g) (absoluteMaxY g)
          = Some (cvPoint (unsigned_to_int (bestX b))
                          (unsigned_to_int (bestY b)), bestDistance b))
    as Hsearch by (unfold findBestTranslation; rewrite Hrun; reflexivity).
  exists (cvPoint (unsigned_to_int (bestX b)) (unsigned_to_int (bestY b))),
         (bestDistance b).
  split; [assumption|].
  unfold findBestTranslationRecursive, refineLoop.
  destruct fuel as [|fuel']; [cbn in Hfuel; lia|].
  cbn [for_loop]. change (1 >? 0) with true. cbv iota.
  unfold refineRound at 1.
  cbn [refineInit Refine.minX Refine.minY Refine.maxX Refine.maxY].
  rewrite Hsearch. change (Z.quot 1 2) with 0.
  rewrite for_loop_done by reflexivity.
  unfold refineUpdate, refineInit. cbn [Refine.bestDistance].
  destruct (Double.lt (bestDistance b) Double.numeric_limits_max); reflexivity.
Qed.

Lemma hierarchical_search_with_step_one_witness :
  exists point d,
    findBestTranslation 9 spotInTwoDots 1 0 0
      (absoluteMaxX spotInTwoDots) (absoluteMaxY spotInTwoDots)
    = Some (point, d)
    /\ findBestTranslationRecursive 9 spotInTwoDots (cvPoint 7 7) 1
       = Some (if Double.lt d Double.numeric_limits_max
               then (point, d)
               else (cvPoint 7 7, Double.numeric_limits_max)).
Proof.
  apply (hierarchical_search_with_step_one_is_exhaustive spotInTwoDots
           (cvPoint 7 7) 9).
  vm_compute. lia.
Defined.

(** The running best never gets worse, and no round finds a distance
    below the final one. *)
Lemma refine_never_worse (g : Globals) (fuel : nat) :
  forall (n : nat) (step : Z) (st final : Refine.State),
    for_loop n (fun step => step >? 0) (fun step => Z.quot step 2) step
             (refineRound fuel g) st = Some final ->
    (forall v,
        Double.lt v (Refine.bestDistance final) = true ->
        Double.lt v (Refine.bestDistance st) = true)
    /\ (forall s st_k point d,
           In (s, st_k)
              (for_rounds n (fun step => step >? 0)
                          (fun step => Z.quot step 2) step
                          (refineRound fuel g) st) ->
           findBestTranslation fuel g s (Refine.minX st_k) (Refine.minY st_k)
                               (Refine.maxX st_k) (Refine.maxY st_k)
           = Some (point, d) ->
           Double.lt d (Refine.bestDistance final) = false).
Proof.
  induction n as [|n IH]; intros step st final Hrun; cbn in Hrun |- *.
  - destruct (step >? 0); [discriminate|]. injection Hrun as <-.
    split; [auto|]. intros s st_k point d [].
  - destruct (step >? 0) eqn:Hc;
      [|injection Hrun as <-; split; [auto|intros s st_k point d []]].
    destruct (refineRound fuel g st step) as [st1|] eqn:Hround;
      [|discriminate].
    destruct (IH _ _ _ Hrun) as [Hbelow Hrounds].
    unfold refineRound in Hround.
    destruct (findBestTranslation fuel g step (Refine.minX st)
                (Refine.minY st) (Refine.maxX st) (Refine.maxY st))
      as [[point0 d0]|] eqn:Hsearch; [|discriminate].
    injection Hround as <-. unfold refineUpdate in Hbelow.
    destruct (Double.lt d0 (Refine.bestDistance st)) eqn:Hlt;
      cbn in Hbelow.
    + split.
      * intros v Hv. apply Hbelow in Hv. eapply double_lt_trans; eassumption.
      * intros s st_k point d [[= <- <-]|Hin] Hd; [|eauto].
        rewrite Hsearch in Hd. injection Hd as <- <-.
        destruct (Double.lt d0 (Refine.bestDistance final)) eqn:Hd0;
          [|reflexivity].
        apply Hbelow in Hd0. rewrite double_lt_irrefl in Hd0. discriminate.
    + split; [assumption|].
      intros s st_k point d [[= <- <-]|Hin] Hd; [|eauto].
      rewrite Hsearch in Hd. injection Hd as <- <-.
      destruct (Double.lt d0 (Refine.bestDistance final)) eqn:Hd0;
        [|reflexivity].
      apply Hbelow in Hd0. congruence.
Qed.

(** X9.  With enough fuel [findBestTranslationRecursive] returns a
    distance that no round beat: for every round, the distance that the
    round's [findBestTranslation] found over the round's window is not
    smaller than the distance returned.  In particular the result is at
    least as good as the best offset of the first, coarsest grid over the
    whole absolute range. *)
Theorem hierarchical_result_is_not_worse_than_any_round :
  forall (g : Globals) (garbage : CvPoint) (initialStep : Z) (fuel : nat),
    (refineFuel g initialStep <= fuel)%nat ->
    exists point d,
      findBestTranslationRecursive fuel g garbage initialStep
      = Some (point, d)
      /\ (forall step st point' d',
             In (step, st) (refineRounds fuel g garbage initialStep) ->
             findBestTranslation fuel g step (Refine.minX st) (Refine.minY st)
                                 (Refine.maxX st) (Refine.maxY st)
             = Some (point', d') ->
             Double.lt d' d = false)
      /\ (0 < initialStep ->
          forall point' d',
            findBestTranslation fuel g initialStep 0 0
                                (absoluteMaxX g) (absoluteMaxY g)
            = Some (point', d') ->
            Double.lt d' d = false).
Proof.
  intros g garbage initialStep fuel Hfuel. unfold refineFuel in Hfuel.
  destruct (refineLoop_returns fuel g ltac:(lia) fuel initialStep
              (refineInit g garbage) ltac:(lia) (refineInit_window g garbage))
    as (st & Hrun).
  destruct (refine_never_worse g fuel fuel initialStep
              (refineInit g garbage) st Hrun) as [_ Hrounds].
  unfold findBestTranslationRecursive, refineLoop. rewrite Hrun.
  exists (Refine.bestTranslation st), (Refine.bestDistance st).
  split; [reflexivity|]. split; [exact Hrounds|].
  intros Hstep point' d' Hfirst.
  apply (Hrounds initialStep (refineInit g garbage) point' d');
    [|exact Hfirst].
  destruct fuel as [|fuel']; [lia|].
  cbn [for_rounds].
  assert ((initialStep >? 0) = true) as Hc by (apply Z.gtb_lt; lia).
  rewrite Hc. left. reflexivity.
Qed.

Lemma hierarchical_result_is_not_worse_witness :
  exists point d,
    findBestTranslationRecursive 9 spotInTwoDots (cvPoint 7 7) 4
    = Some (point, d)
    /\ (forall step st point' d',
           In (step, st) (refineRounds 9 spotInTwoDots (cvPoint 7 7) 4) ->
           findBestTranslation 9 spotInTwoDots step
             (Refine.minX st) (Refine.minY st)
             (Refine.maxX st) (Refine.maxY st)
           = Some (point', d') ->
           Double.lt d' d = false)
    /\ (0 < 4 ->
        forall point' d',
          findBestTranslation 9 spotInTwoDots 4 0 0
            (absoluteMaxX spotInTwoDots) (absoluteMaxY spotInTwoDots)
          = Some (point', d') ->
          Double.lt d' d = false).
Proof.
  apply (hierarchical_result_is_not_worse_than_any_round spotInTwoDots
           (cvPoint 7 7) 4 9).
  vm_compute. lia.
Defined.

(** ** More on findBestTranslationScaleAndRotation *)

Lemma flat_map_nothing {A B : Type} (f : A -> list B) (l : list A) :
  (forall x, In x l -> f x = []) -> flat_map f l = [].
Proof.
  induction l as [|x l IH]; cbn; intros H; [reflexivity|].
  rewrite (H x) by (left; reflexivity). cbn.
  apply IH. intros y Hy. apply H. right. assumption.
Qed.

(** X10.  When the sweep is empty -- the largest rotation is below the
    smallest, or the rotation step is positive, enough fuel lets the loop
    over the rotations end, and the smallest scale is not at most the
    largest (a NaN bound included) --,
    [findBestTranslationScaleAndRotation] returns the largest double and
    leaves the cells behind the three out-pointers as they were; it still
    overwrites the needle edge map, with the warp of the needle by the
    never assigned matrix [bestRotMat]. *)
Theorem pose_search_with_empty_sweep :
  forall (cv : OpenCV) (g : Globals) (garbage : CvPoint)
         (rotMat0 bestRotMat0 : CvMat)
         (bestTranslation0 : option CvPoint) (bestRotation0 : option Z)
         (bestScale0 : option double)
         (initialTranslationStep minRotation maxRotation rotationStep : Z)
         (minScale maxScale scaleStep : double) (fuel : nat),
    maxRotation < minRotation
    \/ (0 < rotationStep
        /\ Double.le minScale maxScale = false
        /\ (Z.to_nat (maxRotation + 1 - minRotation) <= fuel)%nat) ->
    findBestTranslationScaleAndRotation fuel g garbage rotMat0 bestRotMat0
      bestTranslation0 bestRotation0 bestScale0 initialTranslationStep
      minRotation maxRotation rotationStep minScale maxScale scaleStep
    = Some (Pose.mkState Double.numeric_limits_max bestTranslation0
              bestRotation0 bestScale0 rotMat0 bestRotMat0
              (setNeedleEdges g
                 (warpInto (needleEdges g) (needleEdges g) bestRotMat0))).
Proof.
  intros cv g garbage rotMat0 bestRotMat0 bestTranslation0 bestRotation0
         bestScale0 initialTranslationStep minRotation maxRotation
         rotationStep minScale maxScale scaleStep fuel Hempty.
  unfold findBestTranslationScaleAndRotation.
  destruct Hempty as [Hrot|(Hstep & Hscale & Hfuel)].
  - rewrite for_loop_done; [reflexivity|]. apply Z.leb_gt. assumption.
  - rewrite (for_loop_fold _ _ _ (fun st _ => st)
               (Z.to_nat (maxRotation + 1 - minRotation))).
    + rewrite fold_left_unchanged by reflexivity. reflexivity.
    + apply rotations_stop; [assumption|lia].
    + assumption.
    + intros st rotation _. unfold tryRotation.
      apply for_loop_done. assumption.
Qed.

Lemma pose_search_with_empty_sweep_witness :
  @findBestTranslationScaleAndRotation fadingCV 3 spotInTwoDots (cvPoint 7 7)
    (half, half) (quarter, one) (Some (cvPoint 1 1)) (Some 5) (Some half)
    4 0 2 1 one half quarter
  = Some (@Pose.mkState fadingCV Double.numeric_limits_max
            (Some (cvPoint 1 1)) (Some 5) (Some half) (half, half)
            (quarter, one)
            (setNeedleEdges spotInTwoDots
               (@warpInto fadingCV (needleEdges spotInTwoDots)
                          (needleEdges spotInTwoDots) (quarter, one)))).
Proof.
  apply (pose_search_with_empty_sweep fadingCV spotInTwoDots (cvPoint 7 7)
           (half, half) (quarter, one) (Some (cvPoint 1 1)) (Some 5)
           (Some half) 4 0 2 1 one half quarter 3).
  right. split; [lia|]. split; [vm_compute; reflexivity|vm_compute; lia].
Defined.

(** Every pose gives the never assigned point and the largest double
    when the needle is not both narrower and lower than the haystack. *)
Lemma poseDistance_without_candidates `{cv : OpenCV} (fuel : nat)
    (g : Globals) (garbage : CvPoint) (initialTranslationStep rotation : Z)
    (scale : double) :
  absoluteMaxX g <= 0 \/ absoluteMaxY g <= 0 ->
  (refineFuel g initialTranslationStep <= fuel)%nat ->
  poseDistance fuel g garbage initialTranslationStep rotation scale
  = Some (garbage, Double.numeric_limits_max).
Proof.
  intros Hempty Hfuel. unfold refineFuel in Hfuel.
  unfold poseDistance, findBestTranslationRecursive, refineLoop.
  rewrite refineLoop_unchanged; [reflexivity|exact Hempty| |lia].
  change (Nat.max (Z.to_nat (absoluteMaxX g)) (Z.to_nat (absoluteMaxY g))
          <= fuel)%nat.
  lia.
Qed.

(** C8 (as the code has it).  When the needle is not both narrower and
    lower than the haystack, every pose gives the largest double, no pose
    improves on the initial [bestDistance], and [bestRotMat] is never
    assigned; the last statement of the function warps the needle by that
    matrix all the same.  The function returns the largest double, the
    outputs are untouched, and the needle edge map is left in no pose of
    the sweep.  For the stand-in warp, with [twoDots] as needle and as
    haystack and the sweep of [main] (the one pose 0 degrees, scale 1.0),
    the needle of that pose has its edge pixel at (2,0) and the needle
    edge map is left without it. *)
Theorem pose_search_without_finite_pose_leaves_no_pose :
  (forall (cv : OpenCV) (g : Globals) (garbage : CvPoint)
          (rotMat0 bestRotMat0 : CvMat)
          (bestTranslation0 : option CvPoint) (bestRotation0 : option Z)
          (bestScale0 : option double)
          (initialTranslationStep minRotation maxRotation rotationStep : Z)
          (minScale maxScale scaleStep : double) (n fuel : nat),
      0 < rotationStep ->
      stops n (fun scale => Double.le scale maxScale)
            (fun scale => Double.add scale scaleStep) minScale = true ->
      (poseFuel g initialTranslationStep minRotation maxRotation n
       <= fuel)%nat ->
      absoluteMaxX g <= 0 \/ absoluteMaxY g <= 0 ->
      exists st,
        findBestTranslationScaleAndRotation fuel g garbage rotMat0
          bestRotMat0 bestTranslation0 bestRotation0 bestScale0
          initialTranslationStep minRotation maxRotation rotationStep
          minScale maxScale scaleStep
        = Some st
        /\ Pose.bestDistance st = Double.numeric_limits_max
        /\ Pose.bestTranslation st = bestTranslation0
        /\ Pose.bestRotation st = bestRotation0
        /\ Pose.bestScale st = bestScale0
        /\ Pose.bestRotMat st = bestRotMat0
        /\ needleEdges (Pose.globals st)
           = warpInto (needleEdges g) (needleEdges g) bestRotMat0)
  /\ (let result :=
        @findBestTranslationScaleAndRotation fadingCV 9 twoDotsInItself
          (cvPoint 7 7) (half, half) (quarter, one)
          (Some (cvPoint 5 5)) (Some 0) (Some one) 4 0 0 1 one one one in
      sweep 2 0 0 1 one one one = [(0, one)]
      /\ row (@needleAtPose fadingCV twoDotsInItself 0 one) 0 2 = 0
      /\ option_map Pose.bestDistance result
         = Some Double.numeric_limits_max
      /\ option_map Pose.bestTranslation result = Some (Some (cvPoint 5 5))
      /\ option_map (fun st => row (needleEdges (Pose.globals st)) 0 2)
                    result
         = Some 255).
Proof.
  split.
  - intros cv g garbage rotMat0 bestRotMat0 bestTranslation0 bestRotation0
           bestScale0 initialTranslationStep minRotation maxRotation
           rotationStep minScale maxScale scaleStep n fuel Hstep Hscales
           Hfuel Hempty.
    destruct (pose_search_returns g garbage rotMat0 bestRotMat0
                bestTranslation0 bestRotation0 bestScale0
                initialTranslationStep minRotation maxRotation rotationStep
                minScale maxScale scaleStep n fuel Hstep Hscales Hfuel)
      as [Hrun _].
    assert (refineFuel g initialTranslationStep <= fuel)%nat as Hinner
      by (unfold poseFuel in Hfuel; lia).
    destruct (fold_pose_spec fuel g garbage initialTranslationStep Hinner
                (sweep n minRotation maxRotation rotationStep
                       minScale maxScale scaleStep)
                (Pose.mkState Double.numeric_limits_max bestTranslation0
                   bestRotation0 bestScale0 rotMat0 bestRotMat0 g)
                (framed_refl g))
      as [_ [(Hd & Hm & Ht & Hr & Hs & _)
            |(_ & rotation & scale & _ & point & _ & Hdist & Hlt & _)]];
      fold (sweepState fuel n g garbage rotMat0 bestRotMat0 bestTranslation0
              bestRotation0 bestScale0 initialTranslationStep minRotation
              maxRotation rotationStep minScale maxScale scaleStep) in *.
    + eexists. split; [exact Hrun|]. cbn in Hd, Hm, Ht, Hr, Hs. cbn.
      rewrite Hm. repeat split; assumption.
    + rewrite (poseDistance_without_candidates fuel g garbage
                 initialTranslationStep rotation scale Hempty Hinner)
        in Hdist.
      injection Hdist as _ Hmax. rewrite <- Hmax in Hlt.
      cbn [Pose.bestDistance] in Hlt.
      rewrite double_lt_irrefl in Hlt. discriminate.
  - cbn zeta. split; [vm_compute; reflexivity|].
    split; [vm_compute; reflexivity|].
    split; [vm_compute; reflexivity|].
    split; vm_compute; reflexivity.
Qed.

(** X11.  For a positive rotation step, scales that end and enough fuel,
    [findBestTranslationScaleAndRotation] returns, in one of two ways.
    Either no pose of the sweep has a distance below the largest double:
    it returns the largest double, the outputs are untouched and the
    needle edge map is left warped by the never assigned [bestRotMat].  Or
    the first pose, in the order of the loops (rotations ascending, and
    scales ascending within a rotation), that reaches the least distance
    wins: its distance is returned, the outputs name it, the needle edge
    map is left warped to it, every pose before it has a distance neither
    smaller than nor equal to the distance returned, and no pose after it
    has a smaller one. *)
Theorem pose_search_first_least_pose_wins :
  forall (cv : OpenCV) (g : Globals) (garbage : CvPoint)
         (rotMat0 bestRotMat0 : CvMat)
         (bestTranslation0 : option CvPoint) (bestRotation0 : option Z)
         (bestScale0 : option double)
         (initialTranslationStep minRotation maxRotation rotationStep : Z)
         (minScale maxScale scaleStep : double) (n fuel : nat),
    0 < rotationStep ->
    stops n (fun scale => Double.le scale maxScale)
          (fun scale => Double.add scale scaleStep) minScale = true ->
    (poseFuel g initialTranslationStep minRotation maxRotation n <= fuel)%nat ->
    exists st,
      findBestTranslationScaleAndRotation fuel g garbage rotMat0 bestRotMat0
        bestTranslation0 bestRotation0 bestScale0 initialTranslationStep
        minRotation maxRotation rotationStep minScale maxScale scaleStep
      = Some st
      /\ ((Pose.bestDistance st = Double.numeric_limits_max
           /\ Pose.bestTranslation st = bestTranslation0
           /\ Pose.bestRotation st = bestRotation0
           /\ Pose.bestScale st = bestScale0
           /\ needleEdges (Pose.globals st)
              = warpInto (needleEdges g) (needleEdges g) bestRotMat0
           /\ (forall r s p d,
                  In (r, s)
                     (sweep n minRotation maxRotation rotationStep
                            minScale maxScale scaleStep) ->
                  poseDistance fuel g garbage initialTranslationStep r s
                  = Some (p, d) ->
                  Double.lt d Double.numeric_limits_max = false))
          \/ (exists rotation scale point earlier later,
                sweep n minRotation maxRotation rotationStep
                      minScale maxScale scaleStep
                = earlier ++ (rotation, scale) :: later
                /\ poseDistance fuel g garbage initialTranslationStep
                                rotation scale
                   = Some (point, Pose.bestDistance st)
                /\ Double.lt (Pose.bestDistance st)
                             Double.numeric_limits_max = true
                /\ Pose.bestTranslation st = store bestTranslation0 point
                /\ Pose.bestRotation st = store bestRotation0 rotation
                /\ Pose.bestScale st = store bestScale0 scale
                /\ needleEdges (Pose.globals st)
                   = needleAtPose g rotation scale
                /\ (forall r s p d,
                       In (r, s) earlier ->
                       poseDistance fuel g garbage initialTranslationStep r s
                       = Some (p, d) ->
                       Double.le d (Pose.bestDistance st) = false
                       /\ Double.eq d (Pose.bestDistance st) = false)
                /\ (forall r s p d,
                       In (r, s) later ->
                       poseDistance fuel g garbage initialTranslationStep r s
                       = Some (p, d) ->
                       Double.lt d (Pose.bestDistance st) = false))).
Proof.
  intros cv g garbage rotMat0 bestRotMat0 bestTranslation0 bestRotation0
         bestScale0 initialTranslationStep minRotation maxRotation
         rotationStep minScale maxScale scaleStep n fuel Hstep Hscales Hfuel.
  destruct (pose_search_returns g garbage rotMat0 bestRotMat0 bestTranslation0
              bestRotation0 bestScale0 initialTranslationStep minRotation
              maxRotation rotationStep minScale maxScale scaleStep n fuel
              Hstep Hscales Hfuel) as [Hrun _].
  assert (refineFuel g initialTranslationStep <= fuel)%nat as Hinner
    by (unfold poseFuel in Hfuel; lia).
  eexists. split; [exact Hrun|].
  destruct (fold_pose_spec fuel g garbage initialTranslationStep Hinner
              (sweep n minRotation maxRotation rotationStep
                     minScale maxScale scaleStep)
              (Pose.mkState Double.numeric_limits_max bestTranslation0
                 bestRotation0 bestScale0 rotMat0 bestRotMat0 g)
              (framed_refl g))
    as [_ [(Hd & Hm & Ht & Hr & Hs & Hnone)
          |(l1 & rotation & scale & l2 & point & Hsplit & Hdist & Hlt
            & Hm & Ht & Hr & Hs & Hl1 & Hl2)]];
    fold (sweepState fuel n g garbage rotMat0 bestRotMat0 bestTranslation0
            bestRotation0 bestScale0 initialTranslationStep minRotation
            maxRotation rotationStep minScale maxScale scaleStep) in *.
  - left. cbn in Hd, Hm, Ht, Hr, Hs, Hnone. cbn. rewrite Hm. repeat split; assumption.
  - right. exists rotation, scale, point, l1, l2.
    cbn in Hlt, Ht, Hr, Hs. cbn. rewrite Hm.
    repeat split; eauto using double_not_le_not_eq.
Qed.

Lemma pose_search_first_least_pose_wins_witness :
  exists st,
    @findBestTranslationScaleAndRotation fadingCV 9 spotInTwoDots (cvPoint 0 0)
      (Double.zero, Double.zero) (Double.zero, Double.zero)
      (Some (cvPoint 0 0)) (Some 5) (Some half) 1 0 0 1 half one half
    = Some st
    /\ ((Pose.bestDistance st = Double.numeric_limits_max
         /\ Pose.bestTranslation st = Some (cvPoint 0 0)
         /\ Pose.bestRotation st = Some 5
         /\ Pose.bestScale st = Some half
         /\ needleEdges (Pose.globals st)
            = @warpInto fadingCV (needleEdges spotInTwoDots)
                        (needleEdges spotInTwoDots)
                        (Double.zero, Double.zero)
         /\ (forall r s p d,
                In (r, s) (sweep 2 0 0 1 half one half) ->
                @poseDistance fadingCV 9 spotInTwoDots (cvPoint 0 0) 1 r s
                = Some (p, d) ->
                Double.lt d Double.numeric_limits_max = false))
        \/ (exists rotation scale point earlier later,
              sweep 2 0 0 1 half one half
              = earlier ++ (rotation, scale) :: later
              /\ @poseDistance fadingCV 9 spotInTwoDots (cvPoint 0 0) 1
                   rotation scale
                 = Some (point, Pose.bestDistance st)
              /\ Double.lt (Pose.bestDistance st)
                           Double.numeric_limits_max = true
              /\ Pose.bestTranslation st = store (Some (cvPoint 0 0)) point
              /\ Pose.bestRotation st = store (Some 5) rotation
              /\ Pose.bestScale st = store (Some half) scale
              /\ needleEdges (Pose.globals st)
                 = @needleAtPose fadingCV spotInTwoDots rotation scale
              /\ (forall r s p d,
                     In (r, s) earlier ->
                     @poseDistance fadingCV 9 spotInTwoDots (cvPoint 0 0) 1
                       r s
                     = Some (p, d) ->
                     Double.le d (Pose.bestDistance st) = false
                     /\ Double.eq d (Pose.bestDistance st) = false)
              /\ (forall r s p d,
                     In (r, s) later ->
                     @poseDistance fadingCV 9 spotInTwoDots (cvPoint 0 0) 1
                       r s
                     = Some (p, d) ->
                     Double.lt d (Pose.bestDistance st) = false))).
Proof.
  apply (pose_search_first_least_pose_wins fadingCV spotInTwoDots
           (cvPoint 0 0) (Double.zero, Double.zero) (Double.zero, Double.zero)
           (Some (cvPoint 0 0)) (Some 5) (Some half) 1 0 0 1 half one half
           2 9).
  - lia.
  - vm_compute. reflexivity.
  - vm_compute. lia.
Defined.

(** A loop run on the images of the states under a map that the body
    commutes with returns the image of what the loop returns. *)
Lemma for_loop_commute {I S S' : Type} (h : S -> S') (cond : I -> bool)
    (next : I -> I) (body : S -> I -> option S)
    (body' : S' -> I -> option S') :
  (forall s i, body' (h s) i = option_map h (body s i)) ->
  forall (fuel : nat) (i : I) (s : S),
    for_loop fuel cond next i body' (h s)
    = option_map h (for_loop fuel cond next i body s).
Proof.
  intros Hbody. induction fuel as [|fuel IH]; intros i s; cbn.
  - destruct (cond i); reflexivity.
  - destruct (cond i); [|reflexivity].
    rewrite Hbody. destruct (body s i) as [s1|]; cbn; [apply IH|reflexivity].
Qed.

Lemma tryPose_withoutOutputs `{cv : OpenCV} (fuel : nat) (garbage : CvPoint)
    (backupPrior : Image Intensity) (center : CvPoint)
    (initialTranslationStep rotation : Z) (angle : double)
    (st : Pose.State) (scale : double) :
  tryPose fuel garbage backupPrior center initialTranslationStep rotation
          angle (withoutOutputs st) scale
  = option_map withoutOutputs
      (tryPose fuel garbage backupPrior center initialTranslationStep
               rotation angle st scale).
Proof.
  unfold tryPose. cbn [withoutOutputs Pose.globals Pose.bestDistance].
  destruct (findBestTranslationRecursive fuel
              (setNeedleEdges (Pose.globals st)
                 (warpInto backupPrior (needleEdges (Pose.globals st))
                    (cv2DRotationMatrix center angle scale)))
              garbage initialTranslationStep) as [[point dist]|];
    [|reflexivity].
  destruct (Double.lt dist (Pose.bestDistance st)); reflexivity.
Qed.

(** X12.  Null out-pointers change nothing but the outputs: with the
    three pointers null the function returns under the same fuel, and
    what it returns has the same distance, the same matrices and the same
    needle edge map as with any cells behind the pointers. *)
Theorem pose_search_ignores_null_outputs :
  forall (cv : OpenCV) (g : Globals) (garbage : CvPoint)
         (rotMat0 bestRotMat0 : CvMat)
         (bestTranslation0 : option CvPoint) (bestRotation0 : option Z)
         (bestScale0 : option double)
         (initialTranslationStep minRotation maxRotation rotationStep : Z)
         (minScale maxScale scaleStep : double) (fuel : nat),
    findBestTranslationScaleAndRotation fuel g garbage rotMat0 bestRotMat0
      None None None initialTranslationStep
      minRotation maxRotation rotationStep minScale maxScale scaleStep
    = option_map withoutOutputs
        (findBestTranslationScaleAndRotation fuel g garbage rotMat0
           bestRotMat0 bestTranslation0 bestRotation0 bestScale0
           initialTranslationStep minRotation maxRotation rotationStep
           minScale maxScale scaleStep).
Proof.
  intros cv g garbage rotMat0 bestRotMat0 bestTranslation0 bestRotation0
         bestScale0 initialTranslationStep minRotation maxRotation
         rotationStep minScale maxScale scaleStep fuel.
  unfold findBestTranslationScaleAndRotation.
  change (Pose.mkState Double.numeric_limits_max None None None rotMat0
                       bestRotMat0 g)
    with (withoutOutputs
            (Pose.mkState Double.numeric_limits_max bestTranslation0
                          bestRotation0 bestScale0 rotMat0 bestRotMat0 g)).
  rewrite (for_loop_commute withoutOutputs _ _
             (tryRotation fuel garbage (needleEdges g)
                (cvPoint (Z.quot (width (needleEdges g)) 2)
                         (Z.quot (height (needleEdges g)) 2))
                initialTranslationStep minScale maxScale scaleStep)).
  - destruct (for_loop fuel (fun rotation => rotation <=? maxRotation)
                (fun rotation => rotation + rotationStep) minRotation
                (tryRotation fuel garbage (needleEdges g)
                   (cvPoint (Z.quot (width (needleEdges g)) 2)
                            (Z.quot (height (needleEdges g)) 2))
                   initialTranslationStep minScale maxScale scaleStep)
                (Pose.mkState Double.numeric_limits_max bestTranslation0
                   bestRotation0 bestScale0 rotMat0 bestRotMat0 g));
      reflexivity.
  - intros st rotation. unfold tryRotation.
    apply for_loop_commute. intros st' scale. apply tryPose_withoutOutputs.
Qed.

(** ** More on findBestTranslation *)

(** X13.  For any window of [int] offsets, negative ones and the default
    maxima [-1] included, with a positive step whose increments do not
    overflow, [findBestTranslation] returns.  Either no offset of the grid
    has an objective below the largest double, and it returns the point
    [(0, 0)] with the largest double, whether or not [(0, 0)] is in the
    window; or it returns an offset of the grid -- the [int] itself, the
    [unsigned] temporaries notwithstanding -- with the objective at that
    offset, and no offset of the grid has a smaller one. *)
Theorem findBestTranslation_on_any_int_window :
  forall (g : Globals) (step minX minY maxX maxY : Z) (fuel : nat),
    0 < step ->
    INT_MIN <= minX -> INT_MIN <= minY ->
    maxOffsetX g maxX + step <= INT_MAX ->
    maxOffsetY g maxY + step <= INT_MAX ->
    (searchFuel g minX minY maxX maxY <= fuel)%nat ->
    exists point d,
      findBestTranslation fuel g step minX minY maxX maxY = Some (point, d)
      /\ ((point = cvPoint 0 0
           /\ d = Double.numeric_limits_max
           /\ forall x y,
                onGrid minX (maxOffsetX g maxX) step x ->
                onGrid minY (maxOffsetY g maxY) step y ->
                Double.lt (objective g x y) Double.numeric_limits_max = false)
          \/ (onGrid minX (maxOffsetX g maxX) step (px point)
              /\ onGrid minY (maxOffsetY g maxY) step (py point)
              /\ d = objective g (px point) (py point)
              /\ Double.lt d Double.numeric_limits_max = true
              /\ forall x y,
                   onGrid minX (maxOffsetX g maxX) step x ->
                   onGrid minY (maxOffsetY g maxY) step y ->
                   Double.lt (objective g x y) d = false)).
Proof.
  intros g step minX minY maxX maxY fuel Hstep HminX HminY HmaxX HmaxY Hfuel.
  destruct (search_result g step minX minY maxX maxY fuel Hstep Hfuel)
    as (b & Hrun & Hcases).
  unfold findBestTranslation. rewrite Hrun.
  destruct Hcases as [[-> Hnone]|(x & y & Hx & Hy & -> & Hfin & Hmin & _)].
  - exists (cvPoint 0 0), Double.numeric_limits_max.
    split; [reflexivity|]. left. auto.
  - exists (cvPoint x y), (objective g x y). cbn [bestX bestY bestDistance].
    assert (INT_MIN <= x <= INT_MAX) as Hxr.
    { destruct Hx as (k & Hk & -> & Hlt). nia. }
    assert (INT_MIN <= y <= INT_MAX) as Hyr.
    { destruct Hy as (k & Hk & -> & Hlt). nia. }
    rewrite (unsigned_round_trip x Hxr), (unsigned_round_trip y Hyr).
    split; [reflexivity|]. right. cbn [px py]. auto.
Qed.

Lemma findBestTranslation_on_any_int_window_witness :
  exists point d,
    findBestTranslation 11 spotInTwoDots 3 (-2) (-1) (-1) (-1)
    = Some (point, d)
    /\ ((point = cvPoint 0 0
         /\ d = Double.numeric_limits_max
         /\ forall x y,
              onGrid (-2) (maxOffsetX spotInTwoDots (-1)) 3 x ->
              onGrid (-1) (maxOffsetY spotInTwoDots (-1)) 3 y ->
              Double.lt (objective spotInTwoDots x y)
                        Double.numeric_limits_max = false)
        \/ (onGrid (-2) (maxOffsetX spotInTwoDots (-1)) 3 (px point)
            /\ onGrid (-1) (maxOffsetY spotInTwoDots (-1)) 3 (py point)
            /\ d = objective spotInTwoDots (px point) (py point)
            /\ Double.lt d Double.numeric_limits_max = true
            /\ forall x y,
                 onGrid (-2) (maxOffsetX spotInTwoDots (-1)) 3 x ->
                 onGrid (-1) (maxOffsetY spotInTwoDots (-1)) 3 y ->
                 Double.lt (objective spotInTwoDots x y) d = false)).
Proof.
  apply (findBestTranslation_on_any_int_window spotInTwoDots 3 (-2) (-1)
           (-1) (-1) 11).
  - lia.
  - vm_compute. discriminate.
  - vm_compute. discriminate.
  - vm_compute. discriminate.
  - vm_compute. discriminate.
  - vm_compute. lia.
Defined.

(** ** Offsets without overlap *)

Lemma findHausdorffDistance_all_skipped (imageA : Image Intensity)
    (imageB : Image Intensity32F) (imageAOffset : CvPoint) :
  (forall ix iy,
      0 <= ix < width imageA -> 0 <= iy < height imageA ->
      skipped imageB (ix + px imageAOffset) (iy + py imageAOffset) = true) ->
  findHausdorffDistance imageA imageB imageAOffset = MAX_HAUSDORFF_DISTANCE.
Proof.
  intros Hskip. unfold findHausdorffDistance.
  rewrite scanImage_nothing_considered; [reflexivity|].
  intros ix iy Hx Hy _. apply Hskip; assumption.
Qed.

(** X14.  At an offset that puts the needle where it shares no cell with
    the haystack field, and the haystack where it shares no cell with the
    needle field, both directed distances are the sentinel and the
    objective is exactly 9999: a finite value, which the searches and the
    mouse handler treat as a distance like any other. *)
Theorem objective_without_overlap_is_sentinel :
  forall (g : Globals) (x y : Z),
    forwardEmpty g x y -> reverseEmpty g x y ->
    objective g x y = MAX_HAUSDORFF_DISTANCE
    /\ Double.lt (objective g x y) Double.numeric_limits_max = true.
Proof.
  intros g x y Hf Hr.
  assert (objective g x y = MAX_HAUSDORFF_DISTANCE) as Hobj.
  { unfold objective, symmetricDistance. cbn [px py].
    rewrite !findHausdorffDistance_all_skipped.
    - vm_compute. reflexivity.
    - intros ix iy Hx Hy. cbn [px py]. unfold skipped, reverseEmpty in *.
      rewrite !Bool.orb_true_iff, !Z.ltb_lt, !Z.gtb_ltb, !Z.ltb_lt. lia.
    - intros ix iy Hx Hy. cbn [px py]. unfold skipped, forwardEmpty in *.
      rewrite !Bool.orb_true_iff, !Z.ltb_lt, !Z.gtb_ltb, !Z.ltb_lt. lia. }
  split; [exact Hobj|]. rewrite Hobj. vm_compute. reflexivity.
Qed.

Lemma objective_without_overlap_is_sentinel_witness :
  objective spotInTwoDots (-3) 0 = MAX_HAUSDORFF_DISTANCE
  /\ Double.lt (objective spotInTwoDots (-3) 0) Double.numeric_limits_max
     = true.
Proof.
  apply (objective_without_overlap_is_sentinel spotInTwoDots (-3) 0).
  - left. vm_compute. discriminate.
  - right. left. vm_compute. reflexivity.
Defined.

(** ** onMouseEvent *)

(** X15.  Dragging the needle, with the button down, to the offset that
    the hierarchical search has returned shows that offset with the
    distance the search has returned: the handler accepts every offset
    the search can return and evaluates the same objective. *)
Theorem onMouseEvent_shows_the_distance_of_the_search :
  forall (CV_EVENT_FLAG_LBUTTON : Z) (g : Globals) (garbage point : CvPoint)
         (initialStep flags : Z) (d : double) (fuel : nat),
    absoluteMaxX g <= INT_MAX -> absoluteMaxY g <= INT_MAX ->
    (refineFuel g initialStep <= fuel)%nat ->
    Z.land flags CV_EVENT_FLAG_LBUTTON <> 0 ->
    findBestTranslationRecursive fuel g garbage initialStep
    = Some (point, d) ->
    Double.lt d Double.numeric_limits_max = true ->
    onMouseEvent CV_EVENT_FLAG_LBUTTON g (px point) (py point) flags
    = Some (point, d).
Proof.
  intros LBUTTON g garbage point initialStep flags d fuel HintX HintY Hfuel
         Hflag Hrun Hfin.
  destruct (refineLoop_sound g garbage initialStep fuel HintX HintY Hfuel)
    as (st & Hloop & _ & Hsound).
  unfold findBestTranslationRecursive in Hrun. rewrite Hloop in Hrun.
  injection Hrun as <- <-.
  destruct Hsound as [[Hd _]|(x & y & [Hx Hy] & Ht & Hd & _)].
  - rewrite Hd, double_lt_irrefl in Hfin. discriminate.
  - rewrite Ht, Hd. cbn [px py]. unfold onMouseEvent.
    apply Z.eqb_neq in Hflag. rewrite Hflag. cbn [negb].
    unfold absoluteMaxX, absoluteMaxY in Hx, Hy.
    replace (x <=? width (haystackDistanceTransform g)
                   - width (needleEdges g)) with true
      by (symmetry; apply Z.leb_le; lia).
    replace (y <=? height (haystackDistanceTransform g)
                   - height (needleEdges g)) with true
      by (symmetry; apply Z.leb_le; lia).
    reflexivity.
Qed.

Lemma onMouseEvent_shows_the_distance_of_the_search_witness :
  onMouseEvent 1 spotInTwoDots (px (cvPoint 8 0)) (py (cvPoint 8 0)) 33
  = Some (cvPoint 8 0, Double.of_Z 1).
Proof.
  apply (onMouseEvent_shows_the_distance_of_the_search 1 spotInTwoDots
           (cvPoint 7 7) (cvPoint 8 0) 4 33 (Double.of_Z 1) 9).
  - vm_compute. discriminate.
  - vm_compute. discriminate.
  - vm_compute. lia.
  - vm_compute. discriminate.
  - vm_compute. reflexivity.
  - vm_compute. reflexivity.
Defined.

(** ** Image<T>::at *)

(** X16.  For an image whose width and height are non-negative [int]s
    and for [int] arguments, [at] returns the pixel exactly when
    [0 <= x < width] and [0 <= y < height], and throws otherwise: a
    negative argument becomes a large [unsigned] and is rejected by the
    upper bound, so [at] never reads outside the image. *)
Theorem Image_at_is_bounds_checked :
  forall (T : Type) (img : Image T) (x y : Z),
    0 <= width img <= INT_MAX -> 0 <= height img <= INT_MAX ->
    INT_MIN <= x <= INT_MAX -> INT_MIN <= y <= INT_MAX ->
    (0 <= x < width img /\ 0 <= y < height img ->
     Image_at img (int_to_unsigned x) (int_to_unsigned y)
     = Some (row img y x))
    /\ (~ (0 <= x < width img /\ 0 <= y < height img) ->
        Image_at img (int_to_unsigned x) (int_to_unsigned y) = None).
Proof.
  intros T img x y Hw Hh Hx Hy.
  unfold Image_at, int_to_unsigned, UINT_MODULUS, INT_MIN, INT_MAX in *.
  rewrite (Z.mod_small (width img)), (Z.mod_small (height img)) by lia.
  pose proof (Z.mod_pos_bound x (2 ^ 32) ltac:(lia)) as Hxm.
  pose proof (Z.mod_pos_bound y (2 ^ 32) ltac:(lia)) as Hym.
  assert (x < 0 -> x mod 2 ^ 32 = x + 2 ^ 32) as Hxn.
  { intros Hn. symmetry. apply (Z.mod_unique _ _ (-1)); lia. }
  assert (y < 0 -> y mod 2 ^ 32 = y + 2 ^ 32) as Hyn.
  { intros Hn. symmetry. apply (Z.mod_unique _ _ (-1)); lia. }
  split.
  - intros [Hxin Hyin].
    rewrite (Z.mod_small x), (Z.mod_small y) by lia.
    replace (0 <=? x) with true by (symmetry; apply Z.leb_le; lia).
    replace (x <? width img) with true by (symmetry; apply Z.ltb_lt; lia).
    replace (0 <=? y) with true by (symmetry; apply Z.leb_le; lia).
    replace (y <? height img) with true by (symmetry; apply Z.ltb_lt; lia).
    reflexivity.
  - intros Hout.
    destruct ((0 <=? x mod 2 ^ 32) && (x mod 2 ^ 32 <? width img)
              && (0 <=? y mod 2 ^ 32) && (y mod 2 ^ 32 <? height img))
      eqn:Hc; [|reflexivity].
    rewrite !Bool.andb_true_iff, !Z.leb_le, !Z.ltb_lt in Hc.
    exfalso. apply Hout.
    destruct (Z.neg_nonneg_cases x) as [Hxneg|Hxpos];
      [rewrite (Hxn Hxneg) in Hc; lia|].
    destruct (Z.neg_nonneg_cases y) as [Hyneg|Hypos];
      [rewrite (Hyn Hyneg) in Hc; lia|].
    rewrite (Z.mod_small x), (Z.mod_small y) in Hc by lia. lia.
Qed.

Lemma Image_at_is_bounds_checked_witness :
  (0 <= -1 < width fives /\ 0 <= 3 < height fives ->
   Image_at fives (int_to_unsigned (-1)) (int_to_unsigned 3)
   = Some (row fives 3 (-1)))
  /\ (~ (0 <= -1 < width fives /\ 0 <= 3 < height fives) ->
      Image_at fives (int_to_unsigned (-1)) (int_to_unsigned 3) = None).
Proof.
  apply (Image_at_is_bounds_checked double fives (-1) 3).
  - vm_compute. split; discriminate.
  - vm_compute. split; discriminate.
  - vm_compute. split; discriminate.
  - vm_compute. split; discriminate.
Defined.

(** ** main: the key ['f'] *)

Lemma for_loop_once {I S : Type} (fuel : nat) (cond : I -> bool)
    (next : I -> I) (i : I) (body : S -> I -> option S) (s s' : S) :
  cond i = true -> cond (next i) = false -> body s i = Some s' ->
  for_loop (Datatypes.S fuel) cond next i body s = Some s'.
Proof.
  intros Hc Hn Hb. cbn. rewrite Hc, Hb. apply for_loop_done. exact Hn.
Qed.

(** X17.  Pressing ['f'] examines one pose, rotation 0 at scale 1.  With
    enough fuel the handler returns.  If the hierarchical search on the
    needle warped to that pose gives a distance below the largest double,
    [drawTranslatedPrior] gets the offset and the distance of that search
    and the needle edge map is left warped to that pose.  Otherwise -- and
    always when the needle is not both narrower and lower than the
    haystack -- [drawTranslatedPrior] gets the never assigned local
    [bestTranslation] of [main] with the largest double, and the needle
    edge map is left warped by the never assigned matrix. *)
Theorem find_key_examines_the_identity_pose :
  forall (cv : OpenCV) (g : Globals) (garbage uninitialised : CvPoint)
         (rotMat0 bestRotMat0 : CvMat) (fuel : nat),
    (Nat.max 2 (refineFuel g 4) <= fuel)%nat ->
    (exists point d,
        poseDistance fuel g garbage 4 0 (Double.of_Z 1) = Some (point, d)
        /\ onKeyF fuel g garbage uninitialised rotMat0 bestRotMat0
           = Some (if Double.lt d Double.numeric_limits_max
                   then (setNeedleEdges g
                           (needleAtPose g 0 (Double.of_Z 1)),
                         (point, d))
                   else (setNeedleEdges g
                           (warpInto (needleEdges g) (needleEdges g)
                                     bestRotMat0),
                         (uninitialised, Double.numeric_limits_max))))
    /\ (absoluteMaxX g <= 0 \/ absoluteMaxY g <= 0 ->
        onKeyF fuel g garbage uninitialised rotMat0 bestRotMat0
        = Some (setNeedleEdges g
                  (warpInto (needleEdges g) (needleEdges g) bestRotMat0),
                (uninitialised, Double.numeric_limits_max))).
Proof.
  intros cv g garbage uninitialised rotMat0 bestRotMat0 fuel Hfuel.
  assert (refineFuel (setNeedleEdges g (needleAtPose g 0 (Double.of_Z 1))) 4
          <= fuel)%nat as Hinner by (change (refineFuel g 4 <= fuel)%nat; lia).
  destruct (findBestTranslationRecursive_returns fuel
              (setNeedleEdges g (needleAtPose g 0 (Double.of_Z 1)))
              garbage 4 Hinner) as ([point d] & Hrun).
  assert (onKeyF fuel g garbage uninitialised rotMat0 bestRotMat0
          = Some (if Double.lt d Double.numeric_limits_max
                  then (setNeedleEdges g (needleAtPose g 0 (Double.of_Z 1)),
                        (point, d))
                  else (setNeedleEdges g
                          (warpInto (needleEdges g) (needleEdges g)
                                    bestRotMat0),
                        (uninitialised, Double.numeric_limits_max))))
    as Hkey.
  { destruct fuel as [|fuel']; [lia|].
    unfold onKeyF, findBestTranslationScaleAndRotation.
    rewrite (for_loop_once fuel' _ _ 0 _ _
               (if Double.lt d Double.numeric_limits_max
                then Pose.mkState d (Some point) (Some 0)
                       (Some (Double.of_Z 1))
                       (poseMatrix g 0 (Double.of_Z 1))
                       (poseMatrix g 0 (Double.of_Z 1))
                       (setNeedleEdges g
                          (needleAtPose g 0 (Double.of_Z 1)))
                else Pose.mkState Double.numeric_limits_max
                       (Some uninitialised) (Some 0) (Some (Double.of_Z 1))
                       (poseMatrix g 0 (Double.of_Z 1)) bestRotMat0
                       (setNeedleEdges g
                          (needleAtPose g 0 (Double.of_Z 1))))).
    - destruct (Double.lt d Double.numeric_limits_max); reflexivity.
    - reflexivity.
    - reflexivity.
    - unfold tryRotation.
      apply for_loop_once; [vm_compute; reflexivity
                           |vm_compute; reflexivity|].
      unfold tryPose. cbn [Pose.globals Pose.bestDistance Pose.bestRotMat
                           Pose.bestTranslation Pose.bestRotation
                           Pose.bestScale store].
      unfold poseDistance, needleAtPose, poseMatrix in Hrun.
      rewrite Hrun.
      destruct (Double.lt d Double.numeric_limits_max); reflexivity. }
  split.
  - exists point, d. split; [exact Hrun|exact Hkey].
  - intros Hempty. rewrite Hkey.
    unfold findBestTranslationRecursive, refineLoop in Hrun.
    rewrite (refineLoop_unchanged
               (setNeedleEdges g (needleAtPose g 0 (Double.of_Z 1)))
               garbage fuel)
      in Hrun.
    + injection Hrun as _ <-. reflexivity.
    + exact Hempty.
    + unfold refineFuel in Hinner. lia.
    + unfold refineFuel in Hinner. lia.
Qed.

Lemma find_key_examines_the_identity_pose_witness :
  (exists point d,
      @poseDistance fadingCV 9 spotInTwoDots (cvPoint 7 7) 4 0 (Double.of_Z 1)
      = Some (point, d)
      /\ @onKeyF fadingCV 9 spotInTwoDots (cvPoint 7 7) (cvPoint 5 5)
           (half, half) (quarter, one)
         = Some (if Double.lt d Double.numeric_limits_max
                 then (setNeedleEdges spotInTwoDots
                         (@needleAtPose fadingCV spotInTwoDots 0
                            (Double.of_Z 1)),
                       (point, d))
                 else (setNeedleEdges spotInTwoDots
                         (@warpInto fadingCV (needleEdges spotInTwoDots)
                            (needleEdges spotInTwoDots) (quarter, one)),
                       (cvPoint 5 5, Double.numeric_limits_max))))
  /\ (absoluteMaxX spotInTwoDots <= 0 \/ absoluteMaxY spotInTwoDots <= 0 ->
      @onKeyF fadingCV 9 spotInTwoDots (cvPoint 7 7) (cvPoint 5 5)
        (half, half) (quarter, one)
      = Some (setNeedleEdges spotInTwoDots
                (@warpInto fadingCV (needleEdges spotInTwoDots)
                   (needleEdges spotInTwoDots) (quarter, one)),
              (cvPoint 5 5, Double.numeric_limits_max))).
Proof.
  apply (find_key_examines_the_identity_pose fadingCV spotInTwoDots
           (cvPoint 7 7) (cvPoint 5 5) (half, half) (quarter, one) 9).
  vm_compute. lia.
Defined.

(** ** What findHausdorffDistance reads *)

(** X18.  [findHausdorffDistance] depends on the edge map only through
    the pixels inside it, and on the field only through the cells of the
    columns [0 .. width] and of the rows [0 .. height]: two edge maps and
    two fields of the same sizes that agree there give the same result at
    every offset.  The function reads no cell at a negative index and none
    further than one past the last column or row. *)
Theorem findHausdorffDistance_reads_only_the_extended_field :
  forall (imageA imageA' : Image Intensity)
         (imageB imageB' : Image Intensity32F) (imageAOffset : CvPoint),
    width imageA' = width imageA -> height imageA' = height imageA ->
    (forall ix iy,
        0 <= ix < width imageA -> 0 <= iy < height imageA ->
        row imageA' iy ix = row imageA iy ix) ->
    width imageB' = width imageB -> height imageB' = height imageB ->
    (forall x y,
        0 <= x <= width imageB -> 0 <= y <= height imageB ->
        row imageB' y x = row imageB y x) ->
    findHausdorffDistance imageA' imageB' imageAOffset
    = findHausdorffDistance imageA imageB imageAOffset.
Proof.
  intros imageA imageA' imageB imageB' imageAOffset HwA HhA HA HwB HhB HB.
  unfold findHausdorffDistance.
  assert (scanImage imageA' imageB' imageAOffset
          = scanImage imageA imageB imageAOffset) as ->; [|reflexivity].
  unfold scanImage. rewrite HhA.
  apply fold_left_ext_in. intros st iy Hiy. apply In_upto in Hiy.
  unfold scanRow. rewrite HhB, HwA.
  destruct ((iy + py imageAOffset <? 0)
            || (iy + py imageAOffset >? height imageB)) eqn:Hrow;
    [reflexivity|].
  apply Bool.orb_false_iff in Hrow. destruct Hrow as [Hy0 Hy1].
  apply Z.ltb_ge in Hy0. rewrite Z.gtb_ltb in Hy1. apply Z.ltb_ge in Hy1.
  apply fold_left_ext_in. intros st' ix Hix. apply In_upto in Hix.
  unfold scanPixel. rewrite HwB, (HA ix iy Hix Hiy).
  destruct (negb (row imageA iy ix =? 0)); [reflexivity|].
  destruct ((ix + px imageAOffset <? 0)
            || (ix + px imageAOffset >? width imageB)) eqn:Hcol;
    [reflexivity|].
  apply Bool.orb_false_iff in Hcol. destruct Hcol as [Hx0 Hx1].
  apply Z.ltb_ge in Hx0. rewrite Z.gtb_ltb in Hx1. apply Z.ltb_ge in Hx1.
  rewrite HB by lia. reflexivity.
Qed.

Lemma findHausdorffDistance_reads_only_the_extended_field_witness :
  findHausdorffDistance spot
    (mkImage 11 2
       (fun y x =>
          if (0 <=? x) && (x <=? 11) && (0 <=? y) && (y <=? 2)
          then row twoDotsField y x else Double.zero))
    (cvPoint 3 1)
  = findHausdorffDistance spot twoDotsField (cvPoint 3 1).
Proof.
  apply (findHausdorffDistance_reads_only_the_extended_field
           spot spot twoDotsField
           (mkImage 11 2
              (fun y x =>
                 if (0 <=? x) && (x <=? 11) && (0 <=? y) && (y <=? 2)
                 then row twoDotsField y x else Double.zero))
           (cvPoint 3 1)).
  - reflexivity.
  - reflexivity.
  - intros ix iy _ _. reflexivity.
  - reflexivity.
  - reflexivity.
  - intros x y Hx Hy. cbn [row width height twoDotsField] in *.
    replace (0 <=? x) with true by (symmetry; apply Z.leb_le; lia).
    replace (x <=? 11) with true by (symmetry; apply Z.leb_le; lia).
    replace (0 <=? y) with true by (symmetry; apply Z.leb_le; lia).
    replace (y <=? 2) with true by (symmetry; apply Z.leb_le; lia).
    reflexivity.
Defined.

(** ** Steps that do not advance *)

(** A loop whose variable does not advance while its condition holds
    never ends. *)
Lemma for_loop_stuck {I S : Type} (cond : I -> bool) (next : I -> I) (i : I)
    (body : S -> I -> option S) :
  cond i = true -> next i = i ->
  forall (fuel : nat) (s : S), for_loop fuel cond next i body s = None.
Proof.
  intros Hc Hn. induction fuel as [|fuel IH]; intros s; cbn; rewrite Hc.
  - reflexivity.
  - destruct (body s i) as [s'|]; [|reflexivity]. rewrite Hn. apply IH.
Qed.

(** A loop whose body never returns at the first value of the variable
    does not return. *)
Lemma for_loop_body_stuck {I S : Type} (cond : I -> bool) (next : I -> I)
    (i : I) (body : S -> I -> option S) :
  cond i = true -> (forall s, body s i = None) ->
  forall (fuel : nat) (s : S), for_loop fuel cond next i body s = None.
Proof.
  intros Hc Hb fuel s. destruct fuel; cbn; rewrite Hc; [reflexivity|].
  rewrite Hb. reflexivity.
Qed.

(** X19.  With the step 0 and a window that is not empty,
    [findBestTranslation] does not terminate: the model returns under no
    fuel.  ([findBestTranslationRecursive] only passes positive steps.) *)
Theorem findBestTranslation_with_step_zero_never_returns :
  forall (g : Globals) (minX minY maxX maxY : Z) (fuel : nat),
    minX < maxOffsetX g maxX -> minY < maxOffsetY g maxY ->
    findBestTranslation fuel g 0 minX minY maxX maxY = None.
Proof.
  intros g minX minY maxX maxY fuel Hx Hy.
  unfold findBestTranslation, searchLoops.
  rewrite for_loop_body_stuck; [reflexivity| |].
  - apply Z.ltb_lt. exact Hy.
  - intros b. unfold searchRow. apply for_loop_stuck.
    + apply Z.ltb_lt. exact Hx.
    + apply Z.add_0_r.
Qed.

Lemma findBestTranslation_with_step_zero_witness :
  findBestTranslation 1000 spotInTwoDots 0 0 0 (-1) (-1) = None.
Proof.
  apply (findBestTranslation_with_step_zero_never_returns spotInTwoDots
           0 0 (-1) (-1) 1000).
  - vm_compute. reflexivity.
  - vm_compute. reflexivity.
Defined.

(** X20.  [findBestTranslationScaleAndRotation] does not terminate when
    there is a rotation to try and either the rotation step is 0, or the
    scale step does not change the first scale (a step of 0, or one too
    small for the sum to differ) and that scale is within the range: the
    model returns under no fuel. *)
Theorem pose_search_with_a_stuck_step_never_returns :
  forall (cv : OpenCV) (g : Globals) (garbage : CvPoint)
         (rotMat0 bestRotMat0 : CvMat)
         (bestTranslation0 : option CvPoint) (bestRotation0 : option Z)
         (bestScale0 : option double)
         (initialTranslationStep minRotation maxRotation rotationStep : Z)
         (minScale maxScale scaleStep : double) (fuel : nat),
    minRotation <= maxRotation ->
    rotationStep = 0
    \/ (Double.le minScale maxScale = true
        /\ Double.add minScale scaleStep = minScale) ->
    findBestTranslationScaleAndRotation fuel g garbage rotMat0 bestRotMat0
      bestTranslation0 bestRotation0 bestScale0 initialTranslationStep
      minRotation maxRotation rotationStep minScale maxScale scaleStep
    = None.
Proof.
  intros cv g garbage rotMat0 bestRotMat0 bestTranslation0 bestRotation0
         bestScale0 initialTranslationStep minRotation maxRotation
         rotationStep minScale maxScale scaleStep fuel Hrot
         [->|[Hle Hstuck]];
    unfold findBestTranslationScaleAndRotation.
  - rewrite for_loop_stuck; [reflexivity| |apply Z.add_0_r].
    apply Z.leb_le. exact Hrot.
  - rewrite for_loop_body_stuck; [reflexivity| |].
    + apply Z.leb_le. exact Hrot.
    + intros st. unfold tryRotation. apply for_loop_stuck; assumption.
Qed.

Lemma pose_search_with_a_stuck_step_witness :
  @findBestTranslationScaleAndRotation fadingCV 50 spotInTwoDots (cvPoint 7 7)
    (half, half) (quarter, one) None None None 4 0 0 1 one one Double.zero
  = None.
Proof.
  apply (pose_search_with_a_stuck_step_never_returns fadingCV spotInTwoDots
           (cvPoint 7 7) (half, half) (quarter, one) None None None
           4 0 0 1 one one Double.zero 50).
  - lia.
  - right. split; vm_compute; reflexivity.
Defined.
